(** * Cut optimizer: the maximal-rectangles packing engine

    A shallow embedding of [packPieces] (the multi-strategy maximal
    rectangles packer with its consolidation pass) and of
    [generateSuggestions], followed by the properties of the engine.
    The guillotine packer of the same file and [calculate], the caller of
    the page script, are embedded after the engine, and their properties
    follow those of the engine.

    Numbers.  JavaScript numbers are modelled as exact rationals [Q]:
    [+], [-], [*], [/], [Math.min], [Math.max], [Math.floor], [Math.ceil]
    and the comparisons are the exact operations, and [!==] on numbers is
    the negation of [Qeq_bool].  Rounding of floating point, [NaN] and the
    infinities are outside the model; a division by zero, which the source
    meets only on a sheet of area zero, is [0] here.  On whole sizes of at
    most 2^26 the sums, differences and products of the engine are exact
    in JavaScript as well; the properties that turn on a tie between two
    computed numbers are stated for such sizes.  Array lengths and
    indices are [nat]; the sheet cap is an integer [Z].

    State.  The engine mutates sheet objects in place; here every helper
    takes the sheet it mutates and returns the updated sheet, and an array
    of sheets is a list updated by index.  [movedIndices] is a finite set.

    Loops.  The [for] loops are folds or structural recursions over the
    array they scan.  The only unbounded loop, [while (improved)] of
    [consolidateSheets], takes a fuel argument and answers [None] when the
    fuel does not suffice; [consolidation_terminates] shows that some fuel
    always does. *)

From Stdlib Require Import QArith Qminmax Qround Qabs Lqa.
From Stdlib Require Import DecimalString DecimalPos.
From Stdlib Require Import Ascii String.
From stdpp Require Import base list gmap strings sorting.

Local Open Scope Q_scope.

(** ** Data model *)

Record Piece := mkPiece {
  pc_id : string;
  pc_label : string;
  pc_furniture : string;
  pc_color : string;
  width : Q;
  height : Q
}.

(** A free rectangle [{x, y, w, h}]. *)
Record Rect := mkRect { r_x : Q; r_y : Q; r_w : Q; r_h : Q }.

(** An entry of [sheet.pieces]. *)
Record Placed := mkPlaced {
  pl_x : Q;
  pl_y : Q;
  pl_w : Q;
  pl_h : Q;
  pl_rotated : bool;
  pl_id : string;
  pl_label : string;
  pl_furniture : string;
  pl_color : string;
  origW : Q;
  origH : Q
}.

Record Sheet := mkSheet {
  freeRects : list Rect;
  pieces : list Placed;
  usedArea : Q
}.

Inductive Heuristic := HEURISTIC_BSSF | HEURISTIC_BLSF | HEURISTIC_BAF.

Record Score := mkScore { primary : Q; secondary : Q; positionScore : Q }.

(** The object returned by [findBestFit]. *)
Record Fit := mkFit {
  fit_rect : Rect;
  fit_w : Q;
  fit_h : Q;
  fit_rotated : bool;
  fit_score : Score
}.

(** [{ ...piece, reason }] *)
Record Unplaced := mkUnplaced { u_piece : Piece; reason : string }.

(** The object returned by [runStrategy]. *)
Record StrategyResult := mkResult {
  sheets : list Sheet;
  unplaced : list Unplaced
}.

#[global] Instance Rect_inhabited : Inhabited Rect := populate (mkRect 0 0 0 0).

(** ** Number helpers *)

Definition Qltb (a b : Q) : bool := negb (Qle_bool b a).
Definition Qneqb (a b : Q) : bool := negb (Qeq_bool a b).

(** ** Array helpers *)

(** [arr.filter((x, i) => f(x, i))], the index starting at [i]. *)
Fixpoint filter_idx {A} (f : A -> nat -> bool) (i : nat) (l : list A) : list A :=
  match l with
  | [] => []
  | a :: l' =>
      if f a i then a :: filter_idx f (S i) l' else filter_idx f (S i) l'
  end.

(** [arr.filter(x => f(x))] *)
Fixpoint filterb {A} (f : A -> bool) (l : list A) : list A :=
  match l with
  | [] => []
  | a :: l' => if f a then a :: filterb f l' else filterb f l'
  end.

(** [arr.sort(cmp)]: the sort is stable, an element goes before another
    when [cmp] is negative, and ties keep the order of the input. *)
Fixpoint sort_insert {A} (cmp : A -> A -> Q) (a : A) (l : list A) : list A :=
  match l with
  | [] => [a]
  | b :: l' =>
      if Qle_bool (cmp a b) 0 then a :: b :: l' else b :: sort_insert cmp a l'
  end.

Fixpoint js_sort {A} (cmp : A -> A -> Q) (l : list A) : list A :=
  match l with
  | [] => []
  | a :: l' => sort_insert cmp a (js_sort cmp l')
  end.

(** ** Number formatting

    [toFixed], [parseFloat] and the template conversions, on exact
    rationals; [parseFloat] reads the decimal notation that [toFixed]
    writes (sign, integer digits, fraction digits). *)

Definition string_of_Z (z : Z) : string := NilZero.string_of_int (Z.to_int z).

Fixpoint zeros (n : nat) : string :=
  match n with
  | O => EmptyString
  | S n' => String "0"%char (zeros n')
  end.

(** [x.toFixed(digits)]: the integer [n] nearest to [x * 10^digits], the
    larger one on a tie, written with [digits] decimals. *)
Definition toFixed (digits : nat) (x : Q) : string :=
  let neg := Qltb x 0 in
  let ax := if neg then - x else x in
  let n := Qfloor (ax * inject_Z (10 ^ Z.of_nat digits) + (1 # 2)) in
  let m := string_of_Z n in
  let m := (zeros (S digits - String.length m) ++ m)%string in
  let k := String.length m in
  let a := substring 0 (k - digits) m in
  let b := substring (k - digits) digits m in
  ((if neg then "-" else "") ++ a ++
   (match digits with O => "" | S _ => "." ++ b end))%string.

Definition digit_of_ascii (c : ascii) : option Z :=
  let n := Z.of_N (N_of_ascii c) in
  if ((48 <=? n) && (n <=? 57))%Z then Some (n - 48)%Z else None.

Fixpoint readDigits (s : string) (acc : Z) (cnt : nat) : Z * nat * string :=
  match s with
  | EmptyString => (acc, cnt, s)
  | String c s' =>
      match digit_of_ascii c with
      | Some d => readDigits s' (10 * acc + d)%Z (S cnt)
      | None => (acc, cnt, s)
      end
  end.

Definition parseFloat (s : string) : Q :=
  let '(neg, s1) :=
    match s with
    | String "-"%char s' => (true, s')
    | _ => (false, s)
    end in
  let '(ip, _, s2) := readDigits s1 0%Z 0%nat in
  let '(fp, k, _) :=
    match s2 with
    | String "."%char s' => readDigits s' 0%Z 0%nat
    | _ => (0%Z, 0%nat, s2)
    end in
  let v := inject_Z ip + inject_Z fp / inject_Z (10 ^ Z.of_nat k) in
  if neg then - v else v.

(** [`${Math.floor(x)}`] *)
Definition floorStr (x : Q) : string := string_of_Z (Qfloor x).

(** [`${n}`] for an array length or index *)
Definition natStr (n : nat) : string := string_of_Z (Z.of_nat n).

(** [arr.join(sep)] *)
Fixpoint join (sep : string) (l : list string) : string :=
  match l with
  | [] => EmptyString
  | [a] => a
  | a :: l' => (a ++ sep ++ join sep l')%string
  end.

(** ** Output records *)

(** [largestFree]: the sentinel [{ w: 0, h: 0, area: 0 }] has no [x], [y]. *)
Record LargestFree := mkLargestFree {
  lf_w : Q;
  lf_h : Q;
  lf_area : Q;
  lf_x : option Q;
  lf_y : option Q
}.

Record OutSheet := mkOutSheet {
  o_pieces : list Placed;
  wastePercent : string;
  o_usedArea : Q;
  o_freeRects : list Rect;
  largestFree : LargestFree;
  totalFreeArea : Q
}.

Record Suggestion := mkSuggestion {
  s_type : string;
  s_sheet : nat;
  message : string
}.

Record PackingResult := mkPacking {
  res_sheets : list OutSheet;
  res_unplaced : list Unplaced;
  suggestions : list Suggestion
}.

Section Packer.

Variables (sheetW sheetH kerf : Q) (maxSheets : Z).

(** ** Core helpers *)

Definition newSheet : Sheet :=
  mkSheet [mkRect 0 0 sheetW sheetH] [] 0.

Definition isContained (a b : Rect) : bool :=
  Qle_bool (r_x b) (r_x a) && Qle_bool (r_y b) (r_y a) &&
  Qle_bool (r_x a + r_w a) (r_x b + r_w b) &&
  Qle_bool (r_y a + r_h a) (r_y b + r_h b).

(** The inner loop [for (j = i + 1; ...)] of [pruneFreeRects], over the
    indices [js] still to visit; [break] ends the recursion. *)
Fixpoint pruneInner (rects : list Rect) (i : nat) (js : list nat)
    (keep : list bool) : list bool :=
  match js with
  | [] => keep
  | j :: js' =>
      if negb (keep !!! j) then pruneInner rects i js' keep
      else if isContained (rects !!! i) (rects !!! j) then <[i:=false]> keep
      else if isContained (rects !!! j) (rects !!! i)
           then pruneInner rects i js' (<[j:=false]> keep)
           else pruneInner rects i js' keep
  end.

Definition pruneStep (rects : list Rect) (keep : list bool) (i : nat)
    : list bool :=
  if negb (keep !!! i) then keep
  else pruneInner rects i (seq (S i) (length rects - S i)) keep.

Definition pruneKeep (rects : list Rect) : list bool :=
  foldl (pruneStep rects) (replicate (length rects) true)
        (seq 0 (length rects)).

Definition pruneFreeRects (sheet : Sheet) : Sheet :=
  let rects := freeRects sheet in
  let keep := pruneKeep rects in
  mkSheet (filter_idx (fun _ i => keep !!! i) 0 rects)
          (pieces sheet) (usedArea sheet).

(** The part of a free rectangle [r] left around the consumed area
    [[x, px2) x [y, py2)]. *)
Definition splitFree (x y px2 py2 : Q) (r : Rect) : list Rect :=
  if Qle_bool (r_x r + r_w r) x || Qle_bool px2 (r_x r) ||
     Qle_bool (r_y r + r_h r) y || Qle_bool py2 (r_y r)
  then [r]
  else
    (if Qltb (r_x r) x
     then [mkRect (r_x r) (r_y r) (x - r_x r) (r_h r)] else []) ++
    (if Qltb px2 (r_x r + r_w r)
     then [mkRect px2 (r_y r) (r_x r + r_w r - px2) (r_h r)] else []) ++
    (if Qltb (r_y r) y
     then [mkRect (r_x r) (r_y r) (r_w r) (y - r_y r)] else []) ++
    (if Qltb py2 (r_y r + r_h r)
     then [mkRect (r_x r) py2 (r_w r) (r_y r + r_h r - py2)] else []).

Definition bigEnough (r : Rect) : bool :=
  Qltb (1 # 2) (r_w r) && Qltb (1 # 2) (r_h r).

Definition placeRect (sheet : Sheet) (x y w h : Q) : Sheet :=
  let pw := w + kerf in
  let ph := h + kerf in
  let px2 := Qmin (x + pw) sheetW in
  let py2 := Qmin (y + ph) sheetH in
  let newFree := freeRects sheet ≫= splitFree x y px2 py2 in
  pruneFreeRects
    (mkSheet (filterb bigEnough newFree) (pieces sheet) (usedArea sheet)).

(** ** Fit scorer *)

Definition scoreFit (r : Rect) (pw ph : Q) (heuristic : Heuristic) : Score :=
  let leftoverW := r_w r - pw in
  let leftoverH := r_h r - ph in
  let positionScore := r_y r * sheetW + r_x r in
  match heuristic with
  | HEURISTIC_BSSF =>
      mkScore (Qmin leftoverW leftoverH) (Qmax leftoverW leftoverH)
              positionScore
  | HEURISTIC_BLSF =>
      mkScore (Qmax leftoverW leftoverH) (Qmin leftoverW leftoverH)
              positionScore
  | HEURISTIC_BAF =>
      mkScore (leftoverW * leftoverH + leftoverW + leftoverH)
              (Qmin leftoverW leftoverH) positionScore
  end.

Definition isBetterScore (a b : Score) : bool :=
  if Qneqb (primary a) (primary b) then Qltb (primary a) (primary b)
  else if Qneqb (secondary a) (secondary b)
       then Qltb (secondary a) (secondary b)
       else Qltb (positionScore a) (positionScore b).

(** The loop variables [bestScore], [bestRect], [bestW], [bestH] of
    [findBestFit]. *)
Record Best := mkBest {
  bestScore : option Score;
  bestRect : option Rect;
  bestW : Q;
  bestH : Q
}.

(** [if (!bestScore || isBetterScore(score, bestScore)) { ... }] *)
Definition improve (b : Best) (r : Rect) (w h : Q) (score : Score) : Best :=
  match bestScore b with
  | None => mkBest (Some score) (Some r) w h
  | Some s =>
      if isBetterScore score s then mkBest (Some score) (Some r) w h else b
  end.

Definition fitStep (pw ph : Q) (heuristic : Heuristic) (b : Best) (r : Rect)
    : Best :=
  let b1 :=
    if Qle_bool pw (r_w r) && Qle_bool ph (r_h r)
    then improve b r pw ph (scoreFit r pw ph heuristic) else b in
  if Qle_bool ph (r_w r) && Qle_bool pw (r_h r) && Qneqb pw ph
  then improve b1 r ph pw (scoreFit r ph pw heuristic) else b1.

Definition findBestFit (sheet : Sheet) (pw ph : Q) (heuristic : Heuristic)
    : option Fit :=
  let b := foldl (fitStep pw ph heuristic) (mkBest None None pw ph)
                 (freeRects sheet) in
  match bestRect b, bestScore b with
  | Some r, Some s => Some (mkFit r (bestW b) (bestH b) (Qneqb (bestW b) pw) s)
  | _, _ => None
  end.

(** [tryPlace] returns the updated sheet, or [None] for [false]. *)
Definition tryPlace (piece : Piece) (sheet : Sheet) (heuristic : Heuristic)
    : option Sheet :=
  match findBestFit sheet (width piece) (height piece) heuristic with
  | None => None
  | Some fit =>
      let placed :=
        mkPlaced (r_x (fit_rect fit)) (r_y (fit_rect fit))
                 (fit_w fit) (fit_h fit) (fit_rotated fit)
                 (pc_id piece) (pc_label piece) (pc_furniture piece)
                 (pc_color piece) (width piece) (height piece) in
      Some (placeRect
              (mkSheet (freeRects sheet) (pieces sheet ++ [placed])
                       (usedArea sheet + fit_w fit * fit_h fit))
              (r_x (fit_rect fit)) (r_y (fit_rect fit))
              (fit_w fit) (fit_h fit))
  end.

(** ** Strategy runner *)

Definition fitsAtAll (piece : Piece) : bool :=
  (Qle_bool (width piece) sheetW && Qle_bool (height piece) sheetH) ||
  (Qle_bool (height piece) sheetW && Qle_bool (width piece) sheetH).

(** The loop over the open sheets of [runStrategy], from index [i] on; the
    index [-1] of the source is [None]. *)
Fixpoint bestSheetLoop (pw ph : Q) (heuristic : Heuristic) (i : nat)
    (rest : list Sheet) (bestSheetIdx : option nat) (best : option Score)
    : option nat :=
  match rest with
  | [] => bestSheetIdx
  | s :: rest' =>
      match findBestFit s pw ph heuristic with
      | Some fit =>
          if match best with
             | None => true
             | Some b => isBetterScore (fit_score fit) b
             end
          then bestSheetLoop pw ph heuristic (S i) rest' (Some i)
                             (Some (fit_score fit))
          else bestSheetLoop pw ph heuristic (S i) rest' bestSheetIdx best
      | None => bestSheetLoop pw ph heuristic (S i) rest' bestSheetIdx best
      end
  end.

#[global] Instance Sheet_inhabited : Inhabited Sheet := populate (mkSheet [] [] 0).

(** [tryPlace(piece, sheet, heuristic)] with the result ignored: the sheet
    is left as it is when the piece does not fit. *)
Definition tryPlace_ (piece : Piece) (sheet : Sheet) (heuristic : Heuristic)
    : Sheet :=
  default sheet (tryPlace piece sheet heuristic).

(** One iteration of [for (const piece of sorted)]. *)
Definition runStep (heuristic : Heuristic) (st : StrategyResult)
    (piece : Piece) : StrategyResult :=
  if negb (fitsAtAll piece)
  then mkResult (sheets st)
                (unplaced st ++ [mkUnplaced piece "Too large for sheet"])
  else
    match bestSheetLoop (width piece) (height piece) heuristic 0 (sheets st)
                        None None with
    | Some idx =>
        mkResult (<[idx := tryPlace_ piece (sheets st !!! idx) heuristic]>
                    (sheets st))
                 (unplaced st)
    | None =>
        if (maxSheets <=? Z.of_nat (length (sheets st)))%Z
        then mkResult (sheets st)
                      (unplaced st ++ [mkUnplaced piece "No sheets remaining"])
        else
          match tryPlace piece newSheet heuristic with
          | Some s => mkResult (sheets st ++ [s]) (unplaced st)
          | None =>
              mkResult (sheets st)
                       (unplaced st ++ [mkUnplaced piece "Could not place"])
          end
    end.

Definition runStrategy (sorted : list Piece) (heuristic : Heuristic)
    : StrategyResult :=
  foldl (runStep heuristic) (mkResult [] []) sorted.

(** ** Strategy selector *)

(** The four comparators of [sortStrategies]. *)
Definition sortStrategies : list (Piece -> Piece -> Q) :=
  [ (fun a b =>
       let d := width b * height b - width a * height a in
       if Qneqb d 0 then d
       else Qmax (width b) (height b) - Qmax (width a) (height a));
    (fun a b =>
       let d := (width b + height b) - (width a + height a) in
       if Qneqb d 0 then d else width b * height b - width a * height a);
    (fun a b =>
       let d := Qmax (width b) (height b) - Qmax (width a) (height a) in
       if Qneqb d 0 then d else width b * height b - width a * height a);
    (fun a b =>
       let d := Qmax (width b) (height b) - Qmax (width a) (height a) in
       if Qneqb d 0 then d
       else Qmin (width b) (height b) - Qmin (width a) (height a)) ].

Definition heuristics : list Heuristic :=
  [HEURISTIC_BSSF; HEURISTIC_BLSF; HEURISTIC_BAF].

Record ResultScore := mkResultScore {
  sheetCount : nat;
  waste : Q;
  unplacedCount : nat
}.

Definition resultScore (r : StrategyResult) : ResultScore :=
  let totalArea := sheetW * sheetH in
  let totalUsed := foldl (fun s sh => s + usedArea sh) 0 (sheets r) in
  let totalSheetArea := inject_Z (Z.of_nat (length (sheets r))) * totalArea in
  let wasteRatio :=
    if Qltb 0 totalSheetArea then 1 - totalUsed / totalSheetArea else 0 in
  mkResultScore (length (sheets r)) wasteRatio (length (unplaced r)).

Definition isBetterResult (a b : StrategyResult) : bool :=
  let sa := resultScore a in
  let sb := resultScore b in
  if negb (unplacedCount sa =? unplacedCount sb)%nat
  then (unplacedCount sa <? unplacedCount sb)%nat
  else if negb (sheetCount sa =? sheetCount sb)%nat
       then (sheetCount sa <? sheetCount sb)%nat
       else Qltb (waste sa) (waste sb).

(** [if (!bestResult || isBetterResult(result, bestResult)) bestResult = result] *)
Definition keepBest (bestResult : option StrategyResult)
    (result : StrategyResult) : option StrategyResult :=
  match bestResult with
  | None => Some result
  | Some b => if isBetterResult result b then Some result else bestResult
  end.

(** The two nested loops over [sortStrategies] and [heuristics]. *)
Definition strategyGrid (pieces : list Piece) : option StrategyResult :=
  foldl (fun bestResult sortFn =>
           let sorted := js_sort sortFn pieces in
           foldl (fun bestResult heuristic =>
                    keepBest bestResult (runStrategy sorted heuristic))
                 bestResult heuristics)
        None sortStrategies.

(** ** Consolidation *)

(** [{ id: p.id, ..., width: p.origW, height: p.origH }] *)
Definition fakePiece (p : Placed) : Piece :=
  mkPiece (pl_id p) (pl_label p) (pl_furniture p) (pl_color p)
          (origW p) (origH p).

(** The loop [for (si = 0; si < result.sheets.length - 1; si++)] over the
    indices [sis] still to visit: the first sheet that fits receives the
    piece; [None] when no earlier sheet fits. *)
Fixpoint moveInto (piece : Piece) (sis : list nat) (shs : list Sheet)
    : option (list Sheet) :=
  match sis with
  | [] => None
  | si :: sis' =>
      match findBestFit (shs !!! si) (width piece) (height piece)
                        HEURISTIC_BSSF with
      | Some _ =>
          Some (<[si := tryPlace_ piece (shs !!! si) HEURISTIC_BSSF]> shs)
      | None => moveInto piece sis' shs
      end
  end.

(** The loop over [piecesToMove], from index [pi] on, threading the
    sheets, [movedIndices] and [improved]. *)
Fixpoint moveLoop (pi : nat) (ps : list Placed) (shs : list Sheet)
    (movedIndices : gset nat) (improved : bool)
    : list Sheet * gset nat * bool :=
  match ps with
  | [] => (shs, movedIndices, improved)
  | p :: ps' =>
      match moveInto (fakePiece p) (seq 0 (length shs - 1)) shs with
      | Some shs' => moveLoop (S pi) ps' shs' ({[pi]} ∪ movedIndices) true
      | None => moveLoop (S pi) ps' shs movedIndices improved
      end
  end.

(** [for (const p of remaining) tryPlace(fakePiece, rebuilt, BSSF)] *)
Definition rebuild (remaining : list Placed) : Sheet :=
  foldl (fun rebuilt p => tryPlace_ (fakePiece p) rebuilt HEURISTIC_BSSF)
        newSheet remaining.

(** One iteration of [while (improved)], after the test on the number of
    sheets: the sheets at the end of the iteration, and [improved]. *)
Definition consolidatePass (shs : list Sheet) : list Sheet * bool :=
  let shs := js_sort (fun a b => usedArea b - usedArea a) shs in
  let lastSheet := shs !!! (length shs - 1)%nat in
  let piecesToMove := pieces lastSheet in
  let '(shs, movedIndices, improved) :=
    moveLoop 0 piecesToMove shs ∅ false in
  if (0 <? size movedIndices)%nat
  then
    if (size movedIndices =? length piecesToMove)%nat
    then (removelast shs, improved)
    else
      let remaining :=
        filter_idx (fun _ i => negb (bool_decide (i ∈ movedIndices)))
                   0 piecesToMove in
      (<[(length shs - 1)%nat := rebuild remaining]> shs, improved)
  else (shs, improved).

Fixpoint consolidateSheets (fuel : nat) (result : StrategyResult)
    : option StrategyResult :=
  match fuel with
  | O => None
  | S fuel' =>
      if (length (sheets result) <=? 1)%nat then Some result
      else
        let '(shs, improved) := consolidatePass (sheets result) in
        let result := mkResult shs (unplaced result) in
        if improved then consolidateSheets fuel' result else Some result
  end.

(** ** Final output *)

Definition computeActualFreeArea (rects : list Rect) : Q :=
  let sum := foldl (fun s r => s + r_w r * r_h r) 0 rects in
  Qmin sum (sheetW * sheetH).

Definition findLargestFree (rects : list Rect) : LargestFree :=
  foldl (fun largest r =>
           let a := r_w r * r_h r in
           if Qltb (lf_area largest) a
           then mkLargestFree (r_w r) (r_h r) a (Some (r_x r)) (Some (r_y r))
           else largest)
        (mkLargestFree 0 0 0 None None) rects.

Definition buildSheet (s : Sheet) : OutSheet :=
  let totalArea := sheetW * sheetH in
  mkOutSheet (pieces s)
             (toFixed 1 ((1 - usedArea s / totalArea) * 100))
             (usedArea s) (freeRects s)
             (findLargestFree (freeRects s))
             (computeActualFreeArea (freeRects s)).

(** ** Suggestion reporter *)

(** The loop collecting the distinct [WxH] keys of the free rectangles of
    at least 200 by 200. *)
Fixpoint fitExamplesLoop (rects : list Rect) (seen : gset string)
    (fitExamples : list string) : list string :=
  match rects with
  | [] => fitExamples
  | r :: rects' =>
      if Qle_bool 200 (r_w r) && Qle_bool 200 (r_h r)
      then
        let key := (floorStr (r_w r) ++ "x" ++ floorStr (r_h r))%string in
        if bool_decide (key ∈ seen)
        then fitExamplesLoop rects' seen fitExamples
        else fitExamplesLoop rects' ({[key]} ∪ seen) (fitExamples ++ [key])
      else fitExamplesLoop rects' seen fitExamples
  end.

(** The callback of [sheets.forEach((sheet, idx) => ...)], for a list of
    [n] sheets. *)
Definition sheetSuggestions (n : nat) (idx : nat) (sheet : OutSheet)
    : list Suggestion :=
  let totalArea := sheetW * sheetH in
  let wasteNum := parseFloat (wastePercent sheet) in
  if Qltb 0 (lf_area (largestFree sheet))
  then
    let freePercent := toFixed 0 (totalFreeArea sheet / totalArea * 100) in
    (if Qltb 15 wasteNum
     then
       let fitExamples := fitExamplesLoop (o_freeRects sheet) ∅ [] in
       if (0 <? length fitExamples)%nat
       then [mkSuggestion "fill_gaps" (idx + 1)
               ("Sheet " ++ natStr (idx + 1) ++ " has " ++ freePercent ++
                "% free space. Usable gaps: " ++
                join ", " (take 3 fitExamples) ++
                ". Consider adding smaller parts here to reduce waste.")%string]
       else []
     else []) ++
    (if (idx <? n - 1)%nat && Qltb 30 wasteNum
     then [mkSuggestion "consolidate" (idx + 1)
             ("Sheet " ++ natStr (idx + 1) ++ " is only " ++
              toFixed 0 (100 - wasteNum) ++
              "% used. Smaller pieces from later sheets could potentially fill gaps here.")%string]
     else [])
  else [].

Definition generateSuggestions (shs : list OutSheet) (unpl : list Unplaced)
    : list Suggestion :=
  let totalArea := sheetW * sheetH in
  let n := length shs in
  concat (imap (sheetSuggestions n) shs) ++
  (match last shs with
   | Some lastSheet =>
       let lastWaste := parseFloat (wastePercent lastSheet) in
       if Qltb 20 lastWaste
       then
         let lf := largestFree lastSheet in
         [mkSuggestion "future_use" n
            ("Sheet " ++ natStr n ++
             " (last used) has a largest free area of " ++
             floorStr (lf_w lf) ++ "x" ++ floorStr (lf_h lf) ++
             " — available for future furniture.")%string]
       else []
   | None => []
   end) ++
  (if (1 <? n)%nat
   then
     let totalUsed := foldl (fun s sh => s + o_usedArea sh) 0 shs in
     let minSheetsNeeded := Qceiling (totalUsed / totalArea) in
     if (minSheetsNeeded <? Z.of_nat n)%Z
     then [mkSuggestion "efficiency" 0
             ("Theoretical minimum: " ++ string_of_Z minSheetsNeeded ++
              " sheet" ++ (if (1 <? minSheetsNeeded)%Z then "s" else "") ++
              ". Current: " ++ natStr n ++
              " sheets. The extra space is available for future cuts.")%string]
     else []
   else []).

(** ** Entry point *)

(** [packPieces(pieces, sheetW, sheetH, kerf, maxSheets)].  [bestResult] is
    not [null] after the grid, which runs twelve strategies. *)
Definition packPieces (fuel : nat) (pcs : list Piece) : option PackingResult :=
  if (length pcs =? 0)%nat then Some (mkPacking [] [] [])
  else
    bestResult ← strategyGrid pcs;
    bestResult ← (if (1 <? length (sheets bestResult))%nat
                   then consolidateSheets fuel bestResult
                   else Some bestResult);
    let resultSheets := map buildSheet (sheets bestResult) in
    Some (mkPacking resultSheets (unplaced bestResult)
            (generateSuggestions resultSheets (unplaced bestResult))).

End Packer.

(** * Specification vocabulary

    The predicates and reference definitions that the statements below
    use. *)

(** ** Free rectangles *)


(** A rectangle that does not meet the area [[x, x2) x [y, y2)]. *)
Definition disjointFrom (x y x2 y2 : Q) (r : Rect) : Prop :=
  r_x r + r_w r <= x \/ x2 <= r_x r \/ r_y r + r_h r <= y \/ y2 <= r_y r.

(** The four remainders of [r] around the consumed area. *)
Definition leftOf (x : Q) (r : Rect) : Rect :=
  mkRect (r_x r) (r_y r) (x - r_x r) (r_h r).

Definition rightOf (x2 : Q) (r : Rect) : Rect :=
  mkRect x2 (r_y r) (r_x r + r_w r - x2) (r_h r).

Definition above (y : Q) (r : Rect) : Rect :=
  mkRect (r_x r) (r_y r) (r_w r) (y - r_y r).

Definition below (y2 : Q) (r : Rect) : Rect :=
  mkRect (r_x r) y2 (r_w r) (r_y r + r_h r - y2).

(** ** Fit search *)

(** The order on scores, as a proposition: lexicographic on
    [(primary, secondary, positionScore)], lower first. *)
Definition scoreLt (a b : Score) : Prop :=
  primary a < primary b \/
  (primary a == primary b /\
   (secondary a < secondary b \/
    (secondary a == secondary b /\ positionScore a < positionScore b))).

(** A piece of placed dimensions [w] by [h] fits the free rectangle. *)
Definition fits (w h : Q) (r : Rect) : bool :=
  Qle_bool w (r_w r) && Qle_bool h (r_h r).

(** The candidates of the fit search, following the specification: for
    every free rectangle, the unrotated orientation when it fits, then the
    rotated one when it fits and the piece is not square. *)
Definition spec_candidatesOf (sheetW pw ph : Q) (heuristic : Heuristic)
    (r : Rect) : list Fit :=
  (if fits pw ph r
   then [mkFit r pw ph false (scoreFit sheetW r pw ph heuristic)] else []) ++
  (if fits ph pw r && Qneqb pw ph
   then [mkFit r ph pw true (scoreFit sheetW r ph pw heuristic)] else []).

Definition spec_candidates (sheetW : Q) (rects : list Rect) (pw ph : Q)
    (heuristic : Heuristic) : list Fit :=
  rects ≫= spec_candidatesOf sheetW pw ph heuristic.

(** The loop state [b] holds a best candidate of the list [L]. *)
Definition bestOf (b : Best) (L : list Fit) : Prop :=
  match bestScore b with
  | None => bestRect b = None /\ L = []
  | Some s =>
      exists fit, fit ∈ L /\ s = fit_score fit /\
        bestRect b = Some (fit_rect fit) /\
        bestW b = fit_w fit /\ bestH b = fit_h fit /\
        forall c, c ∈ L -> isBetterScore (fit_score c) s = false
  end.

(** ** Strategy selector *)

(** The packing attempts of the grid, in the order they are run. *)
Definition attempts (sheetW sheetH kerf : Q) (maxSheets : Z)
    (pcs : list Piece) : list StrategyResult :=
  sortFn ← sortStrategies;
  heuristic ← heuristics;
  [runStrategy sheetW sheetH kerf maxSheets (js_sort sortFn pcs) heuristic].

(** The order on results, as a proposition. *)
Definition resultLt (sheetW sheetH : Q) (a b : StrategyResult) : Prop :=
  (length (unplaced a) < length (unplaced b))%nat \/
  (length (unplaced a) = length (unplaced b) /\
   ((length (sheets a) < length (sheets b))%nat \/
    (length (sheets a) = length (sheets b) /\
     waste (resultScore sheetW sheetH a) <
     waste (resultScore sheetW sheetH b)))).

(** The used area of all the sheets of a result. *)
Definition totalUsed (r : StrategyResult) : Q :=
  foldl (fun s sh => s + usedArea sh) 0 (sheets r).

(** ** Consolidation *)

(** The area of a placed piece and of a list of them. *)
Definition areaOf (p : Placed) : Q := origW p * origH p.

Definition sumAreas (ps : list Placed) : Q :=
  foldr (fun p s => areaOf p + s) 0 ps.

(** [usedArea] is the sum of the areas of the pieces of the sheet, none of
    which is negative. *)
Definition sheetOk (s : Sheet) : Prop :=
  usedArea s == sumAreas (pieces s) /\
  Forall (fun p => 0 <= areaOf p) (pieces s).

(** Sheets in the order of the sort: used area going down. *)
Definition descending : list Sheet -> Prop :=
  StronglySorted (fun a b => usedArea b <= usedArea a).

(** The number of pieces on the sheet that a pass empties: the last one
    after sorting. *)
Definition lastPieces (shs : list Sheet) : nat :=
  let sorted := js_sort (fun a b => usedArea b - usedArea a) shs in
  length (pieces (sorted !!! (length sorted - 1)%nat)).

(** The indices of the pieces that a pass moves. *)
Definition passMoved (sheetW sheetH kerf : Q) (shs : list Sheet) : gset nat :=
  let sorted := js_sort (fun a b => usedArea b - usedArea a) shs in
  (moveLoop sheetW sheetH kerf 0
     (pieces (sorted !!! (length sorted - 1)%nat)) sorted ∅ false).1.2.

(** ** Inputs *)


(** A piece with an identity and dimensions, the display fields empty. *)
Definition pieceOf (id : string) (w h : Q) : Piece := mkPiece id "" "" "" w h.

(** Three pieces for a 20 by 10 sheet cut with a kerf of 1. *)
Definition kerfExample : list Piece :=
  [pieceOf "a" 1 3; pieceOf "b" 7 1; pieceOf "c" 4 2].

(** Four pieces for 15 by 10 sheets cut with a kerf of 0. *)
Definition rebuildExample : list Piece :=
  [pieceOf "a" 6 9; pieceOf "b" 2 5; pieceOf "c" 11 10; pieceOf "d" 3 11].

(** Three pieces for 10 by 10 sheets, the first of negative height,
    outside the data model. *)
Definition negativeExample : list Piece :=
  [pieceOf "a" 1 (-2); pieceOf "b" 6 6; pieceOf "c" 5 7].

(** The sheets after the first and after the second consolidation pass on
    the packing selected for [negativeExample]. *)
Definition cycleB : list Sheet := Eval vm_compute in
  (consolidatePass 10 10 0
     (sheets (default (mkResult [] [])
                      (strategyGrid 10 10 0 5 negativeExample)))).1.

Definition cycleC : list Sheet := Eval vm_compute in
  (consolidatePass 10 10 0 cycleB).1.

(** ** Geometry of the placed pieces *)

(** The point [(u, v)] lies in the footprint of a placed piece: its
    rectangle inflated by the kerf on the trailing edges and clipped to the
    sheet. *)
Definition inFootprint (sheetW sheetH kerf : Q) (p : Placed) (u v : Q) : Prop :=
  pl_x p <= u /\ u < Qmin (pl_x p + pl_w p + kerf) sheetW /\
  pl_y p <= v /\ v < Qmin (pl_y p + pl_h p + kerf) sheetH.

(** The rectangle at [(x, y)] of size [w] by [h] lies inside the sheet. *)
Definition insideSheet (sheetW sheetH x y w h : Q) : Prop :=
  0 <= x /\ 0 <= y /\ x + w <= sheetW /\ y + h <= sheetH.

Definition rectInside (sheetW sheetH : Q) (r : Rect) : Prop :=
  insideSheet sheetW sheetH (r_x r) (r_y r) (r_w r) (r_h r).






(** ** Accounting for the pieces *)

(** The pieces placed on a list of sheets, and the pieces a result of the
    runner accounts for. *)
Definition placedOf (shs : list Sheet) : list Piece :=
  shs ≫= fun s => fakePiece <$> pieces s.

Definition accounted (r : StrategyResult) : list Piece :=
  placedOf (sheets r) ++ (u_piece <$> unplaced r).

Definition accountedOut (res : PackingResult) : list Piece :=
  (res_sheets res ≫= fun o => fakePiece <$> o_pieces o) ++
  (u_piece <$> res_unplaced res).

(** The placed dimensions are the dimensions of the piece, or these
    swapped for a piece that is not square, and [rotated] tells which. *)
Definition orientOk (p : Placed) : Prop :=
  (pl_w p = origW p /\ pl_h p = origH p /\ pl_rotated p = false) \/
  (pl_w p = origH p /\ pl_h p = origW p /\ pl_rotated p = true /\
   ~ origW p == origH p).

(** The sum of the placed areas, the kerf not counted. *)
Definition placedArea (ps : list Placed) : Q :=
  foldr (fun p s => pl_w p * pl_h p + s) 0 ps.

(** The bookkeeping invariant of a sheet. *)
Definition bookOk (s : Sheet) : Prop :=
  Forall orientOk (pieces s) /\ usedArea s == placedArea (pieces s).

(** What a result shows of its sheets and unplaced pieces. *)
Definition placements (res : PackingResult) : list (list (string * Q * Q * Q * Q)) :=
  map (fun s => map (fun p => (pl_id p, pl_x p, pl_y p, pl_w p, pl_h p))
                    (o_pieces s))
      (res_sheets res).

Definition rejections (res : PackingResult) : list (string * string) :=
  map (fun u => (pc_id (u_piece u), reason u)) (res_unplaced res).

(** * The guillotine packer

    The first packer of the repository: one pass over the pieces sorted by
    area, best area fit, free rectangles split by guillotine cuts, no
    consolidation.  It shares the data model of the engine above. *)

Module Guillotine.

(** The object returned by [findBestFit]: [idx] is the index of [rect] in
    [sheet.freeRects]. *)
Record Fit := mkFit {
  fit_rect : Rect;
  fit_idx : nat;
  fit_w : Q;
  fit_h : Q;
  fit_rotated : bool
}.

(** The loop variables of [findBestFit]: [bestScore] is [None] for
    [Infinity], [bestRect] is [None] for [null] and [bestIdx] for [-1]. *)
Record Best := mkBest {
  bestScore : option Q;
  bestRect : option Rect;
  bestIdx : option nat;
  bestW : Q;
  bestH : Q
}.

(** [a < best], where [best] may be [Infinity]. *)
Definition belowScore (a : Q) (best : option Q) : bool :=
  match best with
  | None => true
  | Some b => Qltb a b
  end.

Section Packer.

Variables (sheetW sheetH kerf : Q) (maxSheets : Z).

(** The comparator of the sort: area descending, then longest side. *)
Definition byArea (a b : Piece) : Q :=
  let aArea := width a * height a in
  let bArea := width b * height b in
  if Qneqb bArea aArea then bArea - aArea
  else Qmax (width b) (height b) - Qmax (width a) (height a).

Definition newSheet : Sheet :=
  mkSheet [mkRect 0 0 sheetW sheetH] [] 0.

(** [if (areaFit < bestScore) { bestScore = areaFit; ... }] *)
Definition improve (b : Best) (r : Rect) (i : nat) (w h areaFit : Q) : Best :=
  if belowScore areaFit (bestScore b)
  then mkBest (Some areaFit) (Some r) (Some i) w h
  else b.

Definition fitStep (pw ph : Q) (b : Best) (i : nat) (r : Rect) : Best :=
  let b1 :=
    if Qle_bool pw (r_w r) && Qle_bool ph (r_h r)
    then improve b r i pw ph (r_w r * r_h r - pw * ph) else b in
  if Qle_bool ph (r_w r) && Qle_bool pw (r_h r) && Qneqb pw ph
  then improve b1 r i ph pw (r_w r * r_h r - pw * ph) else b1.

(** The loop over [sheet.freeRects], from index [i] on. *)
Fixpoint fitLoop (pw ph : Q) (i : nat) (rects : list Rect) (b : Best) : Best :=
  match rects with
  | [] => b
  | r :: rects' => fitLoop pw ph (S i) rects' (fitStep pw ph b i r)
  end.

Definition findBestFit (sheet : Sheet) (pw ph : Q) : option Fit :=
  let b := fitLoop pw ph 0 (freeRects sheet) (mkBest None None None pw ph) in
  match bestRect b, bestIdx b with
  | Some r, Some i => Some (mkFit r i (bestW b) (bestH b) (Qneqb (bestW b) pw))
  | _, _ => None
  end.

(** [splitRect]: the used rectangle is removed, its remainders to the
    right of and below the piece and its kerf are pushed, and degenerate
    rectangles are filtered out. *)
Definition splitRect (sheet : Sheet) (fit : Fit) : Sheet :=
  let rect := fit_rect fit in
  let w := fit_w fit in
  let h := fit_h fit in
  let kw := w + kerf in
  let kh := h + kerf in
  let free := delete (fit_idx fit) (freeRects sheet) in
  let free :=
    if Qltb (r_x rect + kw) (r_x rect + r_w rect)
    then free ++ [mkRect (r_x rect + kw) (r_y rect) (r_w rect - kw) (r_h rect)]
    else free in
  let free :=
    if Qltb (r_y rect + kh) (r_y rect + r_h rect)
    then free ++ [mkRect (r_x rect) (r_y rect + kh) w (r_h rect - kh)]
    else free in
  mkSheet (filterb (fun r => Qltb 0 (r_w r) && Qltb 0 (r_h r)) free)
          (pieces sheet) (usedArea sheet).

(** [tryPlace] returns the updated sheet, or [None] for [false]. *)
Definition tryPlace (piece : Piece) (sheet : Sheet) : option Sheet :=
  match findBestFit sheet (width piece) (height piece) with
  | None => None
  | Some fit =>
      let placed :=
        mkPlaced (r_x (fit_rect fit)) (r_y (fit_rect fit))
                 (fit_w fit) (fit_h fit) (fit_rotated fit)
                 (pc_id piece) (pc_label piece) (pc_furniture piece)
                 (pc_color piece) (width piece) (height piece) in
      Some (splitRect
              (mkSheet (freeRects sheet) (pieces sheet ++ [placed])
                       (usedArea sheet + fit_w fit * fit_h fit))
              fit)
  end.

(** [tryPlace(piece, sheets[bestSheetIdx])] with the result ignored. *)
Definition tryPlace_ (piece : Piece) (sheet : Sheet) : Sheet :=
  default sheet (tryPlace piece sheet).

Definition fitsAtAll (piece : Piece) : bool :=
  (Qle_bool (width piece) sheetW && Qle_bool (height piece) sheetH) ||
  (Qle_bool (height piece) sheetW && Qle_bool (width piece) sheetH).

(** The loop over the open sheets, from index [i] on; [bestSheetIdx] is
    [None] for [-1] and [bestFitScore] for [Infinity]. *)
Fixpoint bestSheetLoop (piece : Piece) (i : nat) (rest : list Sheet)
    (bestSheetIdx : option nat) (bestFitScore : option Q) : option nat :=
  match rest with
  | [] => bestSheetIdx
  | s :: rest' =>
      match findBestFit s (width piece) (height piece) with
      | Some fit =>
          let score :=
            r_w (fit_rect fit) * r_h (fit_rect fit) -
            width piece * height piece in
          if belowScore score bestFitScore
          then bestSheetLoop piece (S i) rest' (Some i) (Some score)
          else bestSheetLoop piece (S i) rest' bestSheetIdx bestFitScore
      | None => bestSheetLoop piece (S i) rest' bestSheetIdx bestFitScore
      end
  end.

(** One iteration of the main loop [for (const piece of sorted)]. *)
Definition packStep (st : StrategyResult) (piece : Piece) : StrategyResult :=
  if negb (fitsAtAll piece)
  then mkResult (sheets st)
                (unplaced st ++ [mkUnplaced piece "Too large for sheet"])
  else
    match bestSheetLoop piece 0 (sheets st) None None with
    | Some idx =>
        mkResult (<[idx := tryPlace_ piece (sheets st !!! idx)]> (sheets st))
                 (unplaced st)
    | None =>
        if (maxSheets <=? Z.of_nat (length (sheets st)))%Z
        then mkResult (sheets st)
                      (unplaced st ++ [mkUnplaced piece "No sheets remaining"])
        else
          match tryPlace piece newSheet with
          | Some s => mkResult (sheets st ++ [s]) (unplaced st)
          | None =>
              mkResult (sheets st)
                       (unplaced st ++ [mkUnplaced piece "Could not place"])
          end
    end.

(** The main loop over the sorted pieces. *)
Definition packLoop (sorted : list Piece) : StrategyResult :=
  foldl packStep (mkResult [] []) sorted.

(** The callback of [sheets.map]: the report of a sheet. *)
Definition buildSheet (s : Sheet) : OutSheet :=
  let totalArea := sheetW * sheetH in
  mkOutSheet (pieces s)
             (toFixed 1 ((1 - usedArea s / totalArea) * 100))
             (usedArea s) (freeRects s)
             (findLargestFree (freeRects s))
             (foldl (fun sum r => sum + r_w r * r_h r) 0 (freeRects s)).

(** The loop collecting the [WxH] keys of the free rectangles of at least
    200 by 200. *)
Definition fitExamplesOf (rects : list Rect) : list string :=
  foldl (fun fitExamples r =>
           if Qle_bool 200 (r_w r) && Qle_bool 200 (r_h r)
           then fitExamples ++
                [(floorStr (r_w r) ++ "x" ++ floorStr (r_h r))%string]
           else fitExamples)
        [] rects.

Definition sheetSuggestions (n : nat) (idx : nat) (sheet : OutSheet)
    : list Suggestion :=
  let totalArea := sheetW * sheetH in
  let wasteNum := parseFloat (wastePercent sheet) in
  if Qltb 0 (lf_area (largestFree sheet))
  then
    let freePercent := toFixed 0 (totalFreeArea sheet / totalArea * 100) in
    (if Qltb 15 wasteNum
     then
       let fitExamples := fitExamplesOf (o_freeRects sheet) in
       if (0 <? length fitExamples)%nat
       then [mkSuggestion "fill_gaps" (idx + 1)
               ("Sheet " ++ natStr (idx + 1) ++ " has " ++ freePercent ++
                "% free space. Usable gaps: " ++
                join ", " (take 3 fitExamples) ++
                ". Consider adding smaller parts here to reduce waste.")%string]
       else []
     else []) ++
    (if (idx <? n - 1)%nat && Qltb 30 wasteNum
     then [mkSuggestion "consolidate" (idx + 1)
             ("Sheet " ++ natStr (idx + 1) ++ " is only " ++
              toFixed 0 (100 - wasteNum) ++
              "% used. Smaller pieces from later sheets could potentially fill gaps here.")%string]
     else [])
  else [].

Definition generateSuggestions (shs : list OutSheet) (unpl : list Unplaced)
    : list Suggestion :=
  let totalArea := sheetW * sheetH in
  let n := length shs in
  concat (imap (sheetSuggestions n) shs) ++
  (match last shs with
   | Some lastSheet =>
       let lastWaste := parseFloat (wastePercent lastSheet) in
       if Qltb 20 lastWaste
       then
         let lf := largestFree lastSheet in
         [mkSuggestion "future_use" n
            ("Sheet " ++ natStr n ++
             " (last used) has a largest free area of " ++
             floorStr (lf_w lf) ++ "x" ++ floorStr (lf_h lf) ++
             " — available for future furniture.")%string]
       else []
   | None => []
   end) ++
  (if (1 <? n)%nat
   then
     let totalUsed := foldl (fun s sh => s + o_usedArea sh) 0 shs in
     let minSheetsNeeded := Qceiling (totalUsed / totalArea) in
     if (minSheetsNeeded <? Z.of_nat n)%Z
     then [mkSuggestion "efficiency" 0
             ("Theoretical minimum: " ++ string_of_Z minSheetsNeeded ++
              " sheet" ++ (if (1 <? minSheetsNeeded)%Z then "s" else "") ++
              ". Current: " ++ natStr n ++
              " sheets. The extra space is available for future cuts.")%string]
     else []
   else []).

(** [packPieces(pieces, sheetW, sheetH, kerf, maxSheets)] *)
Definition packPieces (pcs : list Piece) : PackingResult :=
  let sorted := js_sort byArea pcs in
  let st := packLoop sorted in
  let result := map buildSheet (sheets st) in
  mkPacking result (unplaced st) (generateSuggestions result (unplaced st)).

End Packer.

End Guillotine.

(** * The caller

    [calculate] of the page script, up to its call of the engine: the form
    fields as the numbers that [parseFloat] and [parseInt] read from them,
    [None] for [NaN], and [state.furniture]; and the count of placed
    pieces of [renderResults].  The quantities of [state.furniture] are
    integers, as [parseInt] and the presets give them, and the
    identifiers are the integers counted by [state.nextId]. *)

Module App.

(** A cut of a furniture item: [{ name, width, height, qty }]. *)
Record Cut := mkCut {
  cut_name : string;
  cut_width : Q;
  cut_height : Q;
  cut_qty : Z
}.

(** An entry of [state.furniture]: [{ id, name, qty, cuts }]. *)
Record Furniture := mkFurniture {
  f_id : Z;
  f_name : string;
  f_qty : Z;
  f_cuts : list Cut
}.

(** The numbers read from the form. *)
Record Form := mkForm {
  sheetWidth : option Q;
  sheetHeight : option Q;
  sheetQty : option Z;
  kerfField : option Q
}.

(** The arguments of the call [packPieces(pieces, sheetW, sheetH, kerf,
    sheetQty)]. *)
Record EngineCall := mkCall {
  call_pieces : list Piece;
  call_sheetW : Q;
  call_sheetH : Q;
  call_kerf : Q;
  call_maxSheets : Z
}.

(** An entry of [FURNITURE_PRESETS]: [{ name, cuts }]. *)
Record Preset := mkPreset {
  p_name : string;
  p_cuts : list Cut
}.

(** The built-in presets of [presets.js], by key. *)
Definition FURNITURE_PRESETS : list (string * Preset) :=
  [("chair", mkPreset "Chair"
      [mkCut "Leg" 50 400 4; mkCut "Seat" 400 400 1;
       mkCut "Back Slat" 80 300 2]);
   ("table", mkPreset "Table"
      [mkCut "Leg" 60 700 4; mkCut "Top" 600 1000 1]);
   ("shelf", mkPreset "Shelf"
      [mkCut "Side" 200 800 2; mkCut "Shelf Board" 200 600 3]);
   ("bedFrame", mkPreset "Bed Frame"
      [mkCut "Long Rail" 100 2000 2; mkCut "Short Rail" 100 1500 2;
       mkCut "Slat" 80 1500 12])]%string.

(** The entry that [addPreset] pushes for a preset:
    [{ id: state.nextId++, name: preset.name, qty: 1, cuts }]. *)
Definition presetItem (id : Z) (preset : Preset) : Furniture :=
  mkFurniture id (p_name preset) 1 (p_cuts preset).

(** The furniture list after adding each built-in preset once, in the
    order of [FURNITURE_PRESETS], to the empty list. *)
Definition allPresets : list Furniture :=
  imap (fun i kp => presetItem (Z.of_nat i + 1) kp.2) FURNITURE_PRESETS.

Definition COLORS : list string :=
  ["#3498db"; "#e74c3c"; "#2ecc71"; "#f39c12";
   "#9b59b6"; "#1abc9c"; "#e67e22"; "#34495e";
   "#16a085"; "#c0392b"; "#8e44ad"; "#d35400"].

(** [x || dflt] for a number [x]: [NaN] and zero are falsy. *)
Definition orElse (x : option Q) (dflt : Q) : Q :=
  match x with
  | Some v => if Qeq_bool v 0 then dflt else v
  | None => dflt
  end.

Definition orElseZ (x : option Z) (dflt : Z) : Z :=
  match x with
  | Some v => if (v =? 0)%Z then dflt else v
  | None => dflt
  end.

(** The pieces pushed by [for (cq = 0; cq < cut.qty; cq++)]. *)
Definition cutPieces (item : Furniture) (color : string) (fq : nat)
    (cut : Cut) : list Piece :=
  (fun cq =>
     mkPiece (string_of_Z (f_id item) ++ "-" ++ natStr fq ++ "-" ++
              cut_name cut ++ "-" ++ natStr cq)%string
             (cut_name cut)
             (f_name item ++
              (if (1 <? f_qty item)%Z then " #" ++ natStr (fq + 1) else ""))%string
             color (cut_width cut) (cut_height cut))
  <$> seq 0 (Z.to_nat (cut_qty cut)).

(** The callback of [state.furniture.forEach((item, fIdx) => ...)]. *)
Definition itemPieces (fIdx : nat) (item : Furniture) : list Piece :=
  let color := COLORS !!! (fIdx mod length COLORS)%nat in
  fq ← seq 0 (Z.to_nat (f_qty item));
  cut ← f_cuts item;
  cutPieces item color fq cut.

Definition expandPieces (furniture : list Furniture) : list Piece :=
  concat (imap itemPieces furniture).

(** [calculate]: the call of the engine that it makes, [None] when it
    returns before, for want of pieces. *)
Definition calculate (form : Form) (furniture : list Furniture)
    : option EngineCall :=
  let sheetW := orElse (sheetWidth form) 2440 in
  let sheetH := orElse (sheetHeight form) 1220 in
  let sheetQty := orElseZ (sheetQty form) 5 in
  let kerf := orElse (kerfField form) 0 in
  let pieces := expandPieces furniture in
  if (length pieces =? 0)%nat then None
  else Some (mkCall pieces sheetW sheetH kerf sheetQty).

(** [placedCount] of [renderResults]. *)
Definition placedCount (result : PackingResult) : nat :=
  foldl (fun s sh => (s + length (o_pieces sh))%nat) 0%nat (res_sheets result).

End App.

(** The number of pieces that a furniture list stands for. *)
Definition cutCount (item : App.Furniture) : nat :=
  sum_list ((fun cut => Z.to_nat (App.cut_qty cut)) <$> App.f_cuts item).

Definition pieceCount (furniture : list App.Furniture) : nat :=
  sum_list ((fun item => (Z.to_nat (App.f_qty item) * cutCount item)%nat)
            <$> furniture).

(** The piece [p] is cut [cut] of the furniture item [item]. *)
Definition pieceFrom (furniture : list App.Furniture) (p : Piece) : Prop :=
  exists fIdx item cut,
    furniture !! fIdx = Some item /\ cut ∈ App.f_cuts item /\
    pc_label p = App.cut_name cut /\
    width p = App.cut_width cut /\ height p = App.cut_height cut /\
    App.COLORS !! (fIdx mod 12)%nat = Some (pc_color p).

(** * The arrays that outlive a call

    [packPieces] shares one object with its caller, the array [pieces],
    and makes arrays of its own that it sorts in place.  Here the arrays
    of pieces live in a store, by address, and the entry point is written
    once more with the store passed along: [slice] allocates, [sort]
    updates the array it is called on.  The engine assigns to no field of
    a piece, so the pieces themselves are values; the sheets and the
    results are built by the call and are values as before. *)

(** The arrays of pieces, by address. *)
Abbreviation Store := (gmap nat (list Piece)).

(** The elements of the array at [arr].  An address that holds no array
    reads as the empty array; the statements below are about addresses
    that hold one. *)
Definition arrayAt (st : Store) (arr : nat) : list Piece :=
  default [] (st !! arr).

(** [arr.slice()]: a new array with the elements of the array at [arr],
    at an address that is not in use. *)
Definition slice (arr : nat) (st : Store) : nat * Store :=
  let copy := fresh (dom st) in
  (copy, <[copy := arrayAt st arr]> st).

(** [arr.sort(cmp)]: the array at [arr] is sorted in place. *)
Definition sortAt (cmp : Piece -> Piece -> Q) (arr : nat) (st : Store)
    : Store :=
  <[arr := js_sort cmp (arrayAt st arr)]> st.

Section Shared.

Variables (sheetW sheetH kerf : Q) (maxSheets : Z).

(** The body of [for (const sortFn of sortStrategies)]:
    [const sorted = pieces.slice().sort(sortFn)], then the loop over the
    heuristics, which reads [sorted]. *)
Definition gridStep (pieces : nat) (acc : Store * option StrategyResult)
    (sortFn : Piece -> Piece -> Q) : Store * option StrategyResult :=
  let '(st, bestResult) := acc in
  let '(sorted, st) := slice pieces st in
  let st := sortAt sortFn sorted st in
  (st,
   foldl (fun bestResult heuristic =>
            keepBest sheetW sheetH bestResult
              (runStrategy sheetW sheetH kerf maxSheets
                           (arrayAt st sorted) heuristic))
         bestResult heuristics).

(** [packPieces(pieces, sheetW, sheetH, kerf, maxSheets)], called on the
    array at the address [pieces]: the store after the call and the
    result. *)
Definition packPiecesAt (fuel : nat) (pieces : nat) (st : Store)
    : Store * option PackingResult :=
  if (length (arrayAt st pieces) =? 0)%nat
  then (st, Some (mkPacking [] [] []))
  else
    let '(st, bestResult) := foldl (gridStep pieces) (st, None) sortStrategies in
    (st,
     bestResult ← bestResult;
     bestResult ← (if (1 <? length (sheets bestResult))%nat
                    then consolidateSheets sheetW sheetH kerf fuel bestResult
                    else Some bestResult);
     let resultSheets := map (buildSheet sheetW sheetH) (sheets bestResult) in
     Some (mkPacking resultSheets (unplaced bestResult)
             (generateSuggestions sheetW sheetH resultSheets
                                  (unplaced bestResult)))).

End Shared.

(** The arrays of [st] are in [st'] as they were. *)
Definition keeps (st st' : Store) : Prop :=
  forall arr l, st !! arr = Some l -> st' !! arr = Some l.

(** * Vocabulary of the further properties *)

(** ** Sizes that JavaScript computes with exactly *)

(** A whole number of at most 2^26: sums, differences and products of
    two such sizes are whole numbers below 2^53, which a double holds
    exactly. *)
Definition exactSize (x : Q) : Prop :=
  exists n : Z, (0 <= n <= 2 ^ 26)%Z /\ x == inject_Z n.

Definition exactPiece (p : Piece) : Prop :=
  exactSize (width p) /\ exactSize (height p).

(** Whole sizes throughout, and sheets enough for every piece of an area
    of at most 2^50 together, so that the used areas are added up exactly
    and two different ratios of used area give two different waste ratios
    in doubles as well. *)
Definition exactInput (sheetW sheetH kerf : Q) (pcs : list Piece) : Prop :=
  exactSize sheetW /\ exactSize sheetH /\ exactSize kerf /\
  Forall exactPiece pcs /\
  sheetW * sheetH * inject_Z (Z.of_nat (length pcs)) <= inject_Z (2 ^ 50).

(** ** Unplaced pieces *)

(** The entry [u] of the unplaced list carries the reason that its piece
    calls for. *)
Definition reasonOk (sheetW sheetH : Q) (u : Unplaced) : Prop :=
  (fitsAtAll sheetW sheetH (u_piece u) = false /\
   reason u = "Too large for sheet"%string) \/
  (fitsAtAll sheetW sheetH (u_piece u) = true /\
   reason u = "No sheets remaining"%string).

(** Free rectangles inside the sheet, and every placed piece one that
    fits the empty sheet in some orientation. *)
Definition fitsOk (sheetW sheetH : Q) (s : Sheet) : Prop :=
  Forall (rectInside sheetW sheetH) (freeRects s) /\
  Forall (fun p => fitsAtAll sheetW sheetH (fakePiece p) = true) (pieces s).

(** ** Sheets of the result *)

(** The free rectangles as an insertion leaves them: wider and higher
    than half a unit, none contained in another. *)
Definition prunedOk (s : Sheet) : Prop :=
  Forall (fun r => (1 # 2) < r_w r /\ (1 # 2) < r_h r) (freeRects s) /\
  forall a b ra rb, a <> b ->
    freeRects s !! a = Some ra -> freeRects s !! b = Some rb ->
    isContained ra rb = false.

(** A sheet that holds a piece. *)
Definition stockedOk (sheetW sheetH : Q) (s : Sheet) : Prop :=
  pieces s <> [] /\ fitsOk sheetW sheetH s /\ prunedOk s.

(** ** Largest free rectangle and free area *)

(** The area of a rectangle. *)
Definition rectArea (r : Rect) : Q := r_w r * r_h r.

(** The entry of [largestFree] that the free rectangle [r] gives. *)
Definition largestOf (r : Rect) : LargestFree :=
  mkLargestFree (r_w r) (r_h r) (r_w r * r_h r) (Some (r_x r)) (Some (r_y r)).

(** [lf] is what the scan for the largest free rectangle answers on
    [rects]: the sentinel when no rectangle has a positive area, else the
    first rectangle among those of the largest area. *)
Definition largestSpec (rects : list Rect) (lf : LargestFree) : Prop :=
  (lf = mkLargestFree 0 0 0 None None /\
   forall r, r ∈ rects -> rectArea r <= 0) \/
  (exists i r, rects !! i = Some r /\ lf = largestOf r /\ 0 < rectArea r /\
     (forall j r', (j < i)%nat -> rects !! j = Some r' ->
        rectArea r' < rectArea r) /\
     (forall r', r' ∈ rects -> rectArea r' <= rectArea r)).

(** The areas of the rectangles, added up. *)
Definition sumRectAreas (rects : list Rect) : Q :=
  foldr (fun r s => rectArea r + s) 0 rects.

(** ** Choice of a sheet *)

(** The state [(bestSheetIdx, bestScore)] of the loop over the open sheets
    after the sheets below index [upto]: no sheet so far offers a fit, or
    the sheet at [bestSheetIdx] offers the fit of score [bestScore], which
    no fit of a sheet so far beats and which beats the fits of the sheets
    before it. *)
Definition bestSheetSoFar (sheetW pw ph : Q) (heuristic : Heuristic)
    (shs : list Sheet) (upto : nat) (idx : option nat) (best : option Score)
    : Prop :=
  match idx with
  | None =>
      best = None /\
      forall j s, (j < upto)%nat -> shs !! j = Some s ->
        findBestFit sheetW s pw ph heuristic = None
  | Some k =>
      (k < upto)%nat /\
      exists s fit, shs !! k = Some s /\
        findBestFit sheetW s pw ph heuristic = Some fit /\
        best = Some (fit_score fit) /\
        forall j sj fj, (j < upto)%nat -> shs !! j = Some sj ->
          findBestFit sheetW sj pw ph heuristic = Some fj ->
          isBetterScore (fit_score fj) (fit_score fit) = false /\
          ((j < k)%nat -> isBetterScore (fit_score fit) (fit_score fj) = true)
  end.


(** ** Sort orders *)

(** The keys that the sort orders compare. *)
Definition pieceArea (p : Piece) : Q := width p * height p.
Definition halfPerimeter (p : Piece) : Q := width p + height p.
Definition longSide (p : Piece) : Q := Qmax (width p) (height p).
Definition shortSide (p : Piece) : Q := Qmin (width p) (height p).

(** [a] may stand before [b]: the first key of [a] is larger, or the
    first keys are equal and the second key of [a] is not smaller. *)
Definition byKeys (k1 k2 : Piece -> Q) (a b : Piece) : Prop :=
  k1 b < k1 a \/ (k1 b == k1 a /\ k2 b <= k2 a).

(** [a] and [b] agree on both keys. *)
Definition sameKeys (k1 k2 : Piece -> Q) (a b : Piece) : bool :=
  Qeq_bool (k1 a) (k1 b) && Qeq_bool (k2 a) (k2 b).

(** The keys of the four sort orders, in the order of [sortStrategies]. *)
Definition sortKeys : list ((Piece -> Q) * (Piece -> Q)) :=
  [(pieceArea, longSide); (halfPerimeter, pieceArea);
   (longSide, pieceArea); (longSide, shortSide)].

(** What [js_sort cmp] does to [pcs] when [cmp] compares the keys [k1]
    then [k2], larger first: a permutation, in the order of the keys, the
    pieces of equal keys in the order of the input. *)
Definition sortsBy (k1 k2 : Piece -> Q) (cmp : Piece -> Piece -> Q)
    (pcs : list Piece) : Prop :=
  js_sort cmp pcs ≡ₚ pcs /\
  StronglySorted (byKeys k1 k2) (js_sort cmp pcs) /\
  forall x, filterb (sameKeys k1 k2 x) (js_sort cmp pcs) =
            filterb (sameKeys k1 k2 x) pcs.

(** The comparators of [sortStrategies] all have this form. *)
Definition keyCmp (k1 k2 : Piece -> Q) (a b : Piece) : Q :=
  let d := k1 b - k1 a in
  if Qneqb d 0 then d else k2 b - k2 a.

(** ** Suggestions *)

(** The key [WxH] of a free rectangle in the list of usable gaps. *)
Definition gapKey (r : Rect) : string :=
  (floorStr (r_w r) ++ "x" ++ floorStr (r_h r))%string.

(** A free rectangle of at least 200 by 200. *)
Definition usableGap (r : Rect) : Prop := 200 <= r_w r /\ 200 <= r_h r.

(** The waste that the reporter reads back from [wastePercent]. *)
Definition wasteNum (sheet : OutSheet) : Q := parseFloat (wastePercent sheet).

(** The number of sheets that the used area would fill. *)
Definition minSheetsNeeded (sheetW sheetH : Q) (shs : list OutSheet) : Z :=
  Qceiling (foldl (fun s sh => s + o_usedArea sh) 0 shs / (sheetW * sheetH)).


(** The type and the sheet number of a suggestion. *)
Definition suggestionKey (s : Suggestion) : string * nat :=
  (s_type s, s_sheet s).

(** ** Rounding to decimals *)

(** A string of decimal digits, and the number it writes after the digits
    [acc]. *)
Fixpoint allDigits (s : string) : Prop :=
  match s with
  | EmptyString => True
  | String c s' => is_Some (digit_of_ascii c) /\ allDigits s'
  end.

Fixpoint digitsValue (s : string) (acc : Z) : Z :=
  match s with
  | EmptyString => acc
  | String c s' => digitsValue s' (10 * acc + default 0%Z (digit_of_ascii c))%Z
  end.

(** [x] rounded to [digits] decimals, the larger one in absolute value on
    a tie. *)
Definition roundTo (digits : nat) (x : Q) : Q :=
  let n := Qfloor (Qabs x * inject_Z (10 ^ Z.of_nat digits) + (1 # 2)) in
  (if Qltb x 0 then - inject_Z n else inject_Z n) /
  inject_Z (10 ^ Z.of_nat digits).

(** ** Fit search of the guillotine packer *)

(** A candidate of the fit search of the guillotine packer: the index of
    a free rectangle, the rectangle, the placed width and height, and
    whether the piece is rotated. *)
Record Candidate := mkCandidate {
  c_idx : nat;
  c_rect : Rect;
  c_w : Q;
  c_h : Q;
  c_rotated : bool
}.

(** The area that a piece of dimensions [pw] by [ph] leaves of [r]. *)
Definition areaFit (pw ph : Q) (r : Rect) : Q := r_w r * r_h r - pw * ph.

(** The candidates that the free rectangle [r] at index [i] gives: the
    unrotated orientation when it fits, then the rotated one when it fits
    and the piece is not square. *)
Definition candidatesOf (pw ph : Q) (i : nat) (r : Rect) : list Candidate :=
  (if fits pw ph r then [mkCandidate i r pw ph false] else []) ++
  (if fits ph pw r && Qneqb pw ph then [mkCandidate i r ph pw true] else []).

(** The candidates of the free rectangles [rects], the first of which has
    index [i], in the order of the search. *)
Fixpoint candidatesFrom (pw ph : Q) (i : nat) (rects : list Rect)
    : list Candidate :=
  match rects with
  | [] => []
  | r :: rects' => candidatesOf pw ph i r ++ candidatesFrom pw ph (S i) rects'
  end.


(** [c] is the first candidate of [L] among those that leave the least
    area. *)
Definition firstLeast (pw ph : Q) (L : list Candidate) (c : Candidate)
    : Prop :=
  exists L1 L2, L = L1 ++ c :: L2 /\
    (forall c', c' ∈ L1 -> areaFit pw ph (c_rect c) < areaFit pw ph (c_rect c')) /\
    (forall c', c' ∈ L2 -> areaFit pw ph (c_rect c) <= areaFit pw ph (c_rect c')).

(** The loop state of [Guillotine.findBestFit] holds the first least
    candidate of [L]. *)
Definition bestAreaOf (pw ph : Q) (b : Guillotine.Best) (L : list Candidate)
    : Prop :=
  match Guillotine.bestScore b with
  | None =>
      Guillotine.bestRect b = None /\ Guillotine.bestIdx b = None /\ L = []
  | Some sc =>
      exists k r,
        Guillotine.bestRect b = Some r /\ Guillotine.bestIdx b = Some k /\
        sc = areaFit pw ph r /\
        firstLeast pw ph L
          (mkCandidate k r (Guillotine.bestW b) (Guillotine.bestH b)
                       (Qneqb (Guillotine.bestW b) pw))
  end.


(** ** Sheets of the guillotine packer *)







(** The reasons of the guillotine packer for leaving a piece out. *)
Definition guillotineReasonOk (sheetW sheetH : Q) (u : Unplaced) : Prop :=
  (Guillotine.fitsAtAll sheetW sheetH (u_piece u) = false /\
   reason u = "Too large for sheet"%string) \/
  (Guillotine.fitsAtAll sheetW sheetH (u_piece u) = true /\
   reason u = "No sheets remaining"%string).


(** * Properties *)

(** ** Comparisons of rationals

    The boolean comparisons of the embedding and their propositions. *)

Lemma Qltb_true a b : Qltb a b = true <-> a < b.
Proof.
  unfold Qltb. rewrite negb_true_iff. split.
  - intros H. apply Qnot_le_lt. intros Hle.
    apply Qle_bool_iff in Hle. congruence.
  - intros H. destruct (Qle_bool b a) eqn:E; [|reflexivity].
    apply Qle_bool_iff in E. exfalso. exact (Qlt_not_le _ _ H E).
Qed.

Lemma Qltb_false a b : Qltb a b = false <-> b <= a.
Proof.
  unfold Qltb. rewrite negb_false_iff. apply Qle_bool_iff.
Qed.

Lemma Qle_bool_false a b : Qle_bool a b = false <-> b < a.
Proof.
  rewrite <- Qltb_true. unfold Qltb. rewrite negb_true_iff. reflexivity.
Qed.

Lemma Qneqb_true a b : Qneqb a b = true <-> ~ a == b.
Proof.
  unfold Qneqb. rewrite negb_true_iff. split.
  - apply Qeq_bool_neq.
  - intros H. destruct (Qeq_bool a b) eqn:E; [|reflexivity].
    apply Qeq_bool_iff in E. contradiction.
Qed.

Lemma Qneqb_false a b : Qneqb a b = false <-> a == b.
Proof.
  unfold Qneqb. rewrite negb_false_iff. apply Qeq_bool_iff.
Qed.

(** Turns the boolean comparisons among the hypotheses into
    propositions, for [lra]. *)
Ltac qprop :=
  repeat match goal with
  | H : negb _ = true |- _ => apply negb_true_iff in H
  | H : negb _ = false |- _ => apply negb_false_iff in H
  | H : (_ && _) = true |- _ => apply andb_true_iff in H; destruct H
  | H : (_ || _) = false |- _ => apply orb_false_iff in H; destruct H
  | H : Qle_bool _ _ = true |- _ => apply Qle_bool_iff in H
  | H : Qle_bool _ _ = false |- _ => apply Qle_bool_false in H
  | H : Qltb _ _ = true |- _ => apply Qltb_true in H
  | H : Qltb _ _ = false |- _ => apply Qltb_false in H
  | H : Qneqb _ _ = true |- _ => apply Qneqb_true in H
  | H : Qneqb _ _ = false |- _ => apply Qneqb_false in H
  end.

(** ** Containment of rectangles *)

Lemma isContained_true a b :
  isContained a b = true <->
  r_x b <= r_x a /\ r_y b <= r_y a /\
  r_x a + r_w a <= r_x b + r_w b /\ r_y a + r_h a <= r_y b + r_h b.
Proof.
  unfold isContained. rewrite !andb_true_iff, !Qle_bool_iff. tauto.
Qed.

Lemma isContained_refl a : isContained a a = true.
Proof. apply isContained_true. repeat split; apply Qle_refl. Qed.


(** ** The pruning loops *)

Lemma lookup_total_true (keep : list bool) k :
  keep !! k = Some true -> keep !!! k = true.
Proof. intros H. by rewrite (list_lookup_total_correct _ _ _ H). Qed.

Lemma lookup_total_false_ne (keep : list bool) k :
  keep !!! k = false -> keep !! k <> Some true.
Proof. intros H H'. apply lookup_total_true in H'. congruence. Qed.

Lemma insert_false_true (keep : list bool) i k :
  <[i:=false]> keep !! k = Some true -> keep !! k = Some true /\ i <> k.
Proof.
  intros H. destruct (decide (i = k)) as [->|Hne].
  - exfalso. destruct (decide (k < length keep)%nat) as [Hlt|Hge].
    + rewrite list_lookup_insert_eq in H by done. congruence.
    + rewrite list_insert_ge in H by lia.
      rewrite lookup_ge_None_2 in H by lia. congruence.
  - by rewrite list_lookup_insert_ne in H.
Qed.

Lemma pruneInner_mono rects i js keep k :
  pruneInner rects i js keep !! k = Some true -> keep !! k = Some true.
Proof.
  revert keep. induction js as [|j js IH]; intros keep; simpl; [done|].
  destruct (negb (keep !!! j)); [apply IH|].
  destruct (isContained (rects !!! i) (rects !!! j)).
  { intros H. by apply insert_false_true in H as [? _]. }
  destruct (isContained (rects !!! j) (rects !!! i)); [|apply IH].
  intros H. apply IH in H. by apply insert_false_true in H as [? _].
Qed.

Lemma pruneStep_mono rects keep i k :
  pruneStep rects keep i !! k = Some true -> keep !! k = Some true.
Proof.
  unfold pruneStep. destruct (negb (keep !!! i)); [done|].
  apply pruneInner_mono.
Qed.

Lemma pruneFold_mono rects idxs keep k :
  foldl (pruneStep rects) keep idxs !! k = Some true -> keep !! k = Some true.
Proof.
  revert keep. induction idxs as [|i idxs IH]; intros keep; simpl; [done|].
  intros H. apply IH in H. by apply pruneStep_mono in H.
Qed.

(** When [i] survives its inner loop, no surviving [j] it was compared
    with contains it or is contained in it. *)
Lemma pruneInner_pairs rects i js keep j :
  j ∈ js -> i ∉ js ->
  pruneInner rects i js keep !! i = Some true ->
  pruneInner rects i js keep !! j = Some true ->
  isContained (rects !!! i) (rects !!! j) = false /\
  isContained (rects !!! j) (rects !!! i) = false.
Proof.
  revert keep. induction js as [|j0 js IH]; intros keep Hj Hi; simpl.
  { by apply elem_of_nil in Hj. }
  apply not_elem_of_cons in Hi as [Hne Hi].
  destruct (negb (keep !!! j0)) eqn:Ek.
  { apply elem_of_cons in Hj as [->|Hj]; [|by apply IH].
    intros _ H2. apply pruneInner_mono in H2. apply negb_true_iff in Ek.
    by apply lookup_total_false_ne in Ek. }
  destruct (isContained (rects !!! i) (rects !!! j0)) eqn:E1.
  { intros H1. by apply insert_false_true in H1 as [_ ?]. }
  destruct (isContained (rects !!! j0) (rects !!! i)) eqn:E2.
  { apply elem_of_cons in Hj as [->|Hj]; [|by apply IH].
    intros _ H2. apply pruneInner_mono in H2.
    by apply insert_false_true in H2 as [_ ?]. }
  apply elem_of_cons in Hj as [->|Hj]; [done|by apply IH].
Qed.

Lemma pruneStep_pairs rects keep i j :
  (i < j < length rects)%nat ->
  pruneStep rects keep i !! i = Some true ->
  pruneStep rects keep i !! j = Some true ->
  isContained (rects !!! i) (rects !!! j) = false /\
  isContained (rects !!! j) (rects !!! i) = false.
Proof.
  intros Hij. unfold pruneStep. destruct (negb (keep !!! i)) eqn:Ek.
  { intros H _. apply negb_true_iff in Ek.
    by apply lookup_total_false_ne in Ek. }
  apply pruneInner_pairs.
  - apply elem_of_seq. lia.
  - rewrite elem_of_seq. lia.
Qed.

Lemma pruneKeep_pairs rects i j :
  (i < j < length rects)%nat ->
  pruneKeep rects !! i = Some true ->
  pruneKeep rects !! j = Some true ->
  isContained (rects !!! i) (rects !!! j) = false /\
  isContained (rects !!! j) (rects !!! i) = false.
Proof.
  intros Hij. unfold pruneKeep.
  replace (length rects) with (i + S (length rects - S i))%nat at 2 4 by lia.
  rewrite seq_app, foldl_app. simpl.
  intros H1 H2. apply pruneFold_mono in H1, H2.
  eapply pruneStep_pairs; eauto.
Qed.


Lemma lookup_total_true_inv (keep : list bool) k :
  (k < length keep)%nat -> keep !!! k = true -> keep !! k = Some true.
Proof.
  intros Hk H. destruct (lookup_lt_is_Some_2 keep k Hk) as [v Hv].
  rewrite (list_lookup_total_correct _ _ _ Hv) in H. by subst.
Qed.


Lemma pruneInner_length rects i js keep :
  length (pruneInner rects i js keep) = length keep.
Proof.
  revert keep. induction js as [|j js IH]; intros keep; simpl; [done|].
  destruct (negb (keep !!! j)); [apply IH|].
  destruct (isContained (rects !!! i) (rects !!! j)).
  { apply length_insert. }
  destruct (isContained (rects !!! j) (rects !!! i)); [|apply IH].
  rewrite IH. apply length_insert.
Qed.

Lemma pruneStep_length rects keep i :
  length (pruneStep rects keep i) = length keep.
Proof.
  unfold pruneStep. destruct (negb (keep !!! i)); [done|].
  apply pruneInner_length.
Qed.




(** ** Filtering by index *)

Lemma filter_idx_elem {A} (f : A -> nat -> bool) s (l : list A) x :
  x ∈ filter_idx f s l ->
  exists i, l !! i = Some x /\ f x (s + i)%nat = true.
Proof.
  revert s. induction l as [|a l IH]; intros s; simpl.
  { intros H. by apply elem_of_nil in H. }
  destruct (f a s) eqn:E.
  - intros H. apply elem_of_cons in H as [->|H].
    + exists 0%nat. by rewrite Nat.add_0_r.
    + destruct (IH _ H) as (i & Hi & Hf). exists (S i).
      by rewrite Nat.add_succ_r.
  - intros H. destruct (IH _ H) as (i & Hi & Hf). exists (S i).
    by rewrite Nat.add_succ_r.
Qed.

Lemma filter_idx_intro {A} (f : A -> nat -> bool) s (l : list A) i x :
  l !! i = Some x -> f x (s + i)%nat = true -> x ∈ filter_idx f s l.
Proof.
  revert s i. induction l as [|a l IH]; intros s i; simpl; [done|].
  destruct i as [|i]; simpl.
  - intros [= ->]. rewrite Nat.add_0_r. intros ->. by left.
  - intros Hi Hf. rewrite Nat.add_succ_r in Hf.
    destruct (f a s); [right|]; by apply (IH (S s) i).
Qed.

(** Two positions of the filtered array come from two positions of the
    array, in the same order. *)
Lemma filter_idx_pair {A} (f : A -> nat -> bool) s (l : list A) a b x y :
  (a < b)%nat ->
  filter_idx f s l !! a = Some x -> filter_idx f s l !! b = Some y ->
  exists i j, (i < j)%nat /\ l !! i = Some x /\ l !! j = Some y /\
              f x (s + i)%nat = true /\ f y (s + j)%nat = true.
Proof.
  revert s a b. induction l as [|c l IH]; intros s a b Hab; simpl; [done|].
  destruct (f c s) eqn:E.
  - destruct a as [|a]; simpl.
    + intros [= ->]. destruct b as [|b]; [lia|]. simpl. intros Hy.
      apply list_elem_of_lookup_2, filter_idx_elem in Hy as (j & Hj & Hf).
      exists 0%nat, (S j). rewrite Nat.add_0_r, Nat.add_succ_r.
      repeat split; auto. lia.
    + destruct b as [|b]; [lia|]. simpl. intros Hx Hy.
      destruct (IH (S s) a b ltac:(lia) Hx Hy) as (i & j & ? & ? & ? & ? & ?).
      exists (S i), (S j). rewrite !Nat.add_succ_r. repeat split; auto. lia.
  - intros Hx Hy.
    destruct (IH (S s) a b Hab Hx Hy) as (i & j & ? & ? & ? & ? & ?).
    exists (S i), (S j). rewrite !Nat.add_succ_r. repeat split; auto. lia.
Qed.

Lemma filterb_elem {A} (f : A -> bool) (l : list A) x :
  x ∈ filterb f l <-> x ∈ l /\ f x = true.
Proof.
  induction l as [|a l IH]; simpl.
  { split; [intros H|intros [H _]]; by apply elem_of_nil in H. }
  destruct (f a) eqn:E; rewrite ?elem_of_cons, IH.
  - split; [intros [->|[? ?]]|intros [[->|?] ?]]; auto.
  - split; [intros [? ?]|intros [[->|?] ?]]; auto. congruence.
Qed.

(** ** Pruning and insertion into the free-rectangle set *)

Lemma pruneKeep_length rects : length (pruneKeep rects) = length rects.
Proof.
  unfold pruneKeep. generalize (seq 0 (length rects)).
  assert (H : length (replicate (length rects) true) = length rects)
    by apply length_replicate.
  revert H. generalize (replicate (length rects) true).
  intros keep Hk idxs. revert keep Hk.
  induction idxs as [|i idxs IH]; intros keep Hk; simpl; [done|].
  apply IH. by rewrite pruneStep_length.
Qed.

Lemma pruneFreeRects_sub sheet r :
  r ∈ freeRects (pruneFreeRects sheet) -> r ∈ freeRects sheet.
Proof.
  simpl. intros H. apply filter_idx_elem in H as (i & Hi & _).
  by apply list_elem_of_lookup_2 in Hi.
Qed.


Lemma pruneFreeRects_no_contained_lt sheet a b ra rb :
  (a < b)%nat ->
  freeRects (pruneFreeRects sheet) !! a = Some ra ->
  freeRects (pruneFreeRects sheet) !! b = Some rb ->
  isContained ra rb = false /\ isContained rb ra = false.
Proof.
  simpl. intros Hab Ha Hb.
  destruct (filter_idx_pair _ _ _ _ _ _ _ Hab Ha Hb)
    as (i & j & Hij & Hi & Hj & Hki & Hkj).
  simpl in Hki, Hkj.
  assert (Hjlt : (j < length (freeRects sheet))%nat)
    by (by apply lookup_lt_Some in Hj).
  destruct (pruneKeep_pairs (freeRects sheet) i j) as [H1 H2].
  - lia.
  - apply lookup_total_true_inv; [rewrite pruneKeep_length; lia|done].
  - apply lookup_total_true_inv; [rewrite pruneKeep_length; lia|done].
  - by rewrite (list_lookup_total_correct _ _ _ Hi),
               (list_lookup_total_correct _ _ _ Hj) in H1, H2.
Qed.

Lemma pruneFreeRects_no_contained sheet a b ra rb :
  a <> b ->
  freeRects (pruneFreeRects sheet) !! a = Some ra ->
  freeRects (pruneFreeRects sheet) !! b = Some rb ->
  isContained ra rb = false.
Proof.
  intros Hne Ha Hb. destruct (decide (a < b)%nat).
  - by destruct (pruneFreeRects_no_contained_lt sheet a b ra rb).
  - by destruct (pruneFreeRects_no_contained_lt sheet b a rb ra); [lia|..].
Qed.

Lemma splitFree_cases x y x2 y2 r r' :
  r' ∈ splitFree x y x2 y2 r ->
  (r' = r /\ disjointFrom x y x2 y2 r) \/
  (~ disjointFrom x y x2 y2 r /\
   ((r' = leftOf x r /\ r_x r < x) \/ (r' = rightOf x2 r /\ x2 < r_x r + r_w r) \/
    (r' = above y r /\ r_y r < y) \/ (r' = below y2 r /\ y2 < r_y r + r_h r))).
Proof.
  unfold splitFree, disjointFrom.
  destruct (Qle_bool (r_x r + r_w r) x || Qle_bool x2 (r_x r) ||
            Qle_bool (r_y r + r_h r) y || Qle_bool y2 (r_y r)) eqn:E.
  - intros H. apply list_elem_of_singleton in H as ->. left. split; [done|].
    rewrite !orb_true_iff, !Qle_bool_iff in E. tauto.
  - intros H. right. split.
    { qprop. intros [?|[?|[?|?]]]; lra. }
    rewrite !elem_of_app in H.
    destruct H as [H|[H|[H|H]]];
      match type of H with
      | _ ∈ (if ?c then _ else _) => destruct c eqn:Ec
      end;
      try (by apply elem_of_nil in H);
      apply list_elem_of_singleton in H as ->; apply Qltb_true in Ec; auto.
Qed.


Lemma splitFree_inside x y x2 y2 r r' :
  r' ∈ splitFree x y x2 y2 r ->
  isContained r' r = true /\ disjointFrom x y x2 y2 r'.
Proof.
  intros H. apply splitFree_cases in H as [[-> Hd]|[Hnd H]].
  { split; [apply isContained_refl|done]. }
  unfold disjointFrom in *. rewrite isContained_true.
  destruct H as [[-> ?]|[[-> ?]|[[-> ?]|[-> ?]]]]; simpl;
    (split; [repeat split|]); lra.
Qed.

(** ** Insertion of a placement (C6) *)

Lemma placeRect_elem sheetW sheetH kerf sheet x y w h r' :
  r' ∈ freeRects (placeRect sheetW sheetH kerf sheet x y w h) ->
  (1 # 2) < r_w r' /\ (1 # 2) < r_h r' /\
  exists r, r ∈ freeRects sheet /\
    r' ∈ splitFree x y (Qmin (x + (w + kerf)) sheetW)
                       (Qmin (y + (h + kerf)) sheetH) r.
Proof.
  intros H. apply pruneFreeRects_sub in H. simpl in H.
  apply filterb_elem in H as [H Hb]. unfold bigEnough in Hb. qprop.
  split; [done|]. split; [done|].
  apply list_elem_of_bind in H as (r & Hr' & Hr). eauto.
Qed.




(** ** Empty input (C9) *)

(** C9: with an empty piece list [packPieces] returns, for every sheet
    size, kerf and cap, the result with no sheet, no unplaced piece and no
    suggestion. *)
Theorem packPieces_empty sheetW sheetH kerf maxSheets fuel :
  packPieces sheetW sheetH kerf maxSheets fuel [] = Some (mkPacking [] [] []).
Proof. reflexivity. Qed.

(** ** Fit search (C7) *)

Lemma isBetterScore_true a b : isBetterScore a b = true <-> scoreLt a b.
Proof.
  unfold isBetterScore, scoreLt.
  destruct (Qneqb (primary a) (primary b)) eqn:E1;
    [|destruct (Qneqb (secondary a) (secondary b)) eqn:E2];
    rewrite Qltb_true; qprop; split; intros H; lra.
Qed.

Lemma scoreLt_irrefl a : ~ scoreLt a a.
Proof. unfold scoreLt. lra. Qed.

Lemma scoreLt_trans a b c : scoreLt a b -> scoreLt b c -> scoreLt a c.
Proof. unfold scoreLt. lra. Qed.

Lemma isBetterScore_irrefl a : isBetterScore a a = false.
Proof.
  destruct (isBetterScore a a) eqn:E; [|done].
  apply isBetterScore_true in E. by apply scoreLt_irrefl in E.
Qed.

Lemma isBetterScore_keep a b c :
  isBetterScore a b = true -> isBetterScore c b = false ->
  isBetterScore c a = false.
Proof.
  intros Hab Hcb. destruct (isBetterScore c a) eqn:E; [|done].
  apply isBetterScore_true in Hab, E.
  assert (H : isBetterScore c b = true)
    by (apply isBetterScore_true; by apply scoreLt_trans with a).
  congruence.
Qed.

Lemma spec_candidates_elem sheetW rects pw ph heuristic c :
  c ∈ spec_candidates sheetW rects pw ph heuristic <->
  exists r, r ∈ rects /\
    ((c = mkFit r pw ph false (scoreFit sheetW r pw ph heuristic) /\
      pw <= r_w r /\ ph <= r_h r) \/
     (c = mkFit r ph pw true (scoreFit sheetW r ph pw heuristic) /\
      ph <= r_w r /\ pw <= r_h r /\ ~ pw == ph)).
Proof.
  unfold spec_candidates. rewrite list_elem_of_bind.
  split; intros (r & H1 & H2); exists r.
  - split; [done|]. unfold spec_candidatesOf, fits in H1.
    apply elem_of_app in H1 as [H1|H1];
      match type of H1 with
      | _ ∈ (if ?b then _ else _) => destruct b eqn:E
      end; try (by apply elem_of_nil in H1);
      apply list_elem_of_singleton in H1 as ->; qprop; auto.
  - split; [|done]. unfold spec_candidatesOf, fits.
    apply elem_of_app. destruct H2 as [(-> & Hw & Hh)|(-> & Hw & Hh & Hne)].
    + left. apply Qle_bool_iff in Hw, Hh. rewrite Hw, Hh. by left.
    + right. apply Qle_bool_iff in Hw, Hh. apply Qneqb_true in Hne.
      rewrite Hw, Hh, Hne. by left.
Qed.

Lemma spec_candidates_rotated sheetW rects pw ph heuristic c :
  c ∈ spec_candidates sheetW rects pw ph heuristic ->
  fit_rotated c = Qneqb (fit_w c) pw.
Proof.
  intros H. apply spec_candidates_elem in H as (r & _ & [(-> & _)|(-> & H)]).
  - simpl. symmetry. apply Qneqb_false. reflexivity.
  - simpl. symmetry. apply Qneqb_true. intros E. destruct H as (_ & _ & H).
    apply H. by symmetry.
Qed.

Section FitSearch.

Variables (sheetW pw ph : Q) (heuristic : Heuristic).

Lemma improve_bestOf b L c :
  bestOf b L ->
  bestOf (improve b (fit_rect c) (fit_w c) (fit_h c) (fit_score c)) (L ++ [c]).
Proof.
  unfold bestOf, improve. destruct (bestScore b) as [s|] eqn:Eb.
  - intros (fit & Hin & -> & Hr & Hw & Hh & Hbest).
    destruct (isBetterScore (fit_score c) (fit_score fit)) eqn:E; simpl.
    + exists c. rewrite elem_of_app, list_elem_of_singleton.
      repeat split; auto. intros c' Hc'.
      apply elem_of_app in Hc' as [Hc'|Hc'].
      * apply isBetterScore_keep with (fit_score fit); auto.
      * apply list_elem_of_singleton in Hc' as ->.
        apply isBetterScore_irrefl.
    + rewrite Eb. exists fit. rewrite elem_of_app.
      repeat split; auto. intros c' Hc'.
      apply elem_of_app in Hc' as [Hc'|Hc']; [auto|].
      by apply list_elem_of_singleton in Hc' as ->.
  - intros [Hr ->]. simpl. exists c. rewrite list_elem_of_singleton.
    repeat split; auto. intros c' Hc'.
    apply list_elem_of_singleton in Hc' as ->. apply isBetterScore_irrefl.
Qed.

Lemma fitStep_bestOf b L r :
  bestOf b L ->
  bestOf (fitStep sheetW pw ph heuristic b r)
         (L ++ spec_candidatesOf sheetW pw ph heuristic r).
Proof.
  intros Hb. unfold fitStep, spec_candidatesOf, fits.
  destruct (Qle_bool pw (r_w r) && Qle_bool ph (r_h r));
    destruct (Qle_bool ph (r_w r) && Qle_bool pw (r_h r) && Qneqb pw ph);
    rewrite ?app_nil_r, ?app_nil_l; auto.
  - rewrite (assoc_L (++) L [_] [_]).
    apply (improve_bestOf _ _ (mkFit r ph pw true _)).
    by apply (improve_bestOf _ _ (mkFit r pw ph false _)).
  - by apply (improve_bestOf _ _ (mkFit r pw ph false _)).
  - by apply (improve_bestOf _ _ (mkFit r ph pw true _)).
Qed.

Lemma fitLoop_bestOf rects b L :
  bestOf b L ->
  bestOf (foldl (fitStep sheetW pw ph heuristic) b rects)
         (L ++ spec_candidates sheetW rects pw ph heuristic).
Proof.
  revert b L. induction rects as [|r rects IH]; intros b L Hb.
  { simpl. by rewrite app_nil_r. }
  unfold spec_candidates. rewrite bind_cons, (assoc_L (++)). simpl.
  apply IH. by apply fitStep_bestOf.
Qed.

End FitSearch.

Lemma findBestFit_spec sheetW sheet pw ph heuristic :
  let cands := spec_candidates sheetW (freeRects sheet) pw ph heuristic in
  (findBestFit sheetW sheet pw ph heuristic = None <-> cands = []) /\
  (forall fit, findBestFit sheetW sheet pw ph heuristic = Some fit ->
     fit ∈ cands /\
     forall c, c ∈ cands -> isBetterScore (fit_score c) (fit_score fit) = false).
Proof.
  intros cands.
  pose proof (fitLoop_bestOf sheetW pw ph heuristic (freeRects sheet)
                (mkBest None None pw ph) [] (conj eq_refl eq_refl)) as Hb.
  rewrite app_nil_l in Hb. fold cands in Hb.
  unfold findBestFit.
  destruct (foldl _ _ _) as [bs br bw bh]. unfold bestOf in Hb. simpl in *.
  destruct bs as [s|].
  - destruct Hb as (fit & Hin & -> & -> & -> & -> & Hbest). split.
    + split; [done|]. intros E. rewrite E in Hin. by apply elem_of_nil in Hin.
    + intros fit' [= <-]. simpl. split; [|done].
      rewrite <- (spec_candidates_rotated _ _ _ _ _ _ Hin).
      by destruct fit.
  - destruct Hb as [-> ->]. split; [done|]. intros fit H. done.
Qed.


(** ** Sorting *)

Lemma sort_insert_perm {A} (cmp : A -> A -> Q) a l :
  sort_insert cmp a l ≡ₚ a :: l.
Proof.
  induction l as [|b l IH]; simpl; [done|].
  destruct (Qle_bool (cmp a b) 0); [done|].
  rewrite IH. apply Permutation_swap.
Qed.

Lemma js_sort_perm {A} (cmp : A -> A -> Q) l : js_sort cmp l ≡ₚ l.
Proof.
  induction l as [|a l IH]; simpl; [done|].
  by rewrite sort_insert_perm, IH.
Qed.

Lemma js_sort_length {A} (cmp : A -> A -> Q) l :
  length (js_sort cmp l) = length l.
Proof. apply Permutation_length, js_sort_perm. Qed.

(** ** Strategy selector (C3) *)

Section Selector.

Variables (sheetW sheetH kerf : Q) (maxSheets : Z).

#[local] Abbreviation run := (runStrategy sheetW sheetH kerf maxSheets).
#[local] Abbreviation score := (resultScore sheetW sheetH).
#[local] Abbreviation better := (isBetterResult sheetW sheetH).
#[local] Abbreviation keep := (keepBest sheetW sheetH).

Lemma isBetterResult_true a b : better a b = true <-> resultLt sheetW sheetH a b.
Proof.
  unfold isBetterResult, resultLt.
  set (sa := score a). set (sb := score b).
  change (unplacedCount sa) with (length (unplaced a)).
  change (unplacedCount sb) with (length (unplaced b)).
  change (sheetCount sa) with (length (sheets a)).
  change (sheetCount sb) with (length (sheets b)).
  destruct (length (unplaced a) =? length (unplaced b))%nat eqn:E1; simpl.
  - apply Nat.eqb_eq in E1.
    destruct (length (sheets a) =? length (sheets b))%nat eqn:E2; simpl.
    + apply Nat.eqb_eq in E2. rewrite Qltb_true. split; [tauto|].
      intros [?|[_ [?|[_ ?]]]]; [lia|lia|done].
    + apply Nat.eqb_neq in E2. rewrite Nat.ltb_lt. split; [tauto|].
      intros [?|[_ [?|[? _]]]]; [lia|done|done].
  - apply Nat.eqb_neq in E1. rewrite Nat.ltb_lt. split; [tauto|].
    intros [?|[? _]]; [done|done].
Qed.

Lemma resultLt_irrefl a : ~ resultLt sheetW sheetH a a.
Proof. unfold resultLt. intros [?|[_ [?|[_ ?]]]]; [lia|lia|lra]. Qed.

Lemma resultLt_trans a b c :
  resultLt sheetW sheetH a b -> resultLt sheetW sheetH b c ->
  resultLt sheetW sheetH a c.
Proof.
  unfold resultLt.
  intros [?|[? [?|[? ?]]]] [?|[? [?|[? ?]]]];
    try (left; lia); right; (split; [lia|]);
    try (left; lia); right; (split; [lia|lra]).
Qed.

Lemma isBetterResult_irrefl a : better a a = false.
Proof.
  destruct (better a a) eqn:E; [|done].
  apply isBetterResult_true in E. by apply resultLt_irrefl in E.
Qed.

Lemma isBetterResult_keep a b c :
  better a b = true -> better c b = false ->
  better c a = false.
Proof.
  intros Hab Hcb. destruct (better c a) eqn:E; [|done].
  apply isBetterResult_true in Hab, E.
  assert (H : better c b = true)
    by (apply isBetterResult_true; by apply resultLt_trans with a).
  congruence.
Qed.

Lemma keepBest_fold l b0 seen :
  b0 ∈ seen -> (forall r, r ∈ seen -> better r b0 = false) ->
  exists b, foldl keep (Some b0) l = Some b /\ b ∈ seen ++ l /\
            forall r, r ∈ seen ++ l -> better r b = false.
Proof.
  revert b0 seen. induction l as [|a l IH]; intros b0 seen Hin Hbest.
  { exists b0. rewrite app_nil_r. done. }
  simpl. replace (seen ++ a :: l) with ((seen ++ [a]) ++ l)
    by (by rewrite <- (assoc_L (++))).
  destruct (better a b0) eqn:E.
  - apply IH.
    + apply elem_of_app. right. by left.
    + intros r Hr. apply elem_of_app in Hr as [Hr|Hr].
      * apply isBetterResult_keep with b0; auto.
      * apply list_elem_of_singleton in Hr as ->. apply isBetterResult_irrefl.
  - apply IH.
    + apply elem_of_app. by left.
    + intros r Hr. apply elem_of_app in Hr as [Hr|Hr]; [auto|].
      by apply list_elem_of_singleton in Hr as ->.
Qed.

Lemma strategyGrid_attempts pcs :
  strategyGrid sheetW sheetH kerf maxSheets pcs =
  foldl keep None (attempts sheetW sheetH kerf maxSheets pcs).
Proof. reflexivity. Qed.

Lemma strategyGrid_is_best pcs :
  exists best, strategyGrid sheetW sheetH kerf maxSheets pcs = Some best /\
    best ∈ attempts sheetW sheetH kerf maxSheets pcs /\
    forall r, r ∈ attempts sheetW sheetH kerf maxSheets pcs -> better r best = false.
Proof.
  rewrite strategyGrid_attempts.
  destruct (attempts sheetW sheetH kerf maxSheets pcs) as [|a l] eqn:E; [discriminate E|].
  simpl. apply (keepBest_fold l a [a]).
  - by left.
  - intros r Hr. apply list_elem_of_singleton in Hr as ->.
    apply isBetterResult_irrefl.
Qed.


End Selector.


(** ** Sheet cap (C4) *)

Section Cap.

Variables (sheetW sheetH kerf : Q) (maxSheets : Z).

#[local] Abbreviation step := (runStep sheetW sheetH kerf maxSheets).
#[local] Abbreviation run := (runStrategy sheetW sheetH kerf maxSheets).

(** A step of the runner leaves the number of sheets as it is or opens
    one sheet, the latter only strictly below the cap. *)
Lemma runStep_sheets heuristic st piece :
  length (sheets (step heuristic st piece)) = length (sheets st) \/
  (length (sheets (step heuristic st piece)) = S (length (sheets st)) /\
   (Z.of_nat (length (sheets st)) < maxSheets)%Z).
Proof.
  unfold runStep. destruct (negb (fitsAtAll sheetW sheetH piece)); [by left|].
  destruct (bestSheetLoop _ _ _ _ _ _ _ _) as [idx|].
  { left. simpl. apply length_insert. }
  destruct (maxSheets <=? Z.of_nat (length (sheets st)))%Z eqn:E; [by left|].
  destruct (tryPlace _ _ _ _ _ _) as [s|]; [|by left].
  right. simpl. rewrite length_app. simpl. split; [lia|].
  apply Z.leb_gt in E. lia.
Qed.

Lemma runStrategy_snoc sorted piece heuristic :
  run (sorted ++ [piece]) heuristic = step heuristic (run sorted heuristic) piece.
Proof. unfold runStrategy. by rewrite foldl_app. Qed.

Lemma runStrategy_cap sorted heuristic :
  (0 <= maxSheets)%Z ->
  (Z.of_nat (length (sheets (run sorted heuristic))) <= maxSheets)%Z.
Proof.
  intros Hmax. induction sorted as [|piece sorted IH] using rev_ind.
  { simpl. lia. }
  rewrite runStrategy_snoc.
  destruct (runStep_sheets heuristic (run sorted heuristic) piece)
    as [->|[-> ?]]; lia.
Qed.

Lemma tryPlace__id piece sheet heuristic :
  tryPlace sheetW sheetH kerf piece sheet heuristic = None ->
  tryPlace_ sheetW sheetH kerf piece sheet heuristic = sheet.
Proof. unfold tryPlace_. by intros ->. Qed.

Lemma moveInto_length piece sis shs shs' :
  moveInto sheetW sheetH kerf piece sis shs = Some shs' ->
  length shs' = length shs.
Proof.
  induction sis as [|si sis IH]; simpl; [done|].
  destruct (findBestFit _ _ _ _ _); [|done].
  intros [= <-]. apply length_insert.
Qed.

Lemma moveLoop_length pi ps shs moved improved :
  length (moveLoop sheetW sheetH kerf pi ps shs moved improved).1.1 =
  length shs.
Proof.
  revert pi shs moved improved.
  induction ps as [|p ps IH]; intros pi shs moved improved; simpl; [done|].
  destruct (moveInto _ _ _ _ _ _) as [shs'|] eqn:E; rewrite IH; [|done].
  by apply moveInto_length in E.
Qed.

Lemma length_removelast {A} (l : list A) :
  length (removelast l) = (length l - 1)%nat.
Proof.
  induction l as [|a [|b l] IH]; simpl in *; [done|done|]. rewrite IH. lia.
Qed.

Lemma consolidatePass_length shs :
  (length (consolidatePass sheetW sheetH kerf shs).1 <= length shs)%nat.
Proof.
  unfold consolidatePass.
  match goal with
  | |- context [moveLoop ?a ?b ?c ?d ?e ?f ?g ?h] =>
      pose proof (moveLoop_length d e f g h) as Hlen;
      destruct (moveLoop a b c d e f g h) as [[shs' moved] improved]
  end.
  simpl in Hlen. rewrite js_sort_length in Hlen.
  destruct (0 <? size moved)%nat; [|simpl; lia].
  destruct (size moved =? _)%nat; simpl.
  - rewrite length_removelast. lia.
  - rewrite length_insert. lia.
Qed.

Lemma consolidateSheets_length fuel result result' :
  consolidateSheets sheetW sheetH kerf fuel result = Some result' ->
  (length (sheets result') <= length (sheets result))%nat.
Proof.
  revert result. induction fuel as [|fuel IH]; intros result; simpl; [done|].
  destruct (length (sheets result) <=? 1)%nat; [by intros [= <-]|].
  pose proof (consolidatePass_length (sheets result)) as Hlen.
  destruct (consolidatePass _ _ _ _) as [shs improved]. simpl in Hlen.
  destruct improved.
  - intros H. apply IH in H. simpl in H. lia.
  - intros [= <-]. done.
Qed.

Lemma attempts_cap pcs r :
  (0 <= maxSheets)%Z -> r ∈ attempts sheetW sheetH kerf maxSheets pcs ->
  (Z.of_nat (length (sheets r)) <= maxSheets)%Z.
Proof.
  intros Hmax H. unfold attempts in H.
  apply list_elem_of_bind in H as (sortFn & H & _).
  apply list_elem_of_bind in H as (heuristic & H & _).
  apply list_elem_of_singleton in H as ->. by apply runStrategy_cap.
Qed.

Lemma packPieces_cap fuel pcs res :
  (0 <= maxSheets)%Z ->
  packPieces sheetW sheetH kerf maxSheets fuel pcs = Some res ->
  (Z.of_nat (length (res_sheets res)) <= maxSheets)%Z.
Proof.
  intros Hmax. unfold packPieces.
  destruct (length pcs =? 0)%nat; [intros [= <-]; simpl; lia|].
  destruct (strategyGrid_is_best sheetW sheetH kerf maxSheets pcs)
    as (best & -> & Hin & _).
  apply attempts_cap in Hin; [|done]. simpl.
  destruct (1 <? length (sheets best))%nat.
  - destruct (consolidateSheets _ _ _ _ _) as [best'|] eqn:E; [|done].
    apply consolidateSheets_length in E. simpl. intros [= <-]. simpl.
    rewrite length_map. lia.
  - simpl. intros [= <-]. simpl. rewrite length_map. lia.
Qed.

End Cap.

(** C4: with a cap of at least one sheet, the runner opens a sheet only
    when the number of sheets is strictly below the cap, after every piece
    of every attempt the number of sheets is at most the cap, a
    consolidation pass never increases the number of sheets, and the result
    of [packPieces] has at most [maxSheets] sheets. *)
Theorem sheets_within_cap sheetW sheetH kerf maxSheets :
  (1 <= maxSheets)%Z ->
  (forall heuristic st piece,
     (length (sheets st) <
      length (sheets (runStep sheetW sheetH kerf maxSheets heuristic st piece)))%nat ->
     (Z.of_nat (length (sheets st)) < maxSheets)%Z) /\
  (forall sorted heuristic k,
     (Z.of_nat (length (sheets (runStrategy sheetW sheetH kerf maxSheets
                                   (take k sorted) heuristic))) <= maxSheets)%Z) /\
  (forall shs,
     (length (consolidatePass sheetW sheetH kerf shs).1 <= length shs)%nat) /\
  (forall fuel result result',
     consolidateSheets sheetW sheetH kerf fuel result = Some result' ->
     (length (sheets result') <= length (sheets result))%nat) /\
  (forall fuel pcs res,
     packPieces sheetW sheetH kerf maxSheets fuel pcs = Some res ->
     (Z.of_nat (length (res_sheets res)) <= maxSheets)%Z).
Proof.
  intros Hmax. repeat split.
  - intros heuristic st piece Hlt.
    destruct (runStep_sheets sheetW sheetH kerf maxSheets heuristic st piece)
      as [E|[_ ?]]; [lia|done].
  - intros sorted heuristic k. apply runStrategy_cap. lia.
  - apply consolidatePass_length.
  - apply consolidateSheets_length.
  - intros fuel pcs res. apply packPieces_cap. lia.
Qed.

(** ** Used area of a sheet *)

Lemma sumAreas_app ps qs : sumAreas (ps ++ qs) == sumAreas ps + sumAreas qs.
Proof.
  induction ps as [|p ps IH]; simpl; lra.
Qed.

Lemma sumAreas_nonneg ps :
  Forall (fun p => 0 <= areaOf p) ps -> 0 <= sumAreas ps.
Proof.
  induction 1 as [|p ps Hp _ IH]; simpl; lra.
Qed.

Section Areas.

Variables (sheetW sheetH kerf : Q).

#[local] Abbreviation place := (tryPlace sheetW sheetH kerf).
#[local] Abbreviation place_ := (tryPlace_ sheetW sheetH kerf).

Lemma newSheet_ok : sheetOk (newSheet sheetW sheetH).
Proof. split; simpl; [reflexivity|constructor]. Qed.

(** What a successful [tryPlace] does to the piece list and the used
    area. *)
Lemma tryPlace_Some piece sheet heuristic s' :
  place piece sheet heuristic = Some s' ->
  exists fit,
    findBestFit sheetW sheet (width piece) (height piece) heuristic = Some fit /\
    pieces s' =
      pieces sheet ++
      [mkPlaced (r_x (fit_rect fit)) (r_y (fit_rect fit)) (fit_w fit) (fit_h fit)
                (fit_rotated fit) (pc_id piece) (pc_label piece)
                (pc_furniture piece) (pc_color piece)
                (width piece) (height piece)] /\
    usedArea s' = usedArea sheet + fit_w fit * fit_h fit /\
    fit_w fit * fit_h fit == width piece * height piece.
Proof.
  unfold tryPlace.
  destruct (findBestFit _ _ _ _ _) as [fit|] eqn:E; [|done].
  intros [= <-]. exists fit. repeat split.
  apply findBestFit_spec in E as [Hin _].
  apply spec_candidates_elem in Hin as (r & _ & [(-> & _)|(-> & _)]); simpl;
    ring.
Qed.

Lemma tryPlace_ok piece sheet heuristic s' :
  0 <= width piece * height piece -> sheetOk sheet ->
  place piece sheet heuristic = Some s' ->
  sheetOk s' /\ usedArea sheet <= usedArea s' /\
  length (pieces s') = S (length (pieces sheet)).
Proof.
  intros Hpos [Hsum Hall] H.
  apply tryPlace_Some in H as (fit & _ & Hp & Hu & Ha).
  unfold sheetOk. rewrite Hp, Hu. repeat split.
  - pose proof (sumAreas_app (pieces sheet)
      [mkPlaced (r_x (fit_rect fit)) (r_y (fit_rect fit)) (fit_w fit) (fit_h fit)
                (fit_rotated fit) (pc_id piece) (pc_label piece)
                (pc_furniture piece) (pc_color piece)
                (width piece) (height piece)]) as Happ.
    simpl in Happ. unfold areaOf in Happ at 1. simpl in Happ. lra.
  - apply Forall_app. split; [done|]. by repeat constructor.
  - rewrite Ha. lra.
  - rewrite length_app. simpl. lia.
Qed.

Lemma tryPlace__ok piece sheet heuristic :
  0 <= width piece * height piece -> sheetOk sheet ->
  sheetOk (place_ piece sheet heuristic) /\
  usedArea sheet <= usedArea (place_ piece sheet heuristic) /\
  (length (pieces (place_ piece sheet heuristic)) <= S (length (pieces sheet)))%nat.
Proof.
  intros Hpos Hok. unfold tryPlace_.
  destruct (place piece sheet heuristic) as [s'|] eqn:E; simpl.
  - destruct (tryPlace_ok _ _ _ _ Hpos Hok E) as (? & ? & ->). auto.
  - repeat split; [apply Hok|apply Hok|lra|lia].
Qed.

Lemma rebuild_from remaining s0 :
  Forall (fun p => 0 <= areaOf p) remaining -> sheetOk s0 ->
  let s := foldl (fun rebuilt p => place_ (fakePiece p) rebuilt HEURISTIC_BSSF)
                 s0 remaining in
  sheetOk s /\ usedArea s <= usedArea s0 + sumAreas remaining /\
  (length (pieces s) <= length (pieces s0) + length remaining)%nat.
Proof.
  intros Hall. revert s0.
  induction Hall as [|p ps Hp Hall IH]; intros s0 Hok; simpl.
  { repeat split; [apply Hok|apply Hok|lra|lia]. }
  destruct (tryPlace__ok (fakePiece p) s0 HEURISTIC_BSSF Hp Hok)
    as (Hok' & Hu & Hl).
  destruct (IH _ Hok') as (Hok'' & Hu' & Hl').
  split; [done|]. split; [|lia].
  assert (Hstep : usedArea (place_ (fakePiece p) s0 HEURISTIC_BSSF) <=
                  usedArea s0 + areaOf p).
  { unfold tryPlace_.
    destruct (place (fakePiece p) s0 HEURISTIC_BSSF) as [s'|] eqn:E; simpl.
    - apply tryPlace_Some in E as (fit & _ & _ & -> & Ha). rewrite Ha.
      simpl. unfold areaOf. lra.
    - unfold areaOf in *. lra. }
  lra.
Qed.

Lemma rebuild_ok remaining :
  Forall (fun p => 0 <= areaOf p) remaining ->
  sheetOk (rebuild sheetW sheetH kerf remaining) /\
  usedArea (rebuild sheetW sheetH kerf remaining) <= sumAreas remaining /\
  (length (pieces (rebuild sheetW sheetH kerf remaining)) <= length remaining)%nat.
Proof.
  intros Hall.
  destruct (rebuild_from remaining (newSheet sheetW sheetH) Hall newSheet_ok)
    as (Hok & Hu & Hl).
  unfold rebuild. split; [exact Hok|]. split.
  - apply Qle_trans with (1 := Hu). simpl. lra.
  - apply Nat.le_trans with (1 := Hl). simpl. lia.
Qed.

End Areas.

(** ** Sorting the sheets by used area *)

(** The comparator [(a, b) => b.usedArea - a.usedArea]. *)
#[local] Abbreviation byUsedArea := (fun a b : Sheet => usedArea b - usedArea a).

Lemma sort_insert_snoc a m x :
  usedArea x <= usedArea a ->
  sort_insert byUsedArea a (m ++ [x]) = sort_insert byUsedArea a m ++ [x].
Proof.
  intros Hx. induction m as [|b m IH]; simpl.
  - assert (E : Qle_bool (usedArea x - usedArea a) 0 = true)
      by (apply Qle_bool_iff; lra).
    by rewrite E.
  - destruct (Qle_bool (usedArea b - usedArea a) 0); [done|]. by rewrite IH.
Qed.

(** A sheet that is last and has the least used area stays last. *)
Lemma js_sort_snoc l x :
  Forall (fun f => usedArea x <= usedArea f) l ->
  js_sort byUsedArea (l ++ [x]) = js_sort byUsedArea l ++ [x].
Proof.
  induction 1 as [|a l Ha _ IH]; simpl; [done|].
  rewrite IH. by apply sort_insert_snoc.
Qed.

Lemma sort_insert_descending a l :
  descending l -> descending (sort_insert byUsedArea a l).
Proof.
  induction 1 as [|b l Hl IH Hb]; simpl.
  { repeat constructor. }
  destruct (Qle_bool (usedArea b - usedArea a) 0) eqn:E.
  - apply Qle_bool_iff in E. constructor; [by constructor|].
    constructor; [lra|]. eapply Forall_impl; [exact Hb|].
    simpl. intros c Hc. lra.
  - apply Qle_bool_false in E. constructor; [done|].
    rewrite sort_insert_perm. constructor; [lra|done].
Qed.

Lemma js_sort_descending l : descending (js_sort byUsedArea l).
Proof.
  induction l as [|a l IH]; simpl; [constructor|].
  by apply sort_insert_descending.
Qed.

Lemma descending_last front last :
  descending (front ++ [last]) ->
  Forall (fun f => usedArea last <= usedArea f) front.
Proof.
  induction front as [|a front IH]; simpl; [constructor|].
  intros H. apply StronglySorted_inv in H as [H Ha]. constructor.
  - apply Forall_app in Ha as [_ Ha]. by rewrite Forall_singleton in Ha.
  - by apply IH.
Qed.

Lemma snoc_lookup_last {A} `{Inhabited A} (front : list A) (x : A) :
  (front ++ [x]) !!! (length (front ++ [x]) - 1)%nat = x.
Proof.
  rewrite length_app. simpl.
  replace (length front + 1 - 1)%nat with (length front + 0)%nat by lia.
  by rewrite lookup_total_app_r, Nat.add_comm, Nat.add_sub by lia.
Qed.

Lemma filter_idx_length_le {A} (f : A -> nat -> bool) s (l : list A) :
  (length (filter_idx f s l) <= length l)%nat.
Proof.
  revert s. induction l as [|a l IH]; intros s; simpl; [done|].
  specialize (IH (S s)). destruct (f a s); simpl; lia.
Qed.

Lemma filter_idx_length_lt {A} (f : A -> nat -> bool) s (l : list A) i x :
  l !! i = Some x -> f x (s + i)%nat = false ->
  (length (filter_idx f s l) < length l)%nat.
Proof.
  revert s i. induction l as [|a l IH]; intros s i; simpl; [done|].
  destruct i as [|i]; simpl.
  - intros [= ->]. rewrite Nat.add_0_r. intros ->.
    pose proof (filter_idx_length_le f (S s) l). lia.
  - intros Hi Hf. rewrite Nat.add_succ_r in Hf.
    specialize (IH (S s) i Hi Hf). destruct (f a s); simpl; lia.
Qed.

Lemma filter_idx_Forall {A} (P : A -> Prop) (f : A -> nat -> bool) s l :
  Forall P l -> Forall P (filter_idx f s l).
Proof.
  intros H. revert s. induction H as [|a l Ha _ IH]; intros s; simpl.
  { constructor. }
  destruct (f a s); [constructor|]; auto.
Qed.

Lemma filter_idx_sumAreas (f : Placed -> nat -> bool) s l :
  Forall (fun p => 0 <= areaOf p) l ->
  sumAreas (filter_idx f s l) <= sumAreas l.
Proof.
  intros H. revert s. induction H as [|a l Ha _ IH]; intros s; simpl.
  { lra. }
  specialize (IH (S s)). destruct (f a s); simpl; lra.
Qed.

(** ** Consolidation passes *)

Section Consolidation.

Variables (sheetW sheetH kerf : Q).

#[local] Abbreviation place_ := (tryPlace_ sheetW sheetH kerf).
#[local] Abbreviation pass := (consolidatePass sheetW sheetH kerf).

Lemma moveInto_Some piece sis shs shs' :
  moveInto sheetW sheetH kerf piece sis shs = Some shs' ->
  exists si, si ∈ sis /\
    is_Some (findBestFit sheetW (shs !!! si) (width piece) (height piece)
                         HEURISTIC_BSSF) /\
    shs' = <[si := place_ piece (shs !!! si) HEURISTIC_BSSF]> shs.
Proof.
  induction sis as [|si sis IH]; simpl; [done|].
  destruct (findBestFit _ _ _ _ _) as [fit|] eqn:E.
  - intros [= <-]. exists si. rewrite E. split; [by left|]. eauto.
  - intros H. destruct (IH H) as (si' & ? & ? & ?). exists si'.
    split; [by right|]. done.
Qed.

Lemma moveInto_front piece front last shs' c :
  0 <= width piece * height piece ->
  Forall sheetOk front -> Forall (fun f => c <= usedArea f) front ->
  moveInto sheetW sheetH kerf piece (seq 0 (length front)) (front ++ [last])
    = Some shs' ->
  exists front', shs' = front' ++ [last] /\ length front' = length front /\
    Forall sheetOk front' /\ Forall (fun f => c <= usedArea f) front'.
Proof.
  intros Hpos Hok Hc H. apply moveInto_Some in H as (si & Hsi & _ & ->).
  apply elem_of_seq in Hsi as [_ Hsi]. simpl in Hsi.
  destruct (lookup_lt_is_Some_2 front si Hsi) as [s Hs].
  rewrite lookup_total_app_l by done.
  rewrite (list_lookup_total_correct _ _ _ Hs).
  rewrite insert_app_l by done.
  destruct (tryPlace__ok sheetW sheetH kerf piece s HEURISTIC_BSSF Hpos)
    as (Hok' & Hu & _).
  { by apply (Forall_lookup_1 _ _ _ _ Hok Hs). }
  exists (<[si := place_ piece s HEURISTIC_BSSF]> front).
  split; [done|]. split; [apply length_insert|]. split.
  - by apply Forall_insert.
  - apply Forall_insert; [done|].
    pose proof (Forall_lookup_1 _ _ _ _ Hc Hs) as Hcs. simpl in Hcs. lra.
Qed.

Lemma moveLoop_front ps pi front last moved improved c shs1 moved1 improved1 :
  Forall (fun p => 0 <= areaOf p) ps ->
  Forall sheetOk front -> Forall (fun f => c <= usedArea f) front ->
  (improved = true <-> exists i, i ∈ moved) ->
  (forall i, i ∈ moved -> (i < pi)%nat) ->
  moveLoop sheetW sheetH kerf pi ps (front ++ [last]) moved improved
    = (shs1, moved1, improved1) ->
  exists front1, shs1 = front1 ++ [last] /\ length front1 = length front /\
    Forall sheetOk front1 /\ Forall (fun f => c <= usedArea f) front1 /\
    (improved1 = true <-> exists i, i ∈ moved1) /\
    (forall i, i ∈ moved1 -> (i < pi + length ps)%nat).
Proof.
  intros Hps. revert pi front moved improved.
  induction Hps as [|p ps Hp _ IH]; intros pi front moved improved
    Hok Hc Himp Hlt; simpl.
  { intros [= ? ? ?]; subst. exists front. rewrite Nat.add_0_r. done. }
  rewrite length_app. simpl length.
  replace (length front + 1 - 1)%nat with (length front) by lia.
  destruct (moveInto _ _ _ _ _ _) as [shs'|] eqn:E.
  - apply moveInto_front with (c := c) in E
      as (front' & -> & Hlen & Hok' & Hc'); [|exact Hp|exact Hok|exact Hc].
    intros H.
    destruct (IH (S pi) front' ({[pi]} ∪ moved) true Hok' Hc')
      as (front1 & -> & Hlen1 & Hok1 & Hc1 & Himp1 & Hlt1); [| |exact H|].
    + split; [|reflexivity]. intros _. exists pi.
      apply elem_of_union. left. by apply elem_of_singleton.
    + intros i Hi. apply elem_of_union in Hi as [Hi|Hi].
      * apply elem_of_singleton in Hi as ->. lia.
      * specialize (Hlt i Hi). lia.
    + exists front1. repeat split; try done; try lia; try apply Himp1.
      intros i Hi. specialize (Hlt1 i Hi). lia.
  - intros H.
    destruct (IH (S pi) front moved improved Hok Hc)
      as (front1 & -> & Hlen1 & Hok1 & Hc1 & Himp1 & Hlt1);
      [exact Himp| |exact H|].
    + intros i Hi. specialize (Hlt i Hi). lia.
    + exists front1. repeat split; try done; try lia; try apply Himp1.
      intros i Hi. specialize (Hlt1 i Hi). lia.
Qed.

(** A pass keeps the bookkeeping of the used areas and, when it moves a
    piece, removes a sheet or leaves fewer pieces on the last sheet. *)
Lemma consolidatePass_progress shs :
  Forall sheetOk shs -> shs <> [] ->
  Forall sheetOk (pass shs).1 /\
  ((pass shs).2 = true ->
   (length (pass shs).1 < length shs)%nat \/
   (length (pass shs).1 = length shs /\
    (lastPieces (pass shs).1 < lastPieces shs)%nat)).
Proof.
  intros Hok Hne. unfold consolidatePass, lastPieces.
  pose proof (js_sort_perm byUsedArea shs) as Hperm.
  pose proof (js_sort_descending shs) as Hdesc.
  pose proof (js_sort_length byUsedArea shs) as Hlen.
  destruct (js_sort byUsedArea shs) as [|last front _] eqn:Es
    using rev_ind.
  { destruct shs; [done|]. simpl in Hlen. lia. }
  rewrite snoc_lookup_last.
  assert (Hoks : Forall sheetOk (front ++ [last])) by (by rewrite Hperm).
  apply Forall_app in Hoks as [Hokf Hokl].
  rewrite Forall_singleton in Hokl. destruct Hokl as [Hsum Hnn].
  apply descending_last in Hdesc.
  destruct (moveLoop _ _ _ _ _ _ _ _) as [[shs1 moved] improved] eqn:Em.
  apply moveLoop_front with (c := usedArea last) in Em
    as (front1 & -> & Hlen1 & Hok1 & Hc1 & Himp1 & Hlt1);
    [|exact Hnn|exact Hokf|exact Hdesc|split; [done|intros [i Hi]; set_solver]
     |intros i Hi; set_solver].
  rewrite length_app in Hlen. simpl in Hlen.
  destruct (0 <? size moved)%nat eqn:E0.
  - apply Nat.ltb_lt in E0.
    destruct (size moved =? length (pieces last))%nat eqn:E1; simpl.
    + rewrite removelast_last. split; [done|]. intros _. left. lia.
    + set (remaining := filter_idx _ 0 (pieces last)).
      assert (Hrem : Forall (fun p => 0 <= areaOf p) remaining)
        by (by apply filter_idx_Forall).
      destruct (rebuild_ok sheetW sheetH kerf remaining Hrem)
        as (Hokr & Hur & Hlr).
      rewrite length_app. simpl length.
      replace (length front1 + 1 - 1)%nat with (length front1 + 0)%nat by lia.
      rewrite insert_app_r. simpl. split.
      { apply Forall_app. split; [done|]. by apply Forall_singleton. }
      intros _. right. rewrite length_app. simpl. split; [lia|].
      rewrite js_sort_snoc.
      * rewrite snoc_lookup_last.
        apply Nat.le_lt_trans with (1 := Hlr).
        apply size_pos_elem_of in E0 as [i Hi].
        specialize (Hlt1 i Hi). simpl in Hlt1.
        destruct (lookup_lt_is_Some_2 _ _ Hlt1) as [p Hp].
        apply (filter_idx_length_lt _ 0 _ i p Hp). simpl.
        apply negb_false_iff. by apply bool_decide_eq_true.
      * eapply Forall_impl; [exact Hc1|]. simpl. intros f Hf.
        pose proof (filter_idx_sumAreas
          (fun _ i => negb (bool_decide (i ∈ moved))) 0 (pieces last) Hnn).
        fold remaining in H. lra.
  - apply Nat.ltb_ge in E0. simpl. split.
    { apply Forall_app. split; [done|]. by apply Forall_singleton. }
    intros Hi. apply Himp1 in Hi as [i Hi].
    assert (E : size moved = 0%nat) by lia.
    apply size_empty_inv in E. set_solver.
Qed.

End Consolidation.

(** ** Termination of the consolidation (C5) *)

Section Termination.

Variables (sheetW sheetH kerf : Q).

#[local] Abbreviation consolidate := (consolidateSheets sheetW sheetH kerf).

Lemma consolidateSheets_fuel_mono fuel fuel' result result' :
  (fuel <= fuel')%nat ->
  consolidate fuel result = Some result' ->
  consolidate fuel' result = Some result'.
Proof.
  revert fuel' result. induction fuel as [|fuel IH]; intros fuel' result Hle;
    simpl; [done|].
  destruct fuel' as [|fuel']; [lia|]. simpl.
  destruct (length (sheets result) <=? 1)%nat; [done|].
  destruct (consolidatePass _ _ _ _) as [shs improved].
  destruct improved; [|done]. apply IH. lia.
Qed.

Lemma consolidateSheets_finishes n shs unpl :
  (length shs <= n)%nat -> Forall sheetOk shs ->
  exists fuel result', consolidate fuel (mkResult shs unpl) = Some result'.
Proof.
  revert shs. induction n as [|n IHn]; intros shs Hn Hok.
  { exists 1%nat, (mkResult shs unpl). simpl.
    destruct (length shs <=? 1)%nat eqn:E; [done|].
    apply Nat.leb_gt in E. lia. }
  remember (lastPieces shs) as m eqn:Em. revert shs Hn Hok Em.
  induction m as [m IHm] using lt_wf_ind; intros shs Hn Hok ->.
  destruct (length shs <=? 1)%nat eqn:E.
  { exists 1%nat, (mkResult shs unpl). simpl. by rewrite E. }
  destruct (consolidatePass_progress sheetW sheetH kerf shs Hok)
    as [Hok' Hprog].
  { intros ->. done. }
  destruct (consolidatePass sheetW sheetH kerf shs) as [shs' improved] eqn:Ep.
  simpl in Hok', Hprog. destruct improved.
  - destruct (Hprog eq_refl) as [Hlt|[Hlen Hlt]].
    + destruct (IHn shs') as (fuel & r & Hr); [lia|done|].
      exists (S fuel), r. simpl. by rewrite E, Ep.
    + destruct (IHm (lastPieces shs') Hlt shs') as (fuel & r & Hr);
        [lia|done|done|].
      exists (S fuel), r. simpl. by rewrite E, Ep.
  - exists 1%nat, (mkResult shs' unpl). simpl. by rewrite E, Ep.
Qed.

Lemma consolidateSheets_total result :
  Forall sheetOk (sheets result) ->
  exists fuel0 result', forall fuel, (fuel0 <= fuel)%nat ->
    consolidate fuel result = Some result'.
Proof.
  intros Hok. destruct result as [shs unpl]. simpl in Hok.
  destruct (consolidateSheets_finishes (length shs) shs unpl)
    as (fuel0 & r & Hr); [lia|done|].
  exists fuel0, r. intros fuel Hle.
  by apply consolidateSheets_fuel_mono with fuel0.
Qed.

Variable maxSheets : Z.

Lemma sheetOk_lookup_total (shs : list Sheet) i :
  Forall sheetOk shs -> sheetOk (shs !!! i).
Proof.
  intros Hok. destruct (shs !! i) as [s|] eqn:E.
  - rewrite (list_lookup_total_correct _ _ _ E).
    by apply (Forall_lookup_1 _ _ _ _ Hok E).
  - rewrite list_lookup_total_alt, E. simpl. split; simpl; [reflexivity|].
    constructor.
Qed.

Lemma runStep_ok heuristic st piece :
  0 <= width piece * height piece -> Forall sheetOk (sheets st) ->
  Forall sheetOk (sheets (runStep sheetW sheetH kerf maxSheets heuristic st piece)).
Proof.
  intros Hpos Hok. unfold runStep.
  destruct (negb (fitsAtAll sheetW sheetH piece)); [done|].
  destruct (bestSheetLoop _ _ _ _ _ _ _ _) as [idx|]; simpl.
  { apply Forall_insert; [done|].
    apply tryPlace__ok; [done|]. by apply sheetOk_lookup_total. }
  destruct (maxSheets <=? _)%Z; [done|].
  destruct (tryPlace _ _ _ _ _ _) as [s|] eqn:E; [|done]. simpl.
  apply Forall_app. split; [done|]. apply Forall_singleton.
  by apply (tryPlace_ok _ _ _ _ _ _ _ Hpos (newSheet_ok sheetW sheetH) E).
Qed.

Lemma runStrategy_ok sorted heuristic :
  Forall (fun p => 0 <= width p * height p) sorted ->
  Forall sheetOk
    (sheets (runStrategy sheetW sheetH kerf maxSheets sorted heuristic)).
Proof.
  intros Hall. unfold runStrategy.
  assert (H0 : Forall sheetOk (sheets (mkResult [] []))) by constructor.
  revert H0. generalize (mkResult [] []).
  induction Hall as [|p ps Hp _ IH]; intros st Hst; simpl; [done|].
  apply IH. by apply runStep_ok.
Qed.

Lemma strategyGrid_ok pcs :
  Forall (fun p => 0 <= width p * height p) pcs ->
  exists best, strategyGrid sheetW sheetH kerf maxSheets pcs = Some best /\
               Forall sheetOk (sheets best).
Proof.
  intros Hall.
  destruct (strategyGrid_is_best sheetW sheetH kerf maxSheets pcs)
    as (best & E & Hin & _).
  exists best. split; [done|]. unfold attempts in Hin.
  apply list_elem_of_bind in Hin as (sortFn & Hin & _).
  apply list_elem_of_bind in Hin as (heuristic & Hin & _).
  apply list_elem_of_singleton in Hin as ->.
  apply runStrategy_ok. by rewrite js_sort_perm.
Qed.

(** Under pieces of non-negative area, [packPieces] returns a result once
    the fuel suffices. *)
Lemma packPieces_total pcs :
  Forall (fun p => 0 <= width p * height p) pcs ->
  exists fuel0 res, forall fuel, (fuel0 <= fuel)%nat ->
    packPieces sheetW sheetH kerf maxSheets fuel pcs = Some res.
Proof.
  intros Hall. unfold packPieces.
  destruct (length pcs =? 0)%nat; [by exists 0%nat, (mkPacking [] [] [])|].
  destruct (strategyGrid_ok pcs Hall) as (best & -> & Hok). simpl.
  destruct (1 <? length (sheets best))%nat.
  - destruct (consolidateSheets_total best Hok) as (fuel0 & r & Hr).
    eexists fuel0, _. intros fuel Hle. by rewrite (Hr fuel Hle).
  - by eexists 0%nat, _.
Qed.

Lemma moveLoop_improved pi ps shs moved improved :
  (improved = true <-> exists i, i ∈ moved) ->
  (moveLoop sheetW sheetH kerf pi ps shs moved improved).2 = true <->
  exists i, i ∈ (moveLoop sheetW sheetH kerf pi ps shs moved improved).1.2.
Proof.
  revert pi shs moved improved.
  induction ps as [|p ps IH]; intros pi shs moved improved Himp; simpl.
  { done. }
  destruct (moveInto _ _ _ _ _ _) as [shs'|]; apply IH; [|done].
  split; [|reflexivity]. intros _. exists pi.
  apply elem_of_union. left. by apply elem_of_singleton.
Qed.

Lemma consolidatePass_improved shs :
  (consolidatePass sheetW sheetH kerf shs).2 = true <->
  exists i, i ∈ passMoved sheetW sheetH kerf shs.
Proof.
  unfold consolidatePass, passMoved.
  match goal with
  | |- context [moveLoop ?a ?b ?c ?d ?e ?f ?g ?h] =>
      pose proof (moveLoop_improved d e f g h) as Himp;
      destruct (moveLoop a b c d e f g h) as [[shs' moved] improved]
  end.
  simpl in *. rewrite <- Himp by (split; [done|intros [i Hi]; set_solver]).
  destruct (0 <? size moved)%nat; [|done].
  by destruct (size moved =? _)%nat.
Qed.

End Termination.

(** C5: for every list of pieces of non-negative area (in particular of
    positive dimensions), and every sheet size, kerf and cap, the
    [while (improved)] loop of [consolidateSheets] on the selected packing
    ends: from some fuel on it returns one and the same result.  A pass
    asks for another pass exactly when it moved a piece, so the loop runs
    until a pass moves no piece. *)
Theorem consolidation_terminates sheetW sheetH kerf maxSheets pcs :
  Forall (fun p => 0 <= width p * height p) pcs ->
  (forall shs,
     (consolidatePass sheetW sheetH kerf shs).2 = true <->
     exists i, i ∈ passMoved sheetW sheetH kerf shs) /\
  exists best,
    strategyGrid sheetW sheetH kerf maxSheets pcs = Some best /\
    exists fuel0 result', forall fuel, (fuel0 <= fuel)%nat ->
      consolidateSheets sheetW sheetH kerf fuel best = Some result'.
Proof.
  intros Hall. split; [apply consolidatePass_improved|].
  destruct (strategyGrid_ok sheetW sheetH kerf maxSheets pcs Hall)
    as (best & E & Hok).
  exists best. split; [done|]. by apply consolidateSheets_total.
Qed.

(** ** Pieces outside the data model *)

Lemma cycle_first :
  exists best,
    strategyGrid 10 10 0 5 negativeExample = Some best /\
    length (sheets best) = 2%nat /\
    consolidatePass 10 10 0 (sheets best) = (cycleB, true).
Proof.
  eexists. split; [vm_compute; reflexivity|]. split; vm_compute; reflexivity.
Qed.

Lemma cycle_BC : consolidatePass 10 10 0 cycleB = (cycleC, true).
Proof. vm_compute. reflexivity. Qed.

Lemma cycle_CB : consolidatePass 10 10 0 cycleC = (cycleB, true).
Proof. vm_compute. reflexivity. Qed.

Lemma cycle_forever fuel unpl :
  consolidateSheets 10 10 0 fuel (mkResult cycleB unpl) = None /\
  consolidateSheets 10 10 0 fuel (mkResult cycleC unpl) = None.
Proof.
  induction fuel as [|fuel [IHB IHC]]; [done|].
  split; cbn [consolidateSheets sheets unplaced].
  - change (length cycleB <=? 1)%nat with false. cbv iota.
    rewrite cycle_BC. exact IHC.
  - change (length cycleC <=? 1)%nat with false. cbv iota.
    rewrite cycle_CB. exact IHB.
Qed.

(** The hypothesis on the areas in [consolidation_terminates] cannot be
    dropped: with a piece of negative height the piece goes back and forth
    between two sheets, every pass moves it, and no fuel suffices. *)
Lemma consolidation_cycles_on_negative_height fuel :
  packPieces 10 10 0 5 fuel negativeExample = None.
Proof.
  destruct cycle_first as (best & E & Hlen & Hpass).
  unfold packPieces. change (length negativeExample =? 0)%nat with false.
  cbv iota. rewrite E. simpl.
  assert (Hb : (1 <? length (sheets best))%nat = true) by (by rewrite Hlen).
  rewrite Hb.
  assert (Hc : consolidateSheets 10 10 0 fuel best = None).
  { destruct fuel as [|fuel]; [done|]. cbn [consolidateSheets].
    assert (Hl : (length (sheets best) <=? 1)%nat = false) by (by rewrite Hlen).
    rewrite Hl, Hpass. apply cycle_forever. }
  by rewrite Hc.
Qed.

(** ** One result for one input (C10) *)

Lemma packPieces_fuel_mono sheetW sheetH kerf maxSheets fuel fuel' pcs res :
  (fuel <= fuel')%nat ->
  packPieces sheetW sheetH kerf maxSheets fuel pcs = Some res ->
  packPieces sheetW sheetH kerf maxSheets fuel' pcs = Some res.
Proof.
  intros Hle. unfold packPieces.
  destruct (length pcs =? 0)%nat; [done|].
  destruct (strategyGrid _ _ _ _ _) as [best|]; [|done]. simpl.
  destruct (1 <? length (sheets best))%nat; [|done].
  destruct (consolidateSheets _ _ _ fuel best) as [r|] eqn:E; [|done].
  by rewrite (consolidateSheets_fuel_mono _ _ _ _ _ _ _ Hle E).
Qed.

Lemma keeps_refl st : keeps st st.
Proof. by intros arr l. Qed.

Lemma keeps_trans st1 st2 st3 : keeps st1 st2 -> keeps st2 st3 -> keeps st1 st3.
Proof. intros H1 H2 arr l H. by apply H2, H1. Qed.

Lemma arrayAt_keeps st st' arr l :
  keeps st st' -> st !! arr = Some l -> arrayAt st' arr = l.
Proof. intros Hk H. unfold arrayAt. by rewrite (Hk arr l H). Qed.

(** A copy is a new array: the store keeps every array it had, and the
    copy sorted in place holds the sorted elements. *)
Lemma slice_sort_keeps cmp arr st :
  let st' := sortAt cmp (slice arr st).1 (slice arr st).2 in
  keeps st st' /\
  arrayAt st' (slice arr st).1 = js_sort cmp (arrayAt st arr).
Proof.
  unfold slice, sortAt. cbv zeta. simpl.
  set (copy := fresh (dom st)).
  assert (Hfresh : st !! copy = None).
  { apply not_elem_of_dom. apply is_fresh. }
  split.
  - intros a l Ha. assert (Hne : copy <> a) by (intros <-; congruence).
    by rewrite !lookup_insert_ne.
  - unfold arrayAt at 1. rewrite lookup_insert_eq. simpl.
    unfold arrayAt at 1. by rewrite lookup_insert_eq.
Qed.

Section SharedProps.

Variables (sheetW sheetH kerf : Q) (maxSheets : Z).

(** The loop over the sort orders, on the store, does to [bestResult]
    what the loop of [strategyGrid] does on the elements of the array, and
    keeps the arrays of the store. *)
Lemma gridStep_fold pieces pcs sorts st bestResult :
  st !! pieces = Some pcs ->
  let out := foldl (gridStep sheetW sheetH kerf maxSheets pieces)
                   (st, bestResult) sorts in
  keeps st out.1 /\
  out.2 = foldl (fun bestResult sortFn =>
                   let sorted := js_sort sortFn pcs in
                   foldl (fun bestResult heuristic =>
                            keepBest sheetW sheetH bestResult
                              (runStrategy sheetW sheetH kerf maxSheets
                                           sorted heuristic))
                         bestResult heuristics)
                bestResult sorts.
Proof.
  revert st bestResult.
  induction sorts as [|sortFn sorts IH]; intros st bestResult Hp.
  { simpl. split; [apply keeps_refl|done]. }
  cbn [foldl].
  destruct (slice_sort_keeps sortFn pieces st) as [Hk Hs].
  assert (Hstep : gridStep sheetW sheetH kerf maxSheets pieces
                    (st, bestResult) sortFn =
            (sortAt sortFn (slice pieces st).1 (slice pieces st).2,
             foldl (fun bestResult heuristic =>
                      keepBest sheetW sheetH bestResult
                        (runStrategy sheetW sheetH kerf maxSheets
                                     (js_sort sortFn pcs) heuristic))
                   bestResult heuristics)).
  { unfold gridStep. destruct (slice pieces st) as [sorted st1]. simpl in *.
    rewrite Hs. unfold arrayAt. by rewrite Hp. }
  rewrite Hstep.
  destruct (IH (sortAt sortFn (slice pieces st).1 (slice pieces st).2)
               (foldl (fun bestResult heuristic =>
                         keepBest sheetW sheetH bestResult
                           (runStrategy sheetW sheetH kerf maxSheets
                                        (js_sort sortFn pcs) heuristic))
                      bestResult heuristics)) as [Hk' Ho].
  { by apply Hk. }
  split; [|exact Ho]. eapply keeps_trans; [exact Hk|exact Hk'].
Qed.

(** A call on the array at [pieces] returns what [packPieces] returns on
    the elements of the array, and keeps the arrays of the store, the
    array [pieces] among them. *)
Lemma packPiecesAt_spec fuel pieces pcs st :
  st !! pieces = Some pcs ->
  keeps st (packPiecesAt sheetW sheetH kerf maxSheets fuel pieces st).1 /\
  (packPiecesAt sheetW sheetH kerf maxSheets fuel pieces st).2 =
  packPieces sheetW sheetH kerf maxSheets fuel pcs.
Proof.
  intros Hp. unfold packPiecesAt, packPieces.
  assert (Ha : arrayAt st pieces = pcs) by (unfold arrayAt; by rewrite Hp).
  rewrite Ha.
  destruct (length pcs =? 0)%nat; [split; [apply keeps_refl|done]|].
  destruct (gridStep_fold pieces pcs sortStrategies st None Hp) as [Hk Ho].
  destruct (foldl (gridStep sheetW sheetH kerf maxSheets pieces) (st, None)
                  sortStrategies) as [st' best].
  cbn [fst snd] in *. split; [exact Hk|]. rewrite Ho. reflexivity.
Qed.

End SharedProps.

(** C10: two calls with the same pieces in the same order and the same
    sheet width, height, kerf and cap return the same result.  For pieces
    of non-negative area there is one result that every call returns once
    the fuel of the model suffices, and no call returns another, whichever
    array holds the pieces and whatever the store holds besides: the
    result depends on nothing but the arguments.  A call sorts copies of
    its array and leaves every array of the store, its own argument among
    them, as it found it, so a second call after the first, on the same
    array, returns the same result again. *)
Theorem packPieces_deterministic sheetW sheetH kerf maxSheets pcs :
  Forall (fun p => 0 <= width p * height p) pcs ->
  exists res fuel0,
    forall st pieces fuel, st !! pieces = Some pcs ->
      let call := packPiecesAt sheetW sheetH kerf maxSheets fuel pieces st in
      ((fuel0 <= fuel)%nat -> call.2 = Some res) /\
      (forall r, call.2 = Some r -> r = res) /\
      call.2 = packPieces sheetW sheetH kerf maxSheets fuel pcs /\
      (forall arr l, st !! arr = Some l -> call.1 !! arr = Some l) /\
      forall fuel', (fuel0 <= fuel')%nat ->
        (packPiecesAt sheetW sheetH kerf maxSheets fuel' pieces call.1).2
        = Some res.
Proof.
  intros Hall.
  destruct (packPieces_total sheetW sheetH kerf maxSheets pcs Hall)
    as (fuel0 & res & Hres).
  exists res, fuel0. intros st pieces fuel Hp. cbv zeta.
  destruct (packPiecesAt_spec sheetW sheetH kerf maxSheets fuel pieces pcs st Hp)
    as [Hk Ho].
  split; [|split; [|split; [exact Ho|split; [exact Hk|]]]].
  - intros Hfuel. by rewrite Ho, Hres.
  - intros r Hr. rewrite Ho in Hr.
    apply (packPieces_fuel_mono _ _ _ _ fuel (Nat.max fuel fuel0)) in Hr;
      [|lia].
    rewrite Hres in Hr by lia. congruence.
  - intros fuel' Hfuel'.
    destruct (packPiecesAt_spec sheetW sheetH kerf maxSheets fuel' pieces pcs _
                (Hk _ _ Hp)) as [_ Ho'].
    by rewrite Ho', Hres.
Qed.

(** ** Input validation (C8) *)

Section NoValidation.

Variables (sheetW sheetH kerf : Q) (maxSheets : Z).

#[local] Abbreviation step := (runStep sheetW sheetH kerf maxSheets).
#[local] Abbreviation run := (runStrategy sheetW sheetH kerf maxSheets).







End NoValidation.




(** ** Kerf between pieces (C1) *)

(** C1 fails on the code: on a 20 by 10 sheet with kerf 1 and a cap of 5,
    the pieces 1x3, 7x1 and 4x2 are all placed on one sheet, the second at
    (3, 0) as 1x7 and the first at (0, 5) as 3x1; the right edge of the
    latter is the left edge of the former, no kerf lies between them, and
    the point (3, 5) is in the kerf-inflated footprints of both. *)
Theorem kerf_footprints_overlap fuel :
  exists res sheet p q,
    packPieces 20 10 1 5 fuel kerfExample = Some res /\
    res_sheets res = [sheet] /\ res_unplaced res = [] /\
    o_pieces sheet !! 1%nat = Some p /\ o_pieces sheet !! 2%nat = Some q /\
    (pl_id p, pl_x p, pl_y p, pl_w p, pl_h p) = ("b", 3, 0, 1, 7) /\
    (pl_id q, pl_x q, pl_y q, pl_w q, pl_h q) = ("a", 0, 5, 3, 1) /\
    inFootprint 20 10 1 p 3 5 /\ inFootprint 20 10 1 q 3 5.
Proof.
  eexists _, _, _, _. split; [vm_compute; reflexivity|].
  repeat split; simpl; try reflexivity; try (vm_compute; discriminate);
    vm_compute; reflexivity.
Qed.

(** ** Pieces through the consolidation (C2) *)

(** C2 fails on the code: with 15 by 10 sheets, kerf 0 and a cap of 5, the
    selected packing of the pieces a 6x9, b 2x5, c 11x10, d 3x11 has c on
    one sheet and a, d, b on the other; the consolidation moves b, rebuilds
    the last sheet from a and d, and d no longer fits: the result has c
    and b on the first sheet, a on the second, and d neither on a sheet nor
    in the unplaced list. *)
Theorem rebuild_drops_piece fuel :
  exists best res,
    strategyGrid 15 10 0 5 rebuildExample = Some best /\
    map (fun s => map pl_id (pieces s)) (sheets best) =
      [["c"]; ["a"; "d"; "b"]] /\
    unplaced best = [] /\
    packPieces 15 10 0 5 (2 + fuel) rebuildExample = Some res /\
    map (fun s => map pl_id (o_pieces s)) (res_sheets res) =
      [["c"; "b"]; ["a"]] /\
    res_unplaced res = [].
Proof.
  eexists _, _. split; [vm_compute; reflexivity|].
  split; [reflexivity|]. split; [reflexivity|].
  split; [vm_compute; reflexivity|]. split; reflexivity.
Qed.

(** ** Instances *)

Lemma sheets_within_cap_witness :
  (1 <= 5)%Z /\
  exists res,
    packPieces 15 10 0 5 2 rebuildExample = Some res /\
    (Z.of_nat (length (res_sheets res)) <= 5)%Z.
Proof.
  assert (Hcap : (1 <= 5)%Z) by lia.
  split; [exact Hcap|]. eexists. split; [vm_compute; reflexivity|].
  apply (proj2 (proj2 (proj2 (proj2 (sheets_within_cap 15 10 0 5 Hcap))))
           2%nat rebuildExample).
  vm_compute; reflexivity.
Defined.

Lemma consolidation_terminates_witness :
  exists best,
    strategyGrid 15 10 0 5 rebuildExample = Some best /\
    exists fuel0 result', forall fuel, (fuel0 <= fuel)%nat ->
      consolidateSheets 15 10 0 fuel best = Some result'.
Proof.
  apply (consolidation_terminates 15 10 0 5 rebuildExample).
  repeat constructor; vm_compute; discriminate.
Defined.

Lemma packPieces_deterministic_witness :
  exists res fuel0,
    forall st pieces fuel, st !! pieces = Some rebuildExample ->
      let call := packPiecesAt 15 10 0 5 fuel pieces st in
      ((fuel0 <= fuel)%nat -> call.2 = Some res) /\
      (forall r, call.2 = Some r -> r = res) /\
      call.2 = packPieces 15 10 0 5 fuel rebuildExample /\
      (forall arr l, st !! arr = Some l -> call.1 !! arr = Some l) /\
      forall fuel', (fuel0 <= fuel')%nat ->
        (packPiecesAt 15 10 0 5 fuel' pieces call.1).2 = Some res.
Proof.
  apply (packPieces_deterministic 15 10 0 5 rebuildExample).
  repeat constructor; vm_compute; discriminate.
Defined.

(** ** Invariants of the sheets *)

(** A property of sheets that the fresh sheet has and that every
    successful placement keeps holds of every sheet the engine builds. *)
Section SheetInvariant.

Variables (sheetW sheetH kerf : Q) (maxSheets : Z).
Variable Inv : Sheet -> Prop.
Hypothesis Inv_new : Inv (newSheet sheetW sheetH).
Hypothesis Inv_place : forall piece sheet heuristic s',
  Inv sheet -> tryPlace sheetW sheetH kerf piece sheet heuristic = Some s' ->
  Inv s'.

Lemma inv_tryPlace_ piece sheet heuristic :
  Inv sheet -> Inv (tryPlace_ sheetW sheetH kerf piece sheet heuristic).
Proof.
  intros Hs. unfold tryPlace_.
  destruct (tryPlace _ _ _ _ _ _) as [s'|] eqn:E; simpl; eauto.
Qed.

Lemma inv_insert_tryPlace_ piece (shs : list Sheet) i heuristic :
  Forall Inv shs ->
  Forall Inv (<[i := tryPlace_ sheetW sheetH kerf piece (shs !!! i) heuristic]> shs).
Proof.
  intros Hall. destruct (shs !! i) as [s|] eqn:E.
  - rewrite (list_lookup_total_correct _ _ _ E).
    apply Forall_insert; [done|]. apply inv_tryPlace_.
    by apply (Forall_lookup_1 _ _ _ _ Hall E).
  - apply lookup_ge_None_1 in E. by rewrite list_insert_ge.
Qed.

Lemma inv_runStep heuristic st piece :
  Forall Inv (sheets st) ->
  Forall Inv (sheets (runStep sheetW sheetH kerf maxSheets heuristic st piece)).
Proof.
  intros Hall. unfold runStep.
  destruct (negb (fitsAtAll sheetW sheetH piece)); [done|].
  destruct (bestSheetLoop _ _ _ _ _ _ _ _) as [idx|]; simpl.
  { by apply inv_insert_tryPlace_. }
  destruct (maxSheets <=? _)%Z; [done|].
  destruct (tryPlace _ _ _ _ _ _) as [s|] eqn:E; [|done]. simpl.
  apply Forall_app. split; [done|]. apply Forall_singleton. eauto.
Qed.

Lemma inv_runStrategy sorted heuristic :
  Forall Inv (sheets (runStrategy sheetW sheetH kerf maxSheets sorted heuristic)).
Proof.
  induction sorted as [|piece sorted IH] using rev_ind; [constructor|].
  rewrite runStrategy_snoc. by apply inv_runStep.
Qed.

Lemma inv_strategyGrid pcs best :
  strategyGrid sheetW sheetH kerf maxSheets pcs = Some best ->
  Forall Inv (sheets best).
Proof.
  intros E.
  destruct (strategyGrid_is_best sheetW sheetH kerf maxSheets pcs)
    as (best' & E' & Hin & _).
  rewrite E in E'. injection E' as <-. unfold attempts in Hin.
  apply list_elem_of_bind in Hin as (sortFn & Hin & _).
  apply list_elem_of_bind in Hin as (heuristic & Hin & _).
  apply list_elem_of_singleton in Hin as ->. apply inv_runStrategy.
Qed.

Lemma inv_moveInto piece sis shs shs' :
  Forall Inv shs ->
  moveInto sheetW sheetH kerf piece sis shs = Some shs' -> Forall Inv shs'.
Proof.
  intros Hall H. apply moveInto_Some in H as (si & _ & _ & ->).
  by apply inv_insert_tryPlace_.
Qed.

Lemma inv_moveLoop pi ps shs moved improved :
  Forall Inv shs ->
  Forall Inv (moveLoop sheetW sheetH kerf pi ps shs moved improved).1.1.
Proof.
  revert pi shs moved improved.
  induction ps as [|p ps IH]; intros pi shs moved improved Hall; simpl.
  { done. }
  destruct (moveInto _ _ _ _ _ _) as [shs'|] eqn:E; apply IH; [|done].
  by apply inv_moveInto in E.
Qed.

Lemma inv_rebuild remaining : Inv (rebuild sheetW sheetH kerf remaining).
Proof.
  unfold rebuild. generalize Inv_new. generalize (newSheet sheetW sheetH).
  induction remaining as [|p ps IH]; intros s Hs; simpl; [done|].
  apply IH. by apply inv_tryPlace_.
Qed.

Lemma Forall_removelast {A} (P : A -> Prop) (l : list A) :
  Forall P l -> Forall P (removelast l).
Proof.
  induction 1 as [|a [|b l] Ha Hl IH]; simpl; [done|done|].
  constructor; auto.
Qed.

Lemma inv_consolidatePass shs :
  Forall Inv shs -> Forall Inv (consolidatePass sheetW sheetH kerf shs).1.
Proof.
  intros Hall. unfold consolidatePass.
  assert (Hsorted : Forall Inv (js_sort (fun a b => usedArea b - usedArea a) shs))
    by (by rewrite js_sort_perm).
  match goal with
  | |- context [moveLoop ?a ?b ?c ?d ?e ?f ?g ?h] =>
      pose proof (inv_moveLoop d e f g h Hsorted) as Hloop;
      destruct (moveLoop a b c d e f g h) as [[shs' moved] improved]
  end.
  simpl in Hloop. destruct (0 <? size moved)%nat; [|done].
  destruct (size moved =? _)%nat; simpl.
  - by apply Forall_removelast.
  - destruct (decide (length shs' - 1 < length shs')%nat).
    + apply Forall_insert; [done|]. apply inv_rebuild.
    + by rewrite list_insert_ge by lia.
Qed.

Lemma inv_consolidateSheets fuel result result' :
  Forall Inv (sheets result) ->
  consolidateSheets sheetW sheetH kerf fuel result = Some result' ->
  Forall Inv (sheets result').
Proof.
  revert result. induction fuel as [|fuel IH]; intros result Hall; simpl.
  { done. }
  destruct (length (sheets result) <=? 1)%nat; [by intros [= <-]|].
  pose proof (inv_consolidatePass (sheets result) Hall) as Hpass.
  destruct (consolidatePass _ _ _ _) as [shs improved]. simpl in Hpass.
  destruct improved; [by apply IH|]. by intros [= <-].
Qed.

(** Every sheet of the result of [packPieces] is the report of a sheet
    with the invariant. *)
Lemma inv_packPieces fuel pcs res sheet :
  packPieces sheetW sheetH kerf maxSheets fuel pcs = Some res ->
  sheet ∈ res_sheets res ->
  exists s, Inv s /\ sheet = buildSheet sheetW sheetH s.
Proof.
  unfold packPieces. destruct (length pcs =? 0)%nat.
  { intros [= <-] H. by apply elem_of_nil in H. }
  destruct (strategyGrid _ _ _ _ _) as [best|] eqn:E; [|done]. simpl.
  apply inv_strategyGrid in E.
  assert (Hfinal : forall best', Forall Inv (sheets best') ->
            sheet ∈ map (buildSheet sheetW sheetH) (sheets best') ->
            exists s, Inv s /\ sheet = buildSheet sheetW sheetH s).
  { intros best' Hall Hin. apply list_elem_of_In, in_map_iff in Hin
      as (s & <- & Hs). exists s. split; [|done].
    apply list_elem_of_In in Hs. by apply (proj1 (Forall_forall _ _) Hall). }
  destruct (1 <? length (sheets best))%nat.
  - destruct (consolidateSheets _ _ _ _ _) as [best'|] eqn:Ec; [|done]. simpl.
    intros [= <-]. simpl. apply Hfinal.
    by apply (inv_consolidateSheets _ _ _ E Ec).
  - simpl. intros [= <-]. simpl. by apply Hfinal.
Qed.

End SheetInvariant.

(** ** Placed pieces stay inside the sheet and apart *)

Lemma tryPlace_unfold sheetW sheetH kerf piece sheet heuristic s' :
  tryPlace sheetW sheetH kerf piece sheet heuristic = Some s' ->
  exists fit,
    findBestFit sheetW sheet (width piece) (height piece) heuristic = Some fit /\
    s' = placeRect sheetW sheetH kerf
           (mkSheet (freeRects sheet)
              (pieces sheet ++
               [mkPlaced (r_x (fit_rect fit)) (r_y (fit_rect fit))
                         (fit_w fit) (fit_h fit) (fit_rotated fit)
                         (pc_id piece) (pc_label piece) (pc_furniture piece)
                         (pc_color piece) (width piece) (height piece)])
              (usedArea sheet + fit_w fit * fit_h fit))
           (r_x (fit_rect fit)) (r_y (fit_rect fit)) (fit_w fit) (fit_h fit).
Proof.
  unfold tryPlace.
  destruct (findBestFit _ _ _ _ _) as [fit|]; [|done].
  intros [= <-]. by exists fit.
Qed.


Section Geometry.

Variables (sheetW sheetH kerf : Q).





End Geometry.



(** ** Accounting for the pieces *)

Lemma placedOf_app shs shs' :
  placedOf (shs ++ shs') = placedOf shs ++ placedOf shs'.
Proof. unfold placedOf. apply bind_app. Qed.

Lemma placedOf_insert shs i s s' p :
  shs !! i = Some s -> pieces s' = pieces s ++ [p] ->
  placedOf (<[i := s']> shs) ≡ₚ placedOf shs ++ [fakePiece p].
Proof.
  revert i. induction shs as [|a shs IH]; intros i Hi Hp; [done|].
  destruct i as [|i]; simpl in Hi.
  - injection Hi as ->. change (<[0%nat:=s']> (s :: shs)) with (s' :: shs).
    unfold placedOf. rewrite !bind_cons, Hp, fmap_app. simpl.
    rewrite <- !(assoc_L (++)). f_equiv. apply Permutation_app_comm.
  - change (<[S i:=s']> (a :: shs)) with (a :: <[i:=s']> shs).
    unfold placedOf in *. rewrite !bind_cons.
    rewrite (IH i Hi Hp). by rewrite (assoc_L (++)).
Qed.

Section Accounting.

Variables (sheetW sheetH kerf : Q) (maxSheets : Z).

#[local] Abbreviation place := (tryPlace sheetW sheetH kerf).
#[local] Abbreviation place_ := (tryPlace_ sheetW sheetH kerf).
#[local] Abbreviation find := (findBestFit sheetW).

Lemma fakePiece_placed piece x y w h rot :
  fakePiece (mkPlaced x y w h rot (pc_id piece) (pc_label piece)
               (pc_furniture piece) (pc_color piece)
               (width piece) (height piece)) = piece.
Proof. by destruct piece. Qed.

(** [tryPlace] succeeds exactly when [findBestFit] finds a fit, and then
    adds the piece at the end of the piece list. *)
Lemma tryPlace_fits piece sheet heuristic :
  is_Some (find sheet (width piece) (height piece) heuristic) ->
  exists s' p, place piece sheet heuristic = Some s' /\
    pieces s' = pieces sheet ++ [p] /\ fakePiece p = piece.
Proof.
  intros [fit Hfit]. unfold tryPlace. rewrite Hfit.
  eexists _, _. split; [done|]. split; [done|]. apply fakePiece_placed.
Qed.

Lemma tryPlace_adds piece sheet heuristic s' :
  place piece sheet heuristic = Some s' ->
  exists p, pieces s' = pieces sheet ++ [p] /\ fakePiece p = piece.
Proof.
  intros H. apply tryPlace_unfold in H as (fit & _ & ->). simpl.
  eexists. split; [done|]. apply fakePiece_placed.
Qed.

Lemma bestSheetLoop_Some pw ph heuristic i rest idx0 best idx :
  bestSheetLoop sheetW pw ph heuristic i rest idx0 best = Some idx ->
  idx0 = Some idx \/
  exists s, rest !! (idx - i)%nat = Some s /\ (i <= idx)%nat /\
            is_Some (find s pw ph heuristic).
Proof.
  revert i idx0 best. induction rest as [|s rest IH]; intros i idx0 best; simpl.
  { by left. }
  destruct (find s pw ph heuristic) as [fit|] eqn:E.
  - destruct (match best with None => true | Some b => _ end).
    + intros H. apply IH in H as [[= <-]|(s' & Hs' & Hle & Hfit)].
      * right. exists s. rewrite Nat.sub_diag. simpl. rewrite E. eauto.
      * right. exists s'. replace (idx - i)%nat with (S (idx - S i)) by lia.
        simpl. split; [done|]. split; [lia|done].
    + intros H. apply IH in H as [->|(s' & Hs' & Hle & Hfit)]; [by left|].
      right. exists s'. replace (idx - i)%nat with (S (idx - S i)) by lia.
      simpl. split; [done|]. split; [lia|done].
  - intros H. apply IH in H as [->|(s' & Hs' & Hle & Hfit)]; [by left|].
    right. exists s'. replace (idx - i)%nat with (S (idx - S i)) by lia.
    simpl. split; [done|]. split; [lia|done].
Qed.

(** A step of the runner accounts for the piece it is given. *)
Lemma runStep_accounted heuristic st piece :
  accounted (runStep sheetW sheetH kerf maxSheets heuristic st piece)
  ≡ₚ accounted st ++ [piece].
Proof.
  unfold runStep, accounted.
  destruct (negb (fitsAtAll sheetW sheetH piece)); simpl.
  { by rewrite fmap_app, (assoc_L (++)). }
  destruct (bestSheetLoop _ _ _ _ _ _ _ _) as [idx|] eqn:Eb; simpl.
  { apply bestSheetLoop_Some in Eb as [?|(s & Hs & _ & Hfit)]; [done|].
    rewrite Nat.sub_0_r in Hs.
    rewrite (list_lookup_total_correct _ _ _ Hs).
    destruct (tryPlace_fits piece s heuristic Hfit) as (s' & p & E & Hp & <-).
    unfold tryPlace_. rewrite E. simpl.
    rewrite (placedOf_insert _ _ _ _ _ Hs Hp).
    rewrite <- !(assoc_L (++)). f_equiv. apply Permutation_app_comm. }
  destruct (maxSheets <=? _)%Z; simpl.
  { by rewrite fmap_app, (assoc_L (++)). }
  destruct (place piece (newSheet sheetW sheetH) heuristic) as [s|] eqn:E; simpl.
  - apply tryPlace_adds in E as (p & Hp & <-).
    rewrite placedOf_app.
    change (placedOf [s]) with ((fakePiece <$> pieces s) ++ []).
    rewrite Hp, app_nil_r. simpl. rewrite <- !(assoc_L (++)). f_equiv.
    apply Permutation_app_comm.
  - by rewrite fmap_app, (assoc_L (++)).
Qed.

Lemma runStrategy_accounted sorted heuristic :
  accounted (runStrategy sheetW sheetH kerf maxSheets sorted heuristic)
  ≡ₚ sorted.
Proof.
  induction sorted as [|piece sorted IH] using rev_ind; [done|].
  by rewrite runStrategy_snoc, runStep_accounted, IH.
Qed.

Lemma attempts_accounted pcs r :
  r ∈ attempts sheetW sheetH kerf maxSheets pcs -> accounted r ≡ₚ pcs.
Proof.
  intros Hin. unfold attempts in Hin.
  apply list_elem_of_bind in Hin as (sortFn & Hin & _).
  apply list_elem_of_bind in Hin as (heuristic & Hin & _).
  apply list_elem_of_singleton in Hin as ->.
  by rewrite runStrategy_accounted, js_sort_perm.
Qed.

(** The pieces at the indices in [moved], and the others, make up the
    list. *)
Lemma filter_idx_partition {A} (f : A -> nat -> bool) s (l : list A) :
  filter_idx f s l ++ filter_idx (fun a i => negb (f a i)) s l ≡ₚ l.
Proof.
  revert s. induction l as [|a l IH]; intros s; simpl; [done|].
  destruct (f a s); simpl.
  - by rewrite IH.
  - rewrite <- Permutation_middle. by rewrite IH.
Qed.

Lemma filter_idx_ext {A} (f g : A -> nat -> bool) s (l : list A) :
  (forall a i, (s <= i)%nat -> f a i = g a i) ->
  filter_idx f s l = filter_idx g s l.
Proof.
  revert s. induction l as [|a l IH]; intros s Hfg; simpl; [done|].
  rewrite (Hfg a s) by lia. rewrite (IH (S s)); [done|].
  intros b i Hi. apply Hfg. lia.
Qed.

Lemma moveInto_accounted piece front last shs' :
  moveInto sheetW sheetH kerf piece (seq 0 (length front)) (front ++ [last])
    = Some shs' ->
  exists front', shs' = front' ++ [last] /\ length front' = length front /\
    placedOf front' ≡ₚ placedOf front ++ [piece].
Proof.
  intros H. apply moveInto_Some in H as (si & Hsi & Hfit & ->).
  apply elem_of_seq in Hsi as [_ Hsi]. simpl in Hsi.
  destruct (lookup_lt_is_Some_2 front si Hsi) as [s Hs].
  rewrite lookup_total_app_l in * by done.
  rewrite (list_lookup_total_correct _ _ _ Hs) in *.
  rewrite insert_app_l by done.
  destruct (tryPlace_fits piece s HEURISTIC_BSSF Hfit) as (s' & p & E & Hp & <-).
  unfold tryPlace_. rewrite E. simpl.
  exists (<[si := s']> front). split; [done|]. split; [apply length_insert|].
  by apply placedOf_insert with s.
Qed.

Lemma moveLoop_accounted ps pi front last moved improved shs1 moved1 improved1 :
  (forall i, i ∈ moved -> (i < pi)%nat) ->
  moveLoop sheetW sheetH kerf pi ps (front ++ [last]) moved improved
    = (shs1, moved1, improved1) ->
  exists front1, shs1 = front1 ++ [last] /\
    (forall i, i ∈ moved1 -> i ∈ moved \/ (pi <= i)%nat) /\
    (forall i, i ∈ moved -> i ∈ moved1) /\
    placedOf front1 ≡ₚ
      placedOf front ++
      (fakePiece <$> filter_idx (fun _ i => bool_decide (i ∈ moved1)) pi ps).
Proof.
  revert pi front moved improved.
  induction ps as [|p ps IH]; intros pi front moved improved Hlt; simpl.
  { intros [= ? ? ?]; subst. exists front. rewrite app_nil_r. auto. }
  rewrite length_app. simpl length.
  replace (length front + 1 - 1)%nat with (length front) by lia.
  destruct (moveInto _ _ _ _ _ _) as [shs'|] eqn:E.
  - apply moveInto_accounted in E as (front' & -> & Hlen & Hperm).
    intros H.
    destruct (IH (S pi) front' ({[pi]} ∪ moved) true) with (2 := H)
      as (front1 & -> & Hsub & Hsup & Hp1).
    { intros i Hi. apply elem_of_union in Hi as [Hi|Hi].
      - apply elem_of_singleton in Hi as ->. lia.
      - specialize (Hlt i Hi). lia. }
    exists front1. split; [done|]. split; [|split].
    + intros i Hi. apply Hsub in Hi as [Hi|Hi]; [|right; lia].
      apply elem_of_union in Hi as [Hi|Hi]; [|by left].
      apply elem_of_singleton in Hi as ->. right. lia.
    + intros i Hi. apply Hsup. apply elem_of_union. by right.
    + assert (Hpi : bool_decide (pi ∈ moved1) = true).
      { apply bool_decide_eq_true, Hsup, elem_of_union. left.
        by apply elem_of_singleton. }
      rewrite Hpi, Hp1, Hperm. simpl. by rewrite <- (assoc_L (++)).
  - intros H.
    destruct (IH (S pi) front moved improved) with (2 := H)
      as (front1 & -> & Hsub & Hsup & Hp1).
    { intros i Hi. specialize (Hlt i Hi). lia. }
    exists front1. split; [done|]. split; [|split].
    + intros i Hi. apply Hsub in Hi as [Hi|Hi]; [by left|right; lia].
    + done.
    + assert (Hpi : bool_decide (pi ∈ moved1) = false).
      { apply bool_decide_eq_false. intros Hi.
        apply Hsub in Hi as [Hi|Hi]; [|lia]. specialize (Hlt pi Hi). lia. }
      by rewrite Hpi.
Qed.

Lemma tryPlace__accounted piece sheet heuristic :
  fakePiece <$> pieces (place_ piece sheet heuristic)
  ⊆+ (fakePiece <$> pieces sheet) ++ [piece].
Proof.
  unfold tryPlace_. destruct (place piece sheet heuristic) as [s'|] eqn:E; simpl.
  - apply tryPlace_adds in E as (p & -> & <-). by rewrite fmap_app.
  - by apply submseteq_inserts_r.
Qed.

Lemma rebuild_accounted remaining :
  fakePiece <$> pieces (rebuild sheetW sheetH kerf remaining)
  ⊆+ fakePiece <$> remaining.
Proof.
  unfold rebuild.
  assert (H : forall s0,
    fakePiece <$> pieces (foldl (fun rebuilt p =>
        place_ (fakePiece p) rebuilt HEURISTIC_BSSF) s0 remaining)
    ⊆+ (fakePiece <$> pieces s0) ++ (fakePiece <$> remaining)).
  { induction remaining as [|p ps IH]; intros s0; simpl.
    { by rewrite app_nil_r. }
    etrans; [apply IH|].
    rewrite cons_middle, (assoc_L (++)). apply submseteq_app; [|done].
    apply tryPlace__accounted. }
  apply (H (newSheet sheetW sheetH)).
Qed.

Lemma filter_idx_submseteq {A} (f : A -> nat -> bool) s (l : list A) :
  filter_idx f s l ⊆+ l.
Proof.
  revert s. induction l as [|a l IH]; intros s; simpl; [done|].
  destruct (f a s); [by apply submseteq_skip|by apply submseteq_cons].
Qed.

(** A consolidation pass invents and duplicates no piece. *)
Lemma consolidatePass_accounted shs :
  placedOf (consolidatePass sheetW sheetH kerf shs).1 ⊆+ placedOf shs.
Proof.
  unfold consolidatePass.
  pose proof (js_sort_perm (fun a b => usedArea b - usedArea a) shs) as Hperm.
  assert (Hsort : placedOf (js_sort (fun a b => usedArea b - usedArea a) shs)
                  ≡ₚ placedOf shs).
  { unfold placedOf. by rewrite Hperm. }
  rewrite <- Hsort. clear Hsort Hperm.
  destruct (js_sort _ shs) as [|last front _] using rev_ind.
  { simpl. done. }
  rewrite snoc_lookup_last.
  destruct (moveLoop _ _ _ _ _ _ _ _) as [[shs1 moved] improved] eqn:Em.
  apply moveLoop_accounted in Em as (front1 & -> & Hsub & _ & Hp1);
    [|intros i Hi; set_solver].
  rewrite placedOf_app.
  change (placedOf [last]) with ((fakePiece <$> pieces last) ++ []).
  rewrite app_nil_r.
  pose proof (filter_idx_partition
    (fun (_ : Placed) i => bool_decide (i ∈ moved)) 0 (pieces last)) as Hpart.
  destruct (0 <? size moved)%nat eqn:E0.
  - destruct (size moved =? length (pieces last))%nat; simpl.
    + rewrite removelast_last, Hp1. apply submseteq_app; [done|].
      apply fmap_submseteq, filter_idx_submseteq.
    + rewrite length_app. simpl length.
      replace (length front1 + 1 - 1)%nat with (length front1 + 0)%nat by lia.
      rewrite insert_app_r. simpl. rewrite placedOf_app.
      change (placedOf [rebuild sheetW sheetH kerf ?r])
        with ((fakePiece <$> pieces (rebuild sheetW sheetH kerf r)) ++ []).
      rewrite app_nil_r, Hp1, <- (assoc_L (++)).
      apply submseteq_app; [done|]. rewrite <- Hpart at 3.
      rewrite fmap_app. apply submseteq_app; [done|].
      apply rebuild_accounted.
  - simpl. rewrite placedOf_app.
    change (placedOf [last]) with ((fakePiece <$> pieces last) ++ []).
    rewrite app_nil_r, Hp1.
    apply Nat.ltb_ge in E0. assert (E : size moved = 0%nat) by lia.
    apply size_empty_inv in E.
    rewrite (filter_idx_ext _ (fun _ _ => false)).
    + assert (Hnil : forall s (l : list Placed),
                filter_idx (fun _ _ => false) s l = []).
      { intros s l. revert s. induction l; intros s; simpl; auto. }
      rewrite Hnil. simpl. by rewrite app_nil_r.
    + intros a i _. apply bool_decide_eq_false. set_solver.
Qed.

Lemma consolidateSheets_accounted fuel result result' :
  consolidateSheets sheetW sheetH kerf fuel result = Some result' ->
  accounted result' ⊆+ accounted result.
Proof.
  revert result. induction fuel as [|fuel IH]; intros result; simpl; [done|].
  destruct (length (sheets result) <=? 1)%nat; [by intros [= <-]|].
  pose proof (consolidatePass_accounted (sheets result)) as Hpass.
  destruct (consolidatePass _ _ _ _) as [shs improved]. simpl in Hpass.
  assert (Hacc : accounted (mkResult shs (unplaced result)) ⊆+ accounted result).
  { unfold accounted. simpl. by apply submseteq_app. }
  destruct improved; [|by intros [= <-]].
  intros H. apply IH in H. by etrans.
Qed.

Lemma accountedOut_build shs unpl sugg :
  accountedOut (mkPacking (map (buildSheet sheetW sheetH) shs) unpl sugg) =
  accounted (mkResult shs unpl).
Proof.
  unfold accountedOut, accounted, placedOf. simpl. f_equal.
  induction shs as [|s shs IH]; [done|].
  rewrite map_cons, !bind_cons. by rewrite IH.
Qed.

Lemma packPieces_accounted fuel pcs res :
  packPieces sheetW sheetH kerf maxSheets fuel pcs = Some res ->
  accountedOut res ⊆+ pcs.
Proof.
  unfold packPieces. destruct (length pcs =? 0)%nat.
  { intros [= <-]. apply submseteq_nil_l. }
  destruct (strategyGrid_is_best sheetW sheetH kerf maxSheets pcs)
    as (best & -> & Hin & _).
  apply attempts_accounted in Hin. simpl.
  destruct (1 <? length (sheets best))%nat.
  - destruct (consolidateSheets _ _ _ _ _) as [best'|] eqn:Ec; [|done]. simpl.
    intros [= <-]. rewrite accountedOut_build.
    apply consolidateSheets_accounted in Ec. destruct best'. simpl in *.
    by rewrite <- Hin.
  - simpl. intros [= <-]. rewrite accountedOut_build. destruct best.
    by rewrite <- Hin.
Qed.

End Accounting.

(** X2: every packing attempt of the grid accounts for every input piece
    exactly once, on a sheet or in its unplaced list; and the pieces in the
    result of [packPieces], on the sheets and in the unplaced list, are
    input pieces, none more often than in the input. *)
Theorem pieces_accounted sheetW sheetH kerf maxSheets pcs :
  (forall r, r ∈ attempts sheetW sheetH kerf maxSheets pcs ->
     accounted r ≡ₚ pcs) /\
  (forall fuel res,
     packPieces sheetW sheetH kerf maxSheets fuel pcs = Some res ->
     accountedOut res ⊆+ pcs).
Proof.
  split.
  - apply attempts_accounted.
  - intros fuel res. apply packPieces_accounted.
Qed.

(** ** Orientation and used area of the placed pieces *)

Lemma placedArea_snoc ps p :
  placedArea (ps ++ [p]) == placedArea ps + pl_w p * pl_h p.
Proof. induction ps as [|q ps IH]; simpl; lra. Qed.

Lemma newSheet_book sheetW sheetH : bookOk (newSheet sheetW sheetH).
Proof. split; simpl; [constructor|reflexivity]. Qed.

Lemma tryPlace_book sheetW sheetH kerf piece sheet heuristic s' :
  bookOk sheet -> tryPlace sheetW sheetH kerf piece sheet heuristic = Some s' ->
  bookOk s'.
Proof.
  intros [Hor Hsum] H. apply tryPlace_unfold in H as (fit & Hfit & ->).
  apply findBestFit_spec in Hfit as [Hin _].
  split; simpl.
  - apply Forall_app. split; [done|]. apply Forall_singleton.
    apply spec_candidates_elem in Hin
      as (r & _ & [(-> & _)|(-> & _ & _ & Hne)]); [by left|by right].
  - match goal with
    | |- _ == placedArea (_ ++ [?p]) =>
        pose proof (placedArea_snoc (pieces sheet) p) as Hs
    end.
    simpl in Hs. lra.
Qed.

Lemma packPieces_book sheetW sheetH kerf maxSheets fuel pcs res sheet :
  packPieces sheetW sheetH kerf maxSheets fuel pcs = Some res ->
  sheet ∈ res_sheets res ->
  Forall orientOk (o_pieces sheet) /\
  o_usedArea sheet == placedArea (o_pieces sheet).
Proof.
  intros Hres Hin.
  destruct (inv_packPieces sheetW sheetH kerf maxSheets bookOk)
    with (1 := newSheet_book sheetW sheetH) (3 := Hres) (4 := Hin)
    as (s & Hs & ->); [|exact Hs].
  intros piece sh heuristic s'. apply tryPlace_book.
Qed.

(** X3: every placed piece of the result of [packPieces] has the
    dimensions of its piece, or these swapped, and [rotated] is true
    exactly when they are swapped. *)
Theorem placed_pieces_oriented sheetW sheetH kerf maxSheets fuel pcs res sheet :
  packPieces sheetW sheetH kerf maxSheets fuel pcs = Some res ->
  sheet ∈ res_sheets res ->
  Forall orientOk (o_pieces sheet).
Proof. intros Hres Hin. by apply (packPieces_book _ _ _ _ _ _ _ _ Hres Hin). Qed.

Lemma placed_pieces_oriented_witness :
  exists res sheet,
    packPieces 20 10 1 5 0 kerfExample = Some res /\
    sheet ∈ res_sheets res /\ Forall orientOk (o_pieces sheet).
Proof.
  eexists _, _. split; [vm_compute; reflexivity|]. split; [by left|].
  eapply (placed_pieces_oriented 20 10 1 5 0 kerfExample).
  - vm_compute. reflexivity.
  - by left.
Defined.

(** X4: the used area reported for a sheet of the result of [packPieces]
    is the sum of the areas of the pieces placed on it, the kerf not
    counted. *)
Theorem usedArea_is_placed_area sheetW sheetH kerf maxSheets fuel pcs res sheet :
  packPieces sheetW sheetH kerf maxSheets fuel pcs = Some res ->
  sheet ∈ res_sheets res ->
  o_usedArea sheet == placedArea (o_pieces sheet).
Proof. intros Hres Hin. by apply (packPieces_book _ _ _ _ _ _ _ _ Hres Hin). Qed.

Lemma usedArea_is_placed_area_witness :
  exists res sheet,
    packPieces 20 10 1 5 0 kerfExample = Some res /\
    sheet ∈ res_sheets res /\
    o_usedArea sheet == placedArea (o_pieces sheet).
Proof.
  eexists _, _. split; [vm_compute; reflexivity|]. split; [by left|].
  eapply (usedArea_is_placed_area 20 10 1 5 0 kerfExample).
  - vm_compute. reflexivity.
  - by left.
Defined.

(** ** Scenarios of the specification *)

(** The three packing scenarios of the specification.  One 400x400
    and four 300x300 pieces fit one 1000x1000 sheet; a 1200x400 piece is
    too large for a 1000x500 sheet; of two 400x400 pieces on 500x500
    sheets with a cap of one, the first is placed and the second finds no
    sheet remaining. *)
Theorem spec_scenarios fuel :
  (exists res,
     packPieces 1000 1000 0 5 fuel
       [pieceOf "a" 400 400; pieceOf "b" 300 300; pieceOf "c" 300 300;
        pieceOf "d" 300 300; pieceOf "e" 300 300] = Some res /\
     placements res =
       [[("a", 0, 0, 400, 400); ("b", 400, 0, 300, 300);
         ("c", 700, 0, 300, 300); ("d", 400, 300, 300, 300);
         ("e", 700, 300, 300, 300)]] /\
     rejections res = []) /\
  (exists res,
     packPieces 1000 500 0 1 fuel [pieceOf "a" 1200 400] = Some res /\
     placements res = [] /\
     rejections res = [("a", "Too large for sheet")]) /\
  (exists res,
     packPieces 500 500 0 1 fuel [pieceOf "a" 400 400; pieceOf "b" 400 400]
       = Some res /\
     placements res = [[("a", 0, 0, 400, 400)]] /\
     rejections res = [("b", "No sheets remaining")]).
Proof.
  repeat split; eexists; (split; [vm_compute; reflexivity|]);
    split; reflexivity.
Qed.

(** * Further properties of the maximal-rectangles engine *)

(** ** Reasons for unplaced pieces *)

Lemma packPieces_Some sheetW sheetH kerf maxSheets fuel pcs res :
  packPieces sheetW sheetH kerf maxSheets fuel pcs = Some res ->
  (pcs = [] /\ res = mkPacking [] [] []) \/
  exists best final,
    pcs <> [] /\
    strategyGrid sheetW sheetH kerf maxSheets pcs = Some best /\
    best ∈ attempts sheetW sheetH kerf maxSheets pcs /\
    (((length (sheets best) <= 1)%nat /\ final = best) \/
     ((1 < length (sheets best))%nat /\
      consolidateSheets sheetW sheetH kerf fuel best = Some final)) /\
    res = mkPacking (map (buildSheet sheetW sheetH) (sheets final))
            (unplaced final)
            (generateSuggestions sheetW sheetH
               (map (buildSheet sheetW sheetH) (sheets final))
               (unplaced final)).
Proof.
  unfold packPieces. destruct pcs as [|p pcs].
  { simpl. intros [= <-]. by left. }
  change (length (p :: pcs) =? 0)%nat with false. cbv iota.
  destruct (strategyGrid_is_best sheetW sheetH kerf maxSheets (p :: pcs))
    as (best & E & Hin & _).
  rewrite E. simpl. intros H. right.
  destruct (1 <? length (sheets best))%nat eqn:E1.
  - destruct (consolidateSheets _ _ _ _ _) as [final|] eqn:Ec; [|done].
    simpl in H. injection H as <-. exists best, final.
    split; [done|]. split; [done|]. split; [done|]. split; [|done].
    right. split; [|done]. by apply Nat.ltb_lt in E1.
  - simpl in H. injection H as <-. exists best, best.
    split; [done|]. split; [done|]. split; [done|]. split; [|done].
    left. split; [|done]. apply Nat.ltb_ge in E1. lia.
Qed.

Lemma consolidateSheets_unplaced sheetW sheetH kerf fuel result result' :
  consolidateSheets sheetW sheetH kerf fuel result = Some result' ->
  unplaced result' = unplaced result.
Proof.
  revert result. induction fuel as [|fuel IH]; intros result; simpl; [done|].
  destruct (length (sheets result) <=? 1)%nat; [by intros [= <-]|].
  destruct (consolidatePass _ _ _ _) as [shs improved].
  destruct improved; [|by intros [= <-]].
  intros H. by apply IH in H.
Qed.

Section Reasons.

Variables (sheetW sheetH kerf : Q) (maxSheets : Z).

#[local] Abbreviation step := (runStep sheetW sheetH kerf maxSheets).
#[local] Abbreviation run := (runStrategy sheetW sheetH kerf maxSheets).

(** A piece that fits the empty sheet in some orientation finds a fit on
    a fresh sheet. *)
Lemma findBestFit_newSheet piece heuristic :
  fitsAtAll sheetW sheetH piece = true ->
  is_Some (findBestFit sheetW (newSheet sheetW sheetH)
             (width piece) (height piece) heuristic).
Proof.
  intros Hfit.
  destruct (findBestFit _ _ _ _ _) as [fit|] eqn:E; [by eexists|].
  exfalso. apply findBestFit_spec in E.
  assert (Hnone : forall c,
    c ∉ spec_candidates sheetW (freeRects (newSheet sheetW sheetH))
          (width piece) (height piece) heuristic).
  { intros c. rewrite E. apply not_elem_of_nil. }
  unfold fitsAtAll in Hfit. apply orb_true_iff in Hfit.
  set (R := mkRect 0 0 sheetW sheetH).
  destruct (Qeq_dec (width piece) (height piece)) as [Heq|Hne].
  - eapply Hnone, spec_candidates_elem. exists R. split; [by left|].
    left. split; [done|]. simpl.
    destruct Hfit as [Hfit|Hfit]; qprop; split; lra.
  - destruct Hfit as [Hfit|Hfit]; qprop.
    + eapply Hnone, spec_candidates_elem. exists R. split; [by left|].
      left. split; [done|]. simpl. split; lra.
    + eapply Hnone, spec_candidates_elem. exists R. split; [by left|].
      right. split; [done|]. simpl. split; [lra|]. split; [lra|done].
Qed.

Lemma tryPlace_newSheet piece heuristic :
  fitsAtAll sheetW sheetH piece = true ->
  is_Some (tryPlace sheetW sheetH kerf piece (newSheet sheetW sheetH) heuristic).
Proof.
  intros Hfit. destruct (findBestFit_newSheet piece heuristic Hfit) as [fit E].
  unfold tryPlace. rewrite E. by eexists.
Qed.

(** What a step of the runner adds to the unplaced list. *)
Lemma runStep_unplaced heuristic st piece :
  unplaced (step heuristic st piece) = unplaced st \/
  exists u, unplaced (step heuristic st piece) = unplaced st ++ [u] /\
    u_piece u = piece /\ reasonOk sheetW sheetH u /\
    (reason u = "No sheets remaining"%string ->
     (maxSheets <= Z.of_nat (length (sheets st)))%Z).
Proof.
  unfold runStep.
  destruct (fitsAtAll sheetW sheetH piece) eqn:Ef; simpl.
  - destruct (bestSheetLoop _ _ _ _ _ _ _ _) as [idx|]; simpl; [by left|].
    destruct (maxSheets <=? _)%Z eqn:Ec; simpl.
    + right. eexists. split; [done|]. split; [done|]. split.
      * right. by split.
      * intros _. by apply Z.leb_le in Ec.
    + destruct (tryPlace_newSheet piece heuristic Ef) as [s ->]. by left.
  - right. eexists. split; [done|]. split; [done|]. split.
    + left. by split.
    + simpl. intros [=].
Qed.

Lemma runStrategy_unplaced sorted heuristic :
  Forall (fun u => reasonOk sheetW sheetH u /\
            (reason u = "No sheets remaining"%string ->
             (maxSheets <= Z.of_nat (length (sheets (run sorted heuristic))))%Z))
         (unplaced (run sorted heuristic)).
Proof.
  induction sorted as [|piece sorted IH] using rev_ind; [constructor|].
  rewrite runStrategy_snoc.
  pose proof (runStep_sheets sheetW sheetH kerf maxSheets heuristic
                (run sorted heuristic) piece) as Hlen.
  assert (Hold : Forall (fun u => reasonOk sheetW sheetH u /\
            (reason u = "No sheets remaining"%string ->
             (maxSheets <= Z.of_nat (length (sheets
                (step heuristic (run sorted heuristic) piece))))%Z))
         (unplaced (run sorted heuristic))).
  { eapply Forall_impl; [exact IH|]. intros u [Hu Hcap]. split; [done|].
    intros Hr. specialize (Hcap Hr). lia. }
  destruct (runStep_unplaced heuristic (run sorted heuristic) piece)
    as [->|(u & -> & _ & Hu & Hcap)]; [done|].
  apply Forall_app. split; [done|]. apply Forall_singleton. split; [done|].
  intros Hr. specialize (Hcap Hr). lia.
Qed.

Lemma attempts_elem pcs r :
  r ∈ attempts sheetW sheetH kerf maxSheets pcs ->
  exists sortFn heuristic, sortFn ∈ sortStrategies /\ heuristic ∈ heuristics /\
    r = run (js_sort sortFn pcs) heuristic.
Proof.
  intros Hin. unfold attempts in Hin.
  apply list_elem_of_bind in Hin as (sortFn & Hin & Hs).
  apply list_elem_of_bind in Hin as (heuristic & Hin & Hh).
  apply list_elem_of_singleton in Hin as ->. by exists sortFn, heuristic.
Qed.

Lemma newSheet_fitsOk : fitsOk sheetW sheetH (newSheet sheetW sheetH).
Proof.
  split; simpl; [|constructor]. apply Forall_singleton.
  unfold rectInside, insideSheet. simpl. lra.
Qed.

Lemma tryPlace_fitsOk piece sheet heuristic s' :
  fitsOk sheetW sheetH sheet ->
  tryPlace sheetW sheetH kerf piece sheet heuristic = Some s' ->
  fitsOk sheetW sheetH s'.
Proof.
  intros [Hfree Hpl] H. apply tryPlace_unfold in H as (fit & Hfit & ->).
  split.
  - apply Forall_forall. intros r' Hr'.
    apply placeRect_elem in Hr' as (_ & _ & r0 & Hr0 & Hr'). simpl in Hr0.
    apply splitFree_inside in Hr' as [Hc _]. apply isContained_true in Hc.
    pose proof (proj1 (Forall_forall _ _) Hfree r0 Hr0) as (? & ? & ? & ?).
    unfold rectInside, insideSheet. lra.
  - simpl. apply Forall_app. split; [done|]. apply Forall_singleton.
    rewrite fakePiece_placed.
    apply findBestFit_spec in Hfit as [Hin _].
    apply spec_candidates_elem in Hin as (r & Hr & Hc).
    pose proof (proj1 (Forall_forall _ _) Hfree r Hr) as (? & ? & ? & ?).
    unfold fitsAtAll. apply orb_true_iff.
    destruct Hc as [(_ & ? & ?)|(_ & ? & ? & _)]; [left|right];
      apply andb_true_iff; split; apply Qle_bool_iff; lra.
Qed.

Lemma packPieces_fitsOk fuel pcs res sheet :
  packPieces sheetW sheetH kerf maxSheets fuel pcs = Some res ->
  sheet ∈ res_sheets res ->
  exists s, fitsOk sheetW sheetH s /\ sheet = buildSheet sheetW sheetH s.
Proof.
  intros Hres Hin.
  apply (inv_packPieces sheetW sheetH kerf maxSheets (fitsOk sheetW sheetH))
    with (3 := Hres) (4 := Hin).
  - apply newSheet_fitsOk.
  - intros piece sh heuristic s'. apply tryPlace_fitsOk.
Qed.

End Reasons.

(** X5: every unplaced entry of the result is a piece too large for the
    sheet in both orientations, with the reason "Too large for sheet", or
    a piece that fits the sheet, with the reason "No sheets remaining";
    the reason "Could not place" never occurs.  In a packing attempt a
    piece is refused for lack of sheets only when the attempt has reached
    the cap.  No piece placed on a sheet is too large for the sheet. *)
Theorem unplaced_reasons sheetW sheetH kerf maxSheets pcs :
  (forall r u, r ∈ attempts sheetW sheetH kerf maxSheets pcs ->
     u ∈ unplaced r ->
     reasonOk sheetW sheetH u /\
     (reason u = "No sheets remaining"%string ->
      (maxSheets <= Z.of_nat (length (sheets r)))%Z)) /\
  (forall fuel res,
     packPieces sheetW sheetH kerf maxSheets fuel pcs = Some res ->
     Forall (reasonOk sheetW sheetH) (res_unplaced res) /\
     forall sheet p, sheet ∈ res_sheets res -> p ∈ o_pieces sheet ->
       fitsAtAll sheetW sheetH (fakePiece p) = true).
Proof.
  assert (Hatt : forall r u, r ∈ attempts sheetW sheetH kerf maxSheets pcs ->
     u ∈ unplaced r ->
     reasonOk sheetW sheetH u /\
     (reason u = "No sheets remaining"%string ->
      (maxSheets <= Z.of_nat (length (sheets r)))%Z)).
  { intros r u Hr Hu. apply attempts_elem in Hr as (sortFn & heuristic & _ & _ & ->).
    exact (proj1 (Forall_forall _ _)
             (runStrategy_unplaced sheetW sheetH kerf maxSheets _ heuristic) u Hu). }
  split; [exact Hatt|]. intros fuel res Hres. split.
  - apply packPieces_Some in Hres
      as [[-> ->]|(best & final & _ & _ & Hin & Hfinal & ->)]; [constructor|].
    simpl. assert (Hu : unplaced final = unplaced best).
    { destruct Hfinal as [[_ ->]|[_ Hc]]; [done|].
      by apply consolidateSheets_unplaced in Hc. }
    rewrite Hu. apply Forall_forall. intros u Hin'.
    by apply (Hatt best u Hin Hin').
  - intros sheet p Hs Hp.
    destruct (packPieces_fitsOk _ _ _ _ _ _ _ _ Hres Hs) as (s & [_ Hs'] & ->).
    simpl in Hp. exact (proj1 (Forall_forall _ _) Hs' p Hp).
Qed.

(** ** Sheets and free rectangles of the result *)

Section Stocked.

Variables (sheetW sheetH kerf : Q) (maxSheets : Z).

Lemma placeRect_prunedOk sheet x y w h :
  prunedOk (placeRect sheetW sheetH kerf sheet x y w h).
Proof.
  split.
  - apply Forall_forall. intros r Hr.
    by apply placeRect_elem in Hr as (? & ? & _).
  - intros a b ra rb Hne Ha Hb. unfold placeRect in *.
    by apply (pruneFreeRects_no_contained _ a b ra rb Hne Ha Hb).
Qed.

Lemma tryPlace_stockedOk piece sheet heuristic s' :
  fitsOk sheetW sheetH sheet ->
  tryPlace sheetW sheetH kerf piece sheet heuristic = Some s' ->
  stockedOk sheetW sheetH s'.
Proof.
  intros Hs H. split; [|split].
  - apply tryPlace_adds in H as (p & -> & _). by destruct (pieces sheet).
  - by apply (tryPlace_fitsOk _ _ _ _ _ _ _ Hs H).
  - apply tryPlace_unfold in H as (fit & _ & ->). apply placeRect_prunedOk.
Qed.

Lemma stockedOk_place piece sheet heuristic s' :
  stockedOk sheetW sheetH sheet ->
  tryPlace sheetW sheetH kerf piece sheet heuristic = Some s' ->
  stockedOk sheetW sheetH s'.
Proof. intros (_ & Hs & _). by apply tryPlace_stockedOk. Qed.

Lemma runStep_stockedOk heuristic st piece :
  Forall (stockedOk sheetW sheetH) (sheets st) ->
  Forall (stockedOk sheetW sheetH)
         (sheets (runStep sheetW sheetH kerf maxSheets heuristic st piece)).
Proof.
  intros Hall. unfold runStep.
  destruct (negb (fitsAtAll sheetW sheetH piece)); [done|].
  destruct (bestSheetLoop _ _ _ _ _ _ _ _) as [idx|]; simpl.
  { apply inv_insert_tryPlace_; [|done]. apply stockedOk_place. }
  destruct (maxSheets <=? _)%Z; [done|].
  destruct (tryPlace _ _ _ _ _ _) as [s|] eqn:E; [|done]. simpl.
  apply Forall_app. split; [done|]. apply Forall_singleton.
  apply (tryPlace_stockedOk _ _ _ _ (newSheet_fitsOk sheetW sheetH) E).
Qed.

Lemma runStrategy_stockedOk sorted heuristic :
  Forall (stockedOk sheetW sheetH)
         (sheets (runStrategy sheetW sheetH kerf maxSheets sorted heuristic)).
Proof.
  induction sorted as [|piece sorted IH] using rev_ind; [constructor|].
  rewrite runStrategy_snoc. by apply runStep_stockedOk.
Qed.

(** The indices that the loop over [piecesToMove] adds to [movedIndices]
    are indices of the pieces it visits. *)
Lemma moveLoop_moved pi ps shs moved improved i :
  i ∈ (moveLoop sheetW sheetH kerf pi ps shs moved improved).1.2 ->
  i ∈ moved \/ (pi <= i < pi + length ps)%nat.
Proof.
  revert pi shs moved improved.
  induction ps as [|p ps IH]; intros pi shs moved improved; simpl; [by left|].
  destruct (moveInto _ _ _ _ _ _) as [shs'|]; intros H; apply IH in H.
  - destruct H as [H|H]; [|right; lia].
    apply elem_of_union in H as [H|H]; [|by left].
    apply elem_of_singleton in H as ->. right. lia.
  - destruct H as [H|H]; [by left|right; lia].
Qed.

(** Unless every piece has moved, a piece remains. *)
Lemma remaining_nonempty (ps : list Placed) (moved : gset nat) :
  (forall i, i ∈ moved -> (i < length ps)%nat) ->
  size moved <> length ps ->
  filter_idx (fun _ i => negb (bool_decide (i ∈ moved))) 0 ps <> [].
Proof.
  intros Hlt Hsize Hnil. apply Hsize.
  assert (Hall : forall i, (i < length ps)%nat -> i ∈ moved).
  { intros i Hi. destruct (lookup_lt_is_Some_2 ps i Hi) as [x Hx].
    destruct (decide (i ∈ moved)) as [|Hni]; [done|]. exfalso.
    assert (Hin : x ∈ filter_idx (fun _ i => negb (bool_decide (i ∈ moved))) 0 ps).
    { apply filter_idx_intro with i; [done|]. simpl.
      apply negb_true_iff. by apply bool_decide_eq_false. }
    rewrite Hnil in Hin. by apply elem_of_nil in Hin. }
  assert (Heq : moved = set_seq 0 (length ps)).
  { apply set_eq. intros i. rewrite elem_of_set_seq. split.
    - intros Hi. specialize (Hlt i Hi). lia.
    - intros [_ Hi]. apply Hall. lia. }
  rewrite Heq. apply size_set_seq.
Qed.

Lemma rebuild_stockedOk remaining :
  remaining <> [] ->
  Forall (fun p => fitsAtAll sheetW sheetH (fakePiece p) = true) remaining ->
  stockedOk sheetW sheetH (rebuild sheetW sheetH kerf remaining).
Proof.
  destruct remaining as [|p ps]; [done|]. intros _ Hfit.
  apply Forall_cons in Hfit as [Hp _]. unfold rebuild. simpl.
  destruct (tryPlace_newSheet sheetW sheetH kerf (fakePiece p) HEURISTIC_BSSF Hp)
    as [s1 E].
  unfold tryPlace_ at 2. rewrite E. simpl.
  pose proof (tryPlace_stockedOk _ _ _ _ (newSheet_fitsOk sheetW sheetH) E) as Hs1.
  clear E. revert s1 Hs1. induction ps as [|q ps IH]; intros s1 Hs1; simpl; [done|].
  apply IH. apply inv_tryPlace_; [|done]. apply stockedOk_place.
Qed.

Lemma consolidatePass_stockedOk shs :
  Forall (stockedOk sheetW sheetH) shs ->
  Forall (stockedOk sheetW sheetH) (consolidatePass sheetW sheetH kerf shs).1.
Proof.
  intros Hall. unfold consolidatePass.
  set (sorted := js_sort (fun a b => usedArea b - usedArea a) shs).
  assert (Hsorted : Forall (stockedOk sheetW sheetH) sorted)
    by (unfold sorted; by rewrite js_sort_perm).
  set (lastSheet := sorted !!! (length sorted - 1)%nat).
  assert (Hlast : Forall (fun p => fitsAtAll sheetW sheetH (fakePiece p) = true)
                         (pieces lastSheet)).
  { unfold lastSheet. destruct (sorted !! (length sorted - 1)%nat) as [s|] eqn:E.
    - rewrite (list_lookup_total_correct _ _ _ E).
      by apply (Forall_lookup_1 _ _ _ _ Hsorted) in E as (_ & [_ ?] & _).
    - rewrite (list_lookup_total_alt), E. simpl. constructor. }
  pose proof (inv_moveLoop sheetW sheetH kerf (stockedOk sheetW sheetH)
                stockedOk_place 0 (pieces lastSheet) sorted ∅ false Hsorted)
    as Hloop.
  pose proof (fun i => moveLoop_moved 0 (pieces lastSheet) sorted ∅ false i)
    as Hmoved.
  destruct (moveLoop _ _ _ _ _ _ _ _) as [[shs' moved] improved].
  simpl in Hloop, Hmoved.
  destruct (0 <? size moved)%nat; [|done].
  destruct (size moved =? _)%nat eqn:Esize; simpl.
  - by apply Forall_removelast.
  - destruct (decide (length shs' - 1 < length shs')%nat).
    + apply Forall_insert; [done|]. apply rebuild_stockedOk.
      * apply remaining_nonempty.
        -- intros i Hi. apply Hmoved in Hi as [Hi|Hi]; [set_solver|lia].
        -- by apply Nat.eqb_neq in Esize.
      * by apply filter_idx_Forall.
    + by rewrite list_insert_ge by lia.
Qed.

Lemma consolidateSheets_stockedOk fuel result result' :
  Forall (stockedOk sheetW sheetH) (sheets result) ->
  consolidateSheets sheetW sheetH kerf fuel result = Some result' ->
  Forall (stockedOk sheetW sheetH) (sheets result').
Proof.
  revert result. induction fuel as [|fuel IH]; intros result Hall; simpl.
  { done. }
  destruct (length (sheets result) <=? 1)%nat; [by intros [= <-]|].
  pose proof (consolidatePass_stockedOk (sheets result) Hall) as Hpass.
  destruct (consolidatePass _ _ _ _) as [shs improved]. simpl in Hpass.
  destruct improved; [by apply IH|]. by intros [= <-].
Qed.

Lemma packPieces_stockedOk fuel pcs res sheet :
  packPieces sheetW sheetH kerf maxSheets fuel pcs = Some res ->
  sheet ∈ res_sheets res ->
  exists s, stockedOk sheetW sheetH s /\ sheet = buildSheet sheetW sheetH s.
Proof.
  intros Hres Hin.
  apply packPieces_Some in Hres
    as [[-> ->]|(best & final & _ & _ & Hbest & Hfinal & ->)].
  { by apply elem_of_nil in Hin. }
  simpl in Hin. apply list_elem_of_In, in_map_iff in Hin as (s & <- & Hs).
  apply list_elem_of_In in Hs. exists s. split; [|done].
  assert (Hall : Forall (stockedOk sheetW sheetH) (sheets best)).
  { apply attempts_elem in Hbest as (sortFn & heuristic & _ & _ & ->).
    apply runStrategy_stockedOk. }
  assert (Hall' : Forall (stockedOk sheetW sheetH) (sheets final)).
  { destruct Hfinal as [[_ ->]|[_ Hc]]; [done|].
    by apply (consolidateSheets_stockedOk _ _ _ Hall Hc). }
  exact (proj1 (Forall_forall _ _) Hall' s Hs).
Qed.

End Stocked.

(** X6: every sheet of the result of [packPieces] holds at least one
    piece: the runner opens a sheet only for a piece it then places on it,
    and the consolidation drops the last sheet once it is emptied. *)
Theorem sheets_hold_pieces sheetW sheetH kerf maxSheets fuel pcs res sheet :
  packPieces sheetW sheetH kerf maxSheets fuel pcs = Some res ->
  sheet ∈ res_sheets res ->
  o_pieces sheet <> [].
Proof.
  intros Hres Hin.
  destruct (packPieces_stockedOk _ _ _ _ _ _ _ _ Hres Hin) as (s & (Hne & _) & ->).
  exact Hne.
Qed.

Lemma sheets_hold_pieces_witness :
  exists res sheet,
    packPieces 15 10 0 5 2 rebuildExample = Some res /\
    sheet ∈ res_sheets res /\ o_pieces sheet <> [].
Proof.
  eexists _, _. split; [vm_compute; reflexivity|]. split; [by right; left|].
  eapply (sheets_hold_pieces 15 10 0 5 2 rebuildExample).
  - vm_compute. reflexivity.
  - by right; left.
Defined.



(** ** Largest free rectangle and free area *)

Lemma findLargestFree_snoc rects r :
  findLargestFree (rects ++ [r]) =
  let largest := findLargestFree rects in
  if Qltb (lf_area largest) (r_w r * r_h r) then largestOf r else largest.
Proof. unfold findLargestFree. by rewrite foldl_app. Qed.

Lemma findLargestFree_spec rects : largestSpec rects (findLargestFree rects).
Proof.
  induction rects as [|r rects IH] using rev_ind.
  { left. split; [done|]. intros r Hr. by apply elem_of_nil in Hr. }
  rewrite findLargestFree_snoc. cbv zeta.
  destruct (Qltb _ _) eqn:E; qprop.
  - right. exists (length rects), r.
    split; [by rewrite lookup_app_r, Nat.sub_diag|]. split; [done|].
    fold (rectArea r) in E.
    destruct IH as [[Hlf Hle]|(i & r0 & Hi & Hlf & Hpos & Hbefore & Hmax)];
      rewrite Hlf in E; simpl in E.
    + split; [done|]. split.
      * intros j r' Hj Hr'. rewrite lookup_app_l in Hr' by done.
        apply list_elem_of_lookup_2 in Hr'. specialize (Hle r' Hr'). lra.
      * intros r' Hr'. apply elem_of_app in Hr' as [Hr'|Hr'].
        -- specialize (Hle r' Hr'). lra.
        -- apply list_elem_of_singleton in Hr' as ->. lra.
    + fold (rectArea r0) in E. split; [lra|]. split.
      * intros j r' Hj Hr'. rewrite lookup_app_l in Hr' by done.
        apply list_elem_of_lookup_2 in Hr'. specialize (Hmax r' Hr'). lra.
      * intros r' Hr'. apply elem_of_app in Hr' as [Hr'|Hr'].
        -- specialize (Hmax r' Hr'). lra.
        -- apply list_elem_of_singleton in Hr' as ->. lra.
  - fold (rectArea r) in E.
    destruct IH as [[Hlf Hle]|(i & r0 & Hi & Hlf & Hpos & Hbefore & Hmax)].
    + left. split; [done|]. intros r' Hr'. rewrite Hlf in E. simpl in E.
      apply elem_of_app in Hr' as [Hr'|Hr']; [by apply Hle|].
      by apply list_elem_of_singleton in Hr' as ->.
    + right. exists i, r0. rewrite Hlf in E. simpl in E.
      fold (rectArea r0) in E.
      split; [by apply lookup_app_l_Some|]. split; [done|]. split; [done|].
      split.
      * intros j r' Hj Hr'. apply lookup_lt_Some in Hi.
        rewrite lookup_app_l in Hr' by lia. by apply (Hbefore j).
      * intros r' Hr'. apply elem_of_app in Hr' as [Hr'|Hr']; [by apply Hmax|].
        by apply list_elem_of_singleton in Hr' as ->.
Qed.

Lemma foldl_rect_areas rects a :
  foldl (fun s r => s + r_w r * r_h r) a rects == a + sumRectAreas rects.
Proof.
  revert a. induction rects as [|r rects IH]; intros a; simpl; [lra|].
  rewrite IH. unfold rectArea. lra.
Qed.

Lemma sumRectAreas_ge rects r :
  Forall (fun r => 0 <= rectArea r) rects -> r ∈ rects ->
  rectArea r <= sumRectAreas rects.
Proof.
  induction 1 as [|a rects Ha Hall IH]; intros Hr.
  { by apply elem_of_nil in Hr. }
  assert (0 <= sumRectAreas rects).
  { clear -Hall. induction Hall; simpl; [lra|lra]. }
  apply elem_of_cons in Hr as [->|Hr]; simpl; [lra|].
  specialize (IH Hr). lra.
Qed.

Lemma computeActualFreeArea_sum sheetW sheetH rects :
  computeActualFreeArea sheetW sheetH rects ==
  Qmin (sumRectAreas rects) (sheetW * sheetH).
Proof.
  unfold computeActualFreeArea. cbv zeta.
  pose proof (foldl_rect_areas rects 0) as H.
  destruct (Q.min_spec (foldl (fun s r => s + r_w r * r_h r) 0 rects)
                       (sheetW * sheetH)) as [[? ->]|[? ->]];
  destruct (Q.min_spec (sumRectAreas rects) (sheetW * sheetH))
    as [[? ->]|[? ->]]; lra.
Qed.




(** X9: on a sheet of the result, of a sheet size that is not negative,
    the area of the largest free rectangle is at most the total free
    area, which lies between zero and the area of the sheet. *)
Theorem free_area_bounds sheetW sheetH kerf maxSheets fuel pcs res sheet :
  0 <= sheetW -> 0 <= sheetH ->
  packPieces sheetW sheetH kerf maxSheets fuel pcs = Some res ->
  sheet ∈ res_sheets res ->
  0 <= lf_area (largestFree sheet) /\
  lf_area (largestFree sheet) <= totalFreeArea sheet /\
  totalFreeArea sheet <= sheetW * sheetH.
Proof.
  intros HW HH Hres Hin.
  destruct (packPieces_stockedOk _ _ _ _ _ _ _ _ Hres Hin)
    as (s & (_ & [Hins _] & [Hbig _]) & ->).
  simpl. rewrite computeActualFreeArea_sum.
  assert (Hpos : Forall (fun r => 0 <= rectArea r) (freeRects s)).
  { eapply Forall_impl; [exact Hbig|]. intros r [? ?]. unfold rectArea. nra. }
  assert (Hle : forall r, r ∈ freeRects s -> rectArea r <= sheetW * sheetH).
  { intros r Hr.
    pose proof (proj1 (Forall_forall _ _) Hins r Hr) as (? & ? & ? & ?).
    pose proof (proj1 (Forall_forall _ _) Hbig r Hr) as (? & ?).
    unfold rectArea. nra. }
  assert (Harea : 0 <= sheetW * sheetH) by nra.
  assert (Hlf : 0 <= lf_area (findLargestFree (freeRects s)) /\
                lf_area (findLargestFree (freeRects s)) <=
                  sumRectAreas (freeRects s) /\
                lf_area (findLargestFree (freeRects s)) <= sheetW * sheetH).
  { destruct (findLargestFree_spec (freeRects s))
      as [[-> _]|(i & r & Hi & -> & Hr & _)]; simpl.
    - split; [lra|]. split; [|done].
      clear -Hpos. induction Hpos; simpl; lra.
    - apply list_elem_of_lookup_2 in Hi. fold (rectArea r).
      split; [lra|]. split; [by apply sumRectAreas_ge|by apply Hle]. }
  destruct Hlf as (? & ? & ?).
  split; [done|]. split; [by apply Q.min_glb|apply Q.le_min_r].
Qed.

Lemma free_area_bounds_witness :
  exists res sheet,
    packPieces 20 10 1 5 0 kerfExample = Some res /\
    sheet ∈ res_sheets res /\
    0 <= lf_area (largestFree sheet) /\
    lf_area (largestFree sheet) <= totalFreeArea sheet /\
    totalFreeArea sheet <= 20 * 10.
Proof.
  eexists _, _. split; [vm_compute; reflexivity|]. split; [by left|].
  eapply (free_area_bounds 20 10 1 5 0 kerfExample).
  - vm_compute. discriminate.
  - vm_compute. discriminate.
  - vm_compute. reflexivity.
  - by left.
Defined.

(** ** Choice of a sheet by the runner *)


Section SheetChoice.

Variables (sheetW sheetH kerf : Q) (maxSheets : Z).
Variables (pw ph : Q) (heuristic : Heuristic).

#[local] Abbreviation soFar := (bestSheetSoFar sheetW pw ph heuristic).



End SheetChoice.



(** ** Sort orders *)

Section Sorted.

Context {A : Type} (cmp : A -> A -> Q).
Hypothesis cmp_total : forall a b, 0 < cmp a b -> cmp b a <= 0.
Hypothesis cmp_trans : forall a b c,
  cmp a b <= 0 -> cmp b c <= 0 -> cmp a c <= 0.

#[local] Abbreviation before := (fun a b => cmp a b <= 0).

Lemma sort_insert_sorted a l :
  StronglySorted before l -> StronglySorted before (sort_insert cmp a l).
Proof.
  induction 1 as [|b l Hl IH Hb]; simpl.
  { repeat constructor. }
  destruct (Qle_bool (cmp a b) 0) eqn:E.
  - apply Qle_bool_iff in E. constructor; [by constructor|].
    constructor; [done|]. eapply Forall_impl; [exact Hb|].
    simpl. intros c Hc. by apply cmp_trans with b.
  - apply Qle_bool_false in E. constructor; [done|].
    rewrite sort_insert_perm. constructor; [by apply cmp_total|done].
Qed.

Lemma js_sort_sorted l : StronglySorted before (js_sort cmp l).
Proof.
  induction l as [|a l IH]; simpl; [constructor|].
  by apply sort_insert_sorted.
Qed.

(** The sort is stable: the elements of a class that [cmp] does not tell
    apart keep their order. *)
Lemma sort_insert_stable (P : A -> bool) a l :
  (forall b, P a = true -> P b = true -> cmp a b <= 0) ->
  filterb P (sort_insert cmp a l) = filterb P (a :: l).
Proof.
  intros HP. induction l as [|b l IH]; simpl; [done|].
  destruct (Qle_bool (cmp a b) 0) eqn:E; [done|].
  apply Qle_bool_false in E. simpl. rewrite IH. simpl.
  destruct (P a) eqn:Ea, (P b) eqn:Eb; try done.
  specialize (HP b eq_refl Eb). lra.
Qed.

Lemma js_sort_stable (P : A -> bool) l :
  (forall a b, P a = true -> P b = true -> cmp a b <= 0) ->
  filterb P (js_sort cmp l) = filterb P l.
Proof.
  intros HP. induction l as [|a l IH]; simpl; [done|].
  rewrite sort_insert_stable by (intros b; apply HP). simpl. by rewrite IH.
Qed.

End Sorted.

Lemma StronglySorted_weaken {A} (R S : A -> A -> Prop) l :
  (forall a b, R a b -> S a b) -> StronglySorted R l -> StronglySorted S l.
Proof.
  intros HRS. induction 1 as [|a l Hl IH Ha]; constructor; [done|].
  eapply Forall_impl; [exact Ha|]. intros b. apply HRS.
Qed.

Lemma keyCmp_before k1 k2 a b : keyCmp k1 k2 a b <= 0 <-> byKeys k1 k2 a b.
Proof.
  unfold keyCmp, byKeys. cbv zeta.
  destruct (Qneqb (k1 b - k1 a) 0) eqn:E; qprop; split; intros H; lra.
Qed.

Lemma keyCmp_sortsBy k1 k2 pcs : sortsBy k1 k2 (keyCmp k1 k2) pcs.
Proof.
  split; [apply js_sort_perm|]. split.
  - eapply StronglySorted_weaken; [|apply js_sort_sorted].
    + intros a b. apply keyCmp_before.
    + intros a b. unfold keyCmp. cbv zeta.
      destruct (Qneqb (k1 b - k1 a) 0) eqn:E1,
               (Qneqb (k1 a - k1 b) 0) eqn:E2; qprop; intros H; lra.
    + intros a b c. rewrite !keyCmp_before. unfold byKeys. lra.
  - intros x. apply js_sort_stable. intros a b Ha Hb.
    unfold sameKeys in Ha, Hb.
    apply andb_true_iff in Ha as [Ha1 Ha2].
    apply andb_true_iff in Hb as [Hb1 Hb2].
    apply Qeq_bool_iff in Ha1, Ha2, Hb1, Hb2.
    apply keyCmp_before. unfold byKeys. lra.
Qed.

(** X11: for pieces of whole sizes of at most 2^26, whose keys
    JavaScript computes exactly, each of the four sort orders hands the
    runner a permutation of the input that is in the order of its two
    keys, larger first: area then longer side, width plus height then
    area, longer side then area, longer side then shorter side; pieces
    that agree on both keys keep the order of the input. *)
Theorem sort_orders_by_keys pcs :
  Forall exactPiece pcs ->
  Forall2 (fun cmp keys => sortsBy keys.1 keys.2 cmp pcs)
          sortStrategies sortKeys.
Proof.
  intros _. unfold sortStrategies, sortKeys.
  constructor; [apply (keyCmp_sortsBy pieceArea longSide)|].
  constructor; [apply (keyCmp_sortsBy halfPerimeter pieceArea)|].
  constructor; [apply (keyCmp_sortsBy longSide pieceArea)|].
  constructor; [apply (keyCmp_sortsBy longSide shortSide)|].
  constructor.
Qed.

Lemma sort_orders_by_keys_witness :
  Forall exactPiece rebuildExample /\
  Forall2 (fun cmp keys => sortsBy keys.1 keys.2 cmp rebuildExample)
          sortStrategies sortKeys.
Proof.
  assert (H : Forall exactPiece rebuildExample).
  { repeat (constructor;
            [split; eexists; (split; [|reflexivity]); lia|]).
    constructor. }
  split; [exact H|]. apply (sort_orders_by_keys rebuildExample H).
Defined.

(** ** The first best attempt *)

Section FirstBest.

Variables (sheetW sheetH kerf : Q) (maxSheets : Z).

#[local] Abbreviation fbBetter := (isBetterResult sheetW sheetH).
#[local] Abbreviation fbKeep := (keepBest sheetW sheetH).

(** A result that beats [b] beats every result that does not beat [b]. *)
Lemma isBetterResult_before a b r :
  fbBetter a b = true -> fbBetter r b = false -> fbBetter a r = true.
Proof.
  intros Hab Hrb. apply isBetterResult_true. apply isBetterResult_true in Hab.
  assert (Hn : ~ resultLt sheetW sheetH r b).
  { intros H. apply isBetterResult_true in H. congruence. }
  unfold resultLt in *.
  destruct (Nat.lt_trichotomy (length (unplaced a)) (length (unplaced r)))
    as [?|[Eu|?]]; [by left| |exfalso].
  - right. split; [done|].
    destruct (Nat.lt_trichotomy (length (sheets a)) (length (sheets r)))
      as [?|[Es|?]]; [by left| |exfalso].
    + right. split; [done|].
      destruct (Qlt_le_dec (waste (resultScore sheetW sheetH a))
                           (waste (resultScore sheetW sheetH r)))
        as [?|Hle]; [done|exfalso].
      apply Hn. destruct Hab as [?|[? [?|[? ?]]]].
      * left. lia.
      * right. split; [lia|]. left. lia.
      * right. split; [lia|]. right. split; [lia|lra].
    + apply Hn. destruct Hab as [?|[? [?|[? ?]]]].
      * left. lia.
      * right. split; [lia|]. left. lia.
      * lia.
  - apply Hn. destruct Hab as [?|[? _]]; [left; lia|lia].
Qed.

Lemma keepBest_first l : forall seen b0 i,
  seen !! i = Some b0 ->
  (forall r, r ∈ seen -> fbBetter r b0 = false) ->
  (forall j r, (j < i)%nat -> seen !! j = Some r -> fbBetter b0 r = true) ->
  exists b k, foldl fbKeep (Some b0) l = Some b /\
    (seen ++ l) !! k = Some b /\
    (forall r, r ∈ seen ++ l -> fbBetter r b = false) /\
    (forall j r, (j < k)%nat -> (seen ++ l) !! j = Some r ->
                 fbBetter b r = true).
Proof.
  induction l as [|a l IH]; intros seen b0 i Hi Hbest Hfirst.
  { exists b0, i. rewrite app_nil_r. done. }
  simpl. replace (seen ++ a :: l) with ((seen ++ [a]) ++ l)
    by (by rewrite <- (assoc_L (++))).
  destruct (fbBetter a b0) eqn:E.
  - apply (IH (seen ++ [a]) a (length seen)).
    + rewrite lookup_app_r by lia. by rewrite Nat.sub_diag.
    + intros r Hr. apply elem_of_app in Hr as [Hr|Hr].
      * apply isBetterResult_keep with b0; auto.
      * apply list_elem_of_singleton in Hr as ->. apply isBetterResult_irrefl.
    + intros j r Hj Hr. rewrite lookup_app_l in Hr by done.
      apply isBetterResult_before with b0; [done|].
      apply Hbest. by apply list_elem_of_lookup_2 in Hr.
  - apply (IH (seen ++ [a]) b0 i).
    + apply lookup_lt_Some in Hi as Hlt. by rewrite lookup_app_l.
    + intros r Hr. apply elem_of_app in Hr as [Hr|Hr]; [auto|].
      by apply list_elem_of_singleton in Hr as ->.
    + intros j r Hj Hr. apply lookup_lt_Some in Hi as Hlt.
      rewrite lookup_app_l in Hr by lia. eauto.
Qed.

End FirstBest.

(** X12: the engine returns the first best attempt of the grid.  For
    whole sizes of sheet, kerf and pieces, with sheets for all the pieces
    of at most 2^50 in area, where JavaScript computes the attempts and
    their waste exactly: with the attempts in the order of the two loops,
    sort orders outside and heuristics inside, the attempt that the grid
    keeps is one that no attempt beats and that beats every attempt
    before it: among attempts with the same counts and waste the earliest
    wins. *)
Theorem first_best_attempt_wins sheetW sheetH kerf maxSheets pcs :
  exactInput sheetW sheetH kerf pcs ->
  exists best k,
    strategyGrid sheetW sheetH kerf maxSheets pcs = Some best /\
    attempts sheetW sheetH kerf maxSheets pcs !! k = Some best /\
    (forall r, r ∈ attempts sheetW sheetH kerf maxSheets pcs ->
               isBetterResult sheetW sheetH r best = false) /\
    (forall j r, (j < k)%nat ->
       attempts sheetW sheetH kerf maxSheets pcs !! j = Some r ->
       isBetterResult sheetW sheetH best r = true).
Proof.
  intros _. rewrite strategyGrid_attempts.
  destruct (attempts sheetW sheetH kerf maxSheets pcs) as [|a l] eqn:E;
    [discriminate E|].
  simpl. apply (keepBest_first sheetW sheetH l [a] a 0%nat).
  - done.
  - intros r Hr. apply list_elem_of_singleton in Hr as ->.
    apply isBetterResult_irrefl.
  - intros j r Hj. lia.
Qed.

Lemma first_best_attempt_wins_witness :
  exactInput 15 10 0 rebuildExample /\
  exists best k,
    strategyGrid 15 10 0 5 rebuildExample = Some best /\
    attempts 15 10 0 5 rebuildExample !! k = Some best /\
    (forall r, r ∈ attempts 15 10 0 5 rebuildExample ->
               isBetterResult 15 10 r best = false) /\
    (forall j r, (j < k)%nat ->
       attempts 15 10 0 5 rebuildExample !! j = Some r ->
       isBetterResult 15 10 best r = true).
Proof.
  assert (H : exactInput 15 10 0 rebuildExample).
  { split; [eexists; (split; [|reflexivity]); lia|].
    split; [eexists; (split; [|reflexivity]); lia|].
    split; [eexists; (split; [|reflexivity]); lia|].
    split; [|vm_compute; discriminate].
    repeat (constructor;
            [split; eexists; (split; [|reflexivity]); lia|]).
    constructor. }
  split; [exact H|]. apply (first_best_attempt_wins 15 10 0 5 rebuildExample H).
Defined.

(** ** Suggestions *)

Lemma fitExamplesLoop_spec rects seen acc :
  NoDup acc -> (forall k, k ∈ seen <-> k ∈ acc) ->
  NoDup (fitExamplesLoop rects seen acc) /\
  forall k, k ∈ fitExamplesLoop rects seen acc <->
    k ∈ acc \/ exists r, r ∈ rects /\ usableGap r /\ k = gapKey r.
Proof.
  revert seen acc. induction rects as [|r rects IH]; intros seen acc Hnd Hseen.
  { simpl. split; [done|]. intros k. split; [by left|].
    intros [H|(r & Hr & _)]; [done|]. by apply elem_of_nil in Hr. }
  simpl. destruct (Qle_bool 200 (r_w r) && Qle_bool 200 (r_h r)) eqn:E.
  - apply andb_true_iff in E as [E1 E2]. apply Qle_bool_iff in E1, E2.
    fold (gapKey r).
    destruct (bool_decide (gapKey r ∈ seen)) eqn:Es.
    + apply bool_decide_eq_true in Es.
      destruct (IH seen acc Hnd Hseen) as [Hnd' Hmem]. split; [done|].
      intros k. rewrite Hmem. split.
      * intros [H|(r' & Hr' & Hu & ->)]; [by left|].
        right. exists r'. split; [by right|done].
      * intros [H|(r' & Hr' & Hu & ->)]; [by left|].
        apply elem_of_cons in Hr' as [->|Hr'].
        -- left. by apply Hseen.
        -- right. by exists r'.
    + apply bool_decide_eq_false in Es.
      destruct (IH ({[gapKey r]} ∪ seen) (acc ++ [gapKey r])) as [Hnd' Hmem].
      { apply NoDup_app. split; [done|]. split; [|apply NoDup_singleton].
        intros x Hx Hx'. apply list_elem_of_singleton in Hx' as ->.
        by apply Es, Hseen. }
      { intros k. rewrite elem_of_union, elem_of_singleton, elem_of_app,
          list_elem_of_singleton, Hseen. tauto. }
      split; [done|]. intros k. rewrite Hmem, elem_of_app, list_elem_of_singleton.
      split.
      * intros [[H| ->]|(r' & Hr' & Hu & ->)].
        -- by left.
        -- right. exists r. split; [by left|done].
        -- right. exists r'. split; [by right|done].
      * intros [H|(r' & Hr' & Hu & ->)]; [by left; left|].
        apply elem_of_cons in Hr' as [->|Hr'].
        -- left. by right.
        -- right. by exists r'.
  - destruct (IH seen acc Hnd Hseen) as [Hnd' Hmem]. split; [done|].
    intros k. rewrite Hmem. split.
    + intros [H|(r' & Hr' & Hu & ->)]; [by left|].
      right. exists r'. split; [by right|done].
    + intros [H|(r' & Hr' & Hu & ->)]; [by left|].
      apply elem_of_cons in Hr' as [->|Hr'].
      * exfalso. destruct Hu as [H1 H2].
        apply Qle_bool_iff in H1, H2. rewrite H1, H2 in E. done.
      * right. by exists r'.
Qed.

Lemma fitExamplesLoop_keys rects :
  NoDup (fitExamplesLoop rects ∅ []) /\
  forall k, k ∈ fitExamplesLoop rects ∅ [] <->
    exists r, r ∈ rects /\ usableGap r /\ k = gapKey r.
Proof.
  destruct (fitExamplesLoop_spec rects ∅ []) as [Hnd Hmem].
  { constructor. }
  { intros k. set_solver. }
  split; [done|]. intros k. rewrite Hmem. split; [|by right].
  intros [H|H]; [by apply elem_of_nil in H|done].
Qed.

(** X13: the usable gaps listed for a sheet are the keys, floored width
    by floored height, of its free rectangles of at least 200 by 200, each
    key once. *)
Theorem usable_gaps_distinct rects :
  NoDup (fitExamplesLoop rects ∅ []) /\
  forall k, k ∈ fitExamplesLoop rects ∅ [] <->
    exists r, r ∈ rects /\ usableGap r /\ k = gapKey r.
Proof. apply fitExamplesLoop_keys. Qed.

Section Suggestions.

Variables (sheetW sheetH : Q).

Lemma elem_of_concat {A} (ls : list (list A)) (x : A) :
  x ∈ concat ls <-> exists l, l ∈ ls /\ x ∈ l.
Proof.
  rewrite list_elem_of_In, in_concat. split.
  - intros (l & Hl & Hx). exists l. by rewrite !list_elem_of_In.
  - intros (l & Hl & Hx). exists l. by rewrite <- !list_elem_of_In.
Qed.

Lemma fitExamples_nonempty rects :
  (0 <? length (fitExamplesLoop rects ∅ []))%nat = true <->
  exists r, r ∈ rects /\ usableGap r.
Proof.
  destruct (fitExamplesLoop_keys rects) as [_ Hmem].
  rewrite Nat.ltb_lt. split.
  - intros Hlen. destruct (fitExamplesLoop rects ∅ []) as [|k l] eqn:E.
    { simpl in Hlen. lia. }
    destruct (proj1 (Hmem k)) as (r & Hr & Hu & _); [by left|]. by exists r.
  - intros (r & Hr & Hu).
    assert (Hin : gapKey r ∈ fitExamplesLoop rects ∅ [])
      by (apply Hmem; by exists r).
    destruct (fitExamplesLoop rects ∅ []); [by apply elem_of_nil in Hin|].
    simpl. lia.
Qed.



Lemma concat_imap_snoc {A B} (f : nat -> A -> list B) l x :
  concat (imap f (l ++ [x])) = concat (imap f l) ++ f (length l) x.
Proof.
  rewrite imap_app, concat_app. simpl.
  by rewrite Nat.add_0_r, app_nil_r.
Qed.

Lemma elem_of_concat_imap {A B} (f : nat -> A -> list B) l y :
  y ∈ concat (imap f l) <-> exists i x, l !! i = Some x /\ y ∈ f i x.
Proof.
  rewrite elem_of_concat. split.
  - intros (ys & Hys & Hy). apply elem_of_lookup_imap in Hys as (i & x & -> & Hx).
    by exists i, x.
  - intros (i & x & Hx & Hy). exists (f i x). split; [|done].
    by apply elem_of_lookup_imap_2.
Qed.


End Suggestions.


(** ** The waste read back from its text *)

Lemma readDigits_app s rest acc cnt :
  allDigits s ->
  readDigits (s ++ rest)%string acc cnt =
  readDigits rest (digitsValue s acc) (cnt + String.length s)%nat.
Proof.
  revert acc cnt. induction s as [|c s IH]; intros acc cnt Hs; simpl.
  { by rewrite Nat.add_0_r. }
  destruct Hs as [[d Hd] Hs]. rewrite Hd. simpl. rewrite IH by done.
  f_equal. lia.
Qed.

Lemma readDigits_all s acc cnt :
  allDigits s ->
  readDigits s acc cnt =
  (digitsValue s acc, (cnt + String.length s)%nat, EmptyString).
Proof.
  revert acc cnt. induction s as [|c s IH]; intros acc cnt Hs; simpl.
  { by rewrite Nat.add_0_r. }
  destruct Hs as [[d Hd] Hs]. rewrite Hd. simpl. rewrite IH by done.
  f_equal. f_equal. lia.
Qed.

Lemma digitsValue_acc s acc :
  digitsValue s acc =
  (acc * 10 ^ Z.of_nat (String.length s) + digitsValue s 0)%Z.
Proof.
  revert acc. induction s as [|c s IH]; intros acc; simpl digitsValue.
  { simpl. lia. }
  rewrite IH. rewrite (IH (10 * 0 + _)%Z).
  change (String.length (String c s)) with (S (String.length s)).
  rewrite Nat2Z.inj_succ, Z.pow_succ_r by lia. lia.
Qed.

Lemma digitsValue_app s1 s2 acc :
  digitsValue (s1 ++ s2)%string acc = digitsValue s2 (digitsValue s1 acc).
Proof.
  revert acc. induction s1 as [|c s1 IH]; intros acc; simpl; [done|].
  by rewrite IH.
Qed.

Lemma allDigits_app s1 s2 :
  allDigits (s1 ++ s2)%string <-> allDigits s1 /\ allDigits s2.
Proof.
  induction s1 as [|c s1 IH]; simpl; [tauto|]. rewrite IH. tauto.
Qed.

Lemma length_app_string s1 s2 :
  String.length (s1 ++ s2)%string =
  (String.length s1 + String.length s2)%nat.
Proof. induction s1 as [|c s1 IH]; simpl; [done|]. by rewrite IH. Qed.

(** The digits of a number in base ten. *)
Lemma uint_digits u :
  allDigits (NilEmpty.string_of_uint u).
Proof.
  induction u; simpl; try done; (split; [by eexists|done]).
Qed.

Lemma uint_value_acc u acc :
  digitsValue (NilEmpty.string_of_uint u) (Z.pos acc) =
  Z.pos (Pos.of_uint_acc u acc).
Proof.
  revert acc. induction u; intros acc; simpl; try done;
    rewrite <- IHu; f_equal; lia.
Qed.

Lemma uint_value u :
  digitsValue (NilEmpty.string_of_uint u) 0 = Z.of_N (Pos.of_uint u).
Proof.
  induction u; simpl; try done;
    match goal with
    | |- digitsValue _ ?a = _ =>
        change a with (Z.pos (Z.to_pos a)); by rewrite uint_value_acc
    end.
Qed.

Lemma string_of_Z_digits n :
  (0 <= n)%Z ->
  allDigits (string_of_Z n) /\ digitsValue (string_of_Z n) 0 = n /\
  (1 <= String.length (string_of_Z n))%nat.
Proof.
  intros Hn. unfold string_of_Z. destruct n as [|p|p]; [| |lia].
  - simpl. split; [split; [by eexists|done]|]. split; [done|lia].
  - simpl. unfold NilZero.string_of_uint.
    pose proof (DecimalPos.Unsigned.of_to p) as Hp.
    destruct (Pos.to_uint p) eqn:E; [simpl in Hp; done| | | | | | | | | |];
      rewrite <- E in *; rewrite E at 1 2 3;
      (split; [rewrite <- E; apply uint_digits|]);
      (split; [rewrite <- E, uint_value, Hp; done|]);
      simpl; lia.
Qed.

Lemma zeros_digits j :
  allDigits (zeros j) /\ digitsValue (zeros j) 0 = 0%Z /\
  String.length (zeros j) = j.
Proof.
  induction j as [|j (IH1 & IH2 & IH3)]; simpl; [done|].
  split; [split; [by eexists|done]|]. split; [done|]. by rewrite IH3.
Qed.

Lemma substring_full s : substring 0 (String.length s) s = s.
Proof. induction s as [|c s IH]; simpl; [done|]. by rewrite IH. Qed.

Lemma substring_split s j :
  (j <= String.length s)%nat ->
  (substring 0 j s ++ substring j (String.length s - j) s)%string = s.
Proof.
  revert j. induction s as [|c s IH]; intros j Hj; simpl in Hj.
  { by destruct j. }
  destruct j as [|j].
  - simpl. by rewrite substring_full.
  - cbn [substring String.length Nat.sub].
    transitivity
      (String c (substring 0 j s ++ substring j (String.length s - j) s)%string);
      [reflexivity|]. rewrite IH by lia. done.
Qed.

Lemma length_substring s j n :
  (j + n <= String.length s)%nat -> String.length (substring j n s) = n.
Proof.
  revert j n. induction s as [|c s IH]; intros j n Hjn; simpl in *.
  { destruct j, n; simpl in *; try lia; done. }
  destruct j as [|j]; simpl.
  - destruct n as [|n]; simpl; [done|]. rewrite IH; [done|lia].
  - apply IH. lia.
Qed.

(** A digit is not a minus sign, and a point is not a digit. *)
Lemma digit_not_minus c s :
  is_Some (digit_of_ascii c) ->
  match String c s with
  | String "-"%char s' => (true, s')
  | _ => (false, String c s)
  end = (false, String c s).
Proof.
  intros [d Hd].
  destruct c as [[] [] [] [] [] [] [] []]; try done; vm_compute in Hd; done.
Qed.

Lemma parseFloat_point (neg : bool) a b :
  allDigits a -> allDigits b -> a <> EmptyString ->
  parseFloat ((if neg then "-" else "") ++ a ++ "." ++ b)%string =
  let v := inject_Z (digitsValue a 0) +
           inject_Z (digitsValue b 0) /
           inject_Z (10 ^ Z.of_nat (String.length b)) in
  if neg then - v else v.
Proof.
  intros Ha Hb Hne. unfold parseFloat.
  assert (E : match ((if neg then "-" else "") ++ a ++ "." ++ b)%string with
              | String "-"%char s' => (true, s')
              | _ => (false, ((if neg then "-" else "") ++ a ++ "." ++ b)%string)
              end = (neg, (a ++ "." ++ b)%string)).
  { destruct neg; simpl; [done|].
    destruct a as [|c a]; [done|]. destruct Ha as [Hc _]. simpl.
    apply (digit_not_minus c _ Hc). }
  rewrite E. rewrite (readDigits_app a _ 0%Z 0%nat Ha).
  change ("." ++ b)%string with (String "."%char b).
  assert (Ep : forall x y, readDigits (String "."%char b) x y
                           = (x, y, String "."%char b)) by reflexivity.
  rewrite Ep. cbv beta iota. rewrite (readDigits_all b 0%Z 0%nat Hb).
  reflexivity.
Qed.

Lemma parseFloat_integer (neg : bool) a :
  allDigits a -> a <> EmptyString ->
  parseFloat ((if neg then "-" else "") ++ a)%string =
  let v := inject_Z (digitsValue a 0) + inject_Z 0 / inject_Z (10 ^ 0) in
  if neg then - v else v.
Proof.
  intros Ha Hne. unfold parseFloat.
  assert (E : match ((if neg then "-" else "") ++ a)%string with
              | String "-"%char s' => (true, s')
              | _ => (false, ((if neg then "-" else "") ++ a)%string)
              end = (neg, a)).
  { destruct neg; simpl; [done|].
    destruct a as [|c a]; [done|]. destruct Ha as [Hc _].
    apply (digit_not_minus c _ Hc). }
  rewrite E. rewrite (readDigits_all a 0%Z 0%nat Ha). simpl. done.
Qed.

Lemma append_nil_r s : (s ++ "")%string = s.
Proof.
  induction s as [|c s IH]; [done|].
  change (String c s ++ "")%string with (String c (s ++ "")%string).
  by rewrite IH.
Qed.

Lemma Qabs_cases x : Qabs x == (if Qltb x 0 then - x else x).
Proof.
  destruct (Qltb x 0) eqn:E; qprop.
  - apply Qabs_neg. lra.
  - by apply Qabs_pos.
Qed.

(** What [toFixed] writes, [parseFloat] reads back: the number rounded to
    the digits written. *)
Lemma parseFloat_toFixed digits x :
  parseFloat (toFixed digits x) == roundTo digits x.
Proof.
  unfold toFixed, roundTo. cbv zeta.
  assert (En : Qfloor (Qabs x * inject_Z (10 ^ Z.of_nat digits) + (1 # 2)) =
               Qfloor ((if Qltb x 0 then - x else x) *
                       inject_Z (10 ^ Z.of_nat digits) + (1 # 2))).
  { apply Qfloor_comp. by rewrite Qabs_cases. }
  rewrite En. clear En.
  set (neg := Qltb x 0).
  set (n := Qfloor _).
  assert (Hn : (0 <= n)%Z).
  { unfold n. change 0%Z with (Qfloor 0). apply Qfloor_resp_le.
    assert (0 <= (if neg then - x else x)).
    { unfold neg. destruct (Qltb x 0) eqn:E; qprop; lra. }
    assert (0 < inject_Z (10 ^ Z.of_nat digits)).
    { change 0 with (inject_Z 0). rewrite <- Zlt_Qlt.
      apply Z.pow_pos_nonneg; lia. }
    nra. }
  destruct (string_of_Z_digits n Hn) as (Hd0 & Hv0 & Hl0).
  destruct (zeros_digits (S digits - String.length (string_of_Z n)))
    as (Hdz & Hvz & Hlz).
  set (m := (zeros (S digits - String.length (string_of_Z n)) ++
             string_of_Z n)%string).
  assert (Hdm : allDigits m) by (by apply allDigits_app).
  assert (Hvm : digitsValue m 0 = n).
  { unfold m. by rewrite digitsValue_app, Hvz. }
  assert (Hlm : (S digits <= String.length m)%nat).
  { unfold m. rewrite length_app_string, Hlz. lia. }
  set (k := String.length m) in *.
  set (a := substring 0 (k - digits) m).
  set (b := substring (k - digits) digits m).
  assert (Hab : (a ++ b)%string = m).
  { unfold a, b. pose proof (substring_split m (k - digits)) as H.
    fold k in H. replace (k - (k - digits))%nat with digits in H by lia.
    apply H. lia. }
  assert (Hda : allDigits a /\ allDigits b).
  { apply allDigits_app. by rewrite Hab. }
  destruct Hda as [Hda Hdb].
  assert (Hlb : String.length b = digits).
  { unfold b. apply length_substring. fold k. lia. }
  assert (Hla : String.length a = (k - digits)%nat).
  { unfold a. apply length_substring. fold k. lia. }
  assert (Hne : a <> EmptyString).
  { intros E. rewrite E in Hla. simpl in Hla. lia. }
  assert (Hval : (digitsValue a 0 * 10 ^ Z.of_nat digits + digitsValue b 0)%Z
                 = n).
  { rewrite <- Hvm, <- Hab, digitsValue_app.
    rewrite (digitsValue_acc b (digitsValue a 0)), Hlb. done. }
  assert (Hpow : 0 < inject_Z (10 ^ Z.of_nat digits)).
  { change 0 with (inject_Z 0). rewrite <- Zlt_Qlt.
    apply Z.pow_pos_nonneg; lia. }
  assert (Hq : inject_Z n ==
               inject_Z (digitsValue a 0) * inject_Z (10 ^ Z.of_nat digits) +
               inject_Z (digitsValue b 0)).
  { rewrite <- Hval, inject_Z_plus, inject_Z_mult. reflexivity. }
  destruct digits as [|digits'].
  - rewrite append_nil_r, (parseFloat_integer neg a Hda Hne). cbv zeta.
    assert (Eb : digitsValue b 0 = 0%Z).
    { destruct b; [done|simpl in Hlb; lia]. }
    rewrite Eb in Hq.
    change (inject_Z (10 ^ Z.of_nat 0)) with 1 in *.
    change (inject_Z (10 ^ 0)) with 1. change (inject_Z 0) with 0 in *.
    destruct neg; rewrite Hq; field.
  - rewrite (parseFloat_point neg a b Hda Hdb Hne). cbv zeta. rewrite Hlb.
    destruct neg; rewrite Hq; field; lra.
Qed.

Lemma roundTo_one x :
  let n := Qfloor (Qabs x * 10 + (1 # 2)) in
  roundTo 1 x == (if Qltb x 0 then - inject_Z n else inject_Z n) / 10 /\
  inject_Z n <= Qabs x * 10 + (1 # 2) /\ Qabs x * 10 + (1 # 2) < inject_Z n + 1.
Proof.
  cbv zeta. split; [reflexivity|]. split.
  - apply Qfloor_le.
  - pose proof (Qlt_floor (Qabs x * 10 + (1 # 2))) as H.
    rewrite inject_Z_plus in H. exact H.
Qed.

(** What [parseFloat] reads from the text that [toFixed(1)] writes for a
    number exceeds a whole threshold that is not negative exactly when the
    number is at least the threshold and a twentieth. *)
Lemma parseFloat_toFixed_above x (t : Z) :
  (0 <= t)%Z ->
  inject_Z t < parseFloat (toFixed 1 x) <-> inject_Z t + (1 # 20) <= x.
Proof.
  intros Ht.
  pose proof (parseFloat_toFixed 1 x) as Hread.
  destruct (roundTo_one x) as (Hr & Hlo & Hhi).
  set (n := Qfloor (Qabs x * 10 + (1 # 2))) in *.
  pose proof (Qabs_cases x) as Habs.
  assert (Hval : parseFloat (toFixed 1 x) ==
                 (if Qltb x 0 then - inject_Z n else inject_Z n) * (1 # 10)).
  { rewrite Hread, Hr. reflexivity. }
  rewrite Habs in Hlo, Hhi.
  assert (Hn : (0 <= n)%Z)
    by (unfold n; change 0%Z with (Qfloor 0); apply Qfloor_resp_le;
        pose proof (Qabs_nonneg x); lra).
  clear Habs Hread Hr.
  revert Hlo Hhi Hval.
  destruct (Qltb x 0) eqn:E; intros Hlo Hhi Hval; qprop.
  all: assert (Ht' : 0 <= inject_Z t)
         by (change 0 with (inject_Z 0); by rewrite <- Zle_Qle).
  all: assert (Hn' : 0 <= inject_Z n)
         by (change 0 with (inject_Z 0); by rewrite <- Zle_Qle).
  - split; intros H; lra.
  - split.
    + intros H.
      assert (Hz : (10 * t < n)%Z).
      { rewrite Zlt_Qlt, inject_Z_mult.
        change (inject_Z 10) with 10. lra. }
      assert (Hz' : (10 * t + 1 <= n)%Z) by lia.
      rewrite Zle_Qle, inject_Z_plus, inject_Z_mult in Hz'.
      change (inject_Z 10) with 10 in Hz'. change (inject_Z 1) with 1 in Hz'.
      lra.
    + intros H.
      assert (Hz : (10 * t < n + 1)%Z).
      { rewrite Zlt_Qlt, inject_Z_plus, inject_Z_mult.
        change (inject_Z 10) with 10. change (inject_Z 1) with 1. lra. }
      destruct (Z.eq_dec (10 * t)%Z n) as [Eq|Hne].
      * exfalso. rewrite <- Eq, inject_Z_mult in Hhi.
        change (inject_Z 10) with 10 in Hhi. lra.
      * assert (Hz3 : (10 * t < n)%Z) by lia.
        rewrite Zlt_Qlt, inject_Z_mult in Hz3.
        change (inject_Z 10) with 10 in Hz3. lra.
Qed.

(** X15: the thresholds of the suggestions.  When the text [wastePercent]
    of a sheet is what [toFixed(1)] writes for a number [x], the waste
    that the reporter reads back from the text exceeds a whole threshold
    [t] from 0 to 100 exactly when [x] is at least [t + 0.05]: the
    thresholds 15, 20 and 30 are passed from 15.05, 20.05 and 30.05 on. *)
Theorem wasteNum_thresholds (sheet : OutSheet) (x : Q) :
  wastePercent sheet = toFixed 1 x ->
  forall t : Z, (0 <= t <= 100)%Z ->
    (inject_Z t < wasteNum sheet <-> inject_Z t + (1 # 20) <= x).
Proof.
  intros E t Ht. unfold wasteNum. rewrite E.
  apply parseFloat_toFixed_above. lia.
Qed.

Lemma wasteNum_thresholds_witness :
  let sheet := mkOutSheet [] "15.0" 339800 []
                 (mkLargestFree 0 0 0 None None) 0 in
  let x := 15049999999999997 # 1000000000000000 in
  wastePercent sheet = toFixed 1 x /\
  forall t : Z, (0 <= t <= 100)%Z ->
    (inject_Z t < wasteNum sheet <-> inject_Z t + (1 # 20) <= x).
Proof.
  cbv zeta. split; [vm_compute; reflexivity|].
  apply (wasteNum_thresholds _ (15049999999999997 # 1000000000000000)).
  vm_compute. reflexivity.
Defined.

(** * Properties of the guillotine packer *)

(** ** Best area fit *)

Section GuillotineFit.

Variables (pw ph : Q).

Lemma improve_bestAreaOf b L i r w h rot :
  Qneqb w pw = rot ->
  bestAreaOf pw ph b L ->
  bestAreaOf pw ph (Guillotine.improve b r i w h (areaFit pw ph r))
             (L ++ [mkCandidate i r w h rot]).
Proof.
  intros <-. unfold bestAreaOf, Guillotine.improve.
  destruct (Guillotine.bestScore b) as [sc|] eqn:Esc; simpl.
  - intros (k & r0 & Hr0 & Hk & -> & L1 & L2 & -> & H1 & H2).
    destruct (Qltb _ _) eqn:E; qprop; simpl.
    + exists i, r. split; [done|]. split; [done|]. split; [done|].
      eexists _, []. split; [done|].
      split; [|intros c' Hc'; by apply elem_of_nil in Hc'].
      simpl. intros c' Hc'. apply elem_of_app in Hc' as [Hc'|Hc'].
      * specialize (H1 c' Hc'). simpl in H1. lra.
      * apply elem_of_cons in Hc' as [->|Hc']; [simpl; lra|].
        specialize (H2 c' Hc'). simpl in H2. lra.
    + rewrite Esc. exists k, r0. split; [done|]. split; [done|]. split; [done|].
      exists L1, (L2 ++ [mkCandidate i r w h (Qneqb w pw)]).
      split; [by rewrite <- app_assoc|]. split; [done|].
      intros c' Hc'. apply elem_of_app in Hc' as [Hc'|Hc']; [by apply H2|].
      apply list_elem_of_singleton in Hc' as ->. simpl. lra.
  - intros (Hr0 & Hk & ->). exists i, r.
    split; [done|]. split; [done|]. split; [done|].
    exists [], []. split; [done|].
    split; intros c' Hc'; by apply elem_of_nil in Hc'.
Qed.

Lemma fitStep_bestAreaOf b L i r :
  bestAreaOf pw ph b L ->
  bestAreaOf pw ph (Guillotine.fitStep pw ph b i r)
             (L ++ candidatesOf pw ph i r).
Proof.
  intros Hb. unfold Guillotine.fitStep, candidatesOf, fits. cbv zeta.
  fold (areaFit pw ph r).
  assert (E0 : Qneqb pw pw = false) by (apply Qneqb_false; reflexivity).
  destruct (Qle_bool pw (r_w r) && Qle_bool ph (r_h r));
  destruct (Qle_bool ph (r_w r) && Qle_bool pw (r_h r) && Qneqb pw ph) eqn:E2;
    simpl; rewrite ?app_nil_r; try done.
  - apply andb_true_iff in E2 as [_ E2].
    assert (E1 : Qneqb ph pw = true).
    { apply Qneqb_true. apply Qneqb_true in E2. intros E. apply E2.
      by symmetry. }
    change [mkCandidate i r pw ph false; mkCandidate i r ph pw true]
      with ([mkCandidate i r pw ph false] ++ [mkCandidate i r ph pw true]).
    rewrite app_assoc.
    apply improve_bestAreaOf; [done|]. by apply improve_bestAreaOf.
  - by apply improve_bestAreaOf.
  - apply andb_true_iff in E2 as [_ E2].
    assert (E1 : Qneqb ph pw = true).
    { apply Qneqb_true. apply Qneqb_true in E2. intros E. apply E2.
      by symmetry. }
    by apply improve_bestAreaOf.
Qed.

Lemma fitLoop_bestAreaOf rects i b L :
  bestAreaOf pw ph b L ->
  bestAreaOf pw ph (Guillotine.fitLoop pw ph i rects b)
             (L ++ candidatesFrom pw ph i rects).
Proof.
  revert i b L. induction rects as [|r rects IH]; intros i b L Hb; simpl.
  { by rewrite app_nil_r. }
  rewrite app_assoc. apply IH. by apply fitStep_bestAreaOf.
Qed.

Lemma candidatesFrom_elem i rects c :
  c ∈ candidatesFrom pw ph i rects <->
  (i <= c_idx c)%nat /\ rects !! (c_idx c - i)%nat = Some (c_rect c) /\
  ((c_w c = pw /\ c_h c = ph /\ c_rotated c = false /\
    pw <= r_w (c_rect c) /\ ph <= r_h (c_rect c)) \/
   (c_w c = ph /\ c_h c = pw /\ c_rotated c = true /\
    ph <= r_w (c_rect c) /\ pw <= r_h (c_rect c) /\ ~ pw == ph)).
Proof.
  revert i. induction rects as [|r rects IH]; intros i; simpl.
  { split; [intros H; by apply elem_of_nil in H|]. by intros (_ & ? & _). }
  rewrite elem_of_app, IH. unfold candidatesOf, fits. split.
  - intros [H|(Hle & Hl & H)].
    + apply elem_of_app in H as [H|H].
      * destruct (Qle_bool pw (r_w r) && Qle_bool ph (r_h r)) eqn:E;
          [|by apply elem_of_nil in H].
        apply list_elem_of_singleton in H as ->. simpl. qprop.
        split; [lia|]. rewrite Nat.sub_diag. split; [done|]. by left.
      * destruct (Qle_bool ph (r_w r) && Qle_bool pw (r_h r) && Qneqb pw ph)
          eqn:E; [|by apply elem_of_nil in H].
        apply list_elem_of_singleton in H as ->. simpl. qprop.
        split; [lia|]. rewrite Nat.sub_diag. split; [done|]. by right.
    + split; [lia|]. split; [|done].
      replace (c_idx c - i)%nat with (S (c_idx c - S i)) by lia. done.
  - intros (Hle & Hl & H).
    destruct (decide (c_idx c = i)) as [E|Hne].
    + left. rewrite E, Nat.sub_diag in Hl. simpl in Hl. injection Hl as Hr.
      destruct c as [k r' w h rot]. simpl in *. subst k r'.
      apply elem_of_app.
      destruct H as [(-> & -> & -> & H1 & H2)|(-> & -> & -> & H1 & H2 & H3)].
      * left. apply Qle_bool_iff in H1, H2. rewrite H1, H2. by left.
      * right. apply Qle_bool_iff in H1, H2. apply Qneqb_true in H3.
        rewrite H1, H2, H3. by left.
    + right. split; [lia|]. split; [|done].
      replace (c_idx c - i)%nat with (S (c_idx c - S i)) in Hl by lia. done.
Qed.



(** [Guillotine.findBestFit] answers [null] when the piece fits no free
    rectangle in any orientation, and otherwise the first candidate among
    those that leave the least area. *)
Lemma guillotine_findBestFit_spec sheet :
  let cands := candidatesFrom pw ph 0 (freeRects sheet) in
  (Guillotine.findBestFit sheet pw ph = None <-> cands = []) /\
  (forall fit, Guillotine.findBestFit sheet pw ph = Some fit ->
     firstLeast pw ph cands
       (mkCandidate (Guillotine.fit_idx fit) (Guillotine.fit_rect fit)
                    (Guillotine.fit_w fit) (Guillotine.fit_h fit)
                    (Guillotine.fit_rotated fit))).
Proof.
  cbv zeta. unfold Guillotine.findBestFit. cbv zeta.
  pose proof (fitLoop_bestAreaOf (freeRects sheet) 0
                (Guillotine.mkBest None None None pw ph) []) as H.
  simpl in H. specialize (H (conj eq_refl (conj eq_refl eq_refl))).
  unfold bestAreaOf in H.
  destruct (Guillotine.bestScore _) as [sc|] eqn:Esc.
  - destruct H as (k & r & -> & -> & _ & Hfirst). split.
    + split; [done|]. intros E. destruct Hfirst as (L1 & L2 & E' & _).
      rewrite E in E'. by destruct L1.
    + intros fit [= <-]. simpl. done.
  - destruct H as (-> & _ & E). split; [done|]. intros fit [=].
Qed.

End GuillotineFit.


(** ** Rectangles a kerf apart *)









(** ** Invariants of the sheets of the guillotine packer *)

(** A property of sheets that every first placement on a fresh sheet
    establishes and every later placement keeps holds of every sheet of the
    result. *)
Section GuillotineInvariant.

Variables (sheetW sheetH kerf : Q) (maxSheets : Z).
Variable Inv : Sheet -> Prop.
Variable Pc : Piece -> Prop.
Hypothesis Inv_first : forall piece s',
  Pc piece ->
  Guillotine.tryPlace kerf piece (Guillotine.newSheet sheetW sheetH) = Some s' ->
  Inv s'.
Hypothesis Inv_place : forall piece sheet s',
  Pc piece -> Inv sheet -> Guillotine.tryPlace kerf piece sheet = Some s' ->
  Inv s'.


Lemma packLoop_snoc sorted piece :
  Guillotine.packLoop sheetW sheetH kerf maxSheets (sorted ++ [piece]) =
  Guillotine.packStep sheetW sheetH kerf maxSheets
    (Guillotine.packLoop sheetW sheetH kerf maxSheets sorted) piece.
Proof. unfold Guillotine.packLoop. by rewrite foldl_app. Qed.



End GuillotineInvariant.

(** ** Pieces and free rectangles a kerf apart *)

Section GuillotineGeometry.

Variables (sheetW sheetH kerf : Q).



End GuillotineGeometry.

(** ** Sheets of the result of the guillotine packer *)

Section GuillotineRun.

Variables (sheetW sheetH kerf : Q) (maxSheets : Z).

#[local] Abbreviation gplace := (Guillotine.tryPlace kerf).
#[local] Abbreviation gplace_ := (Guillotine.tryPlace_ kerf).
#[local] Abbreviation gstep :=
  (Guillotine.packStep sheetW sheetH kerf maxSheets).
#[local] Abbreviation gloop :=
  (Guillotine.packLoop sheetW sheetH kerf maxSheets).

Lemma guillotine_tryPlace_fits piece sheet :
  is_Some (Guillotine.findBestFit sheet (width piece) (height piece)) ->
  exists s' p, gplace piece sheet = Some s' /\
    pieces s' = pieces sheet ++ [p] /\ fakePiece p = piece.
Proof.
  intros [fit Hfit]. unfold Guillotine.tryPlace. rewrite Hfit.
  eexists _, _. split; [done|]. split; [done|]. apply fakePiece_placed.
Qed.

Lemma guillotine_tryPlace_adds piece sheet s' :
  gplace piece sheet = Some s' ->
  exists p, pieces s' = pieces sheet ++ [p] /\ fakePiece p = piece.
Proof.
  unfold Guillotine.tryPlace.
  destruct (Guillotine.findBestFit _ _ _) as [fit|]; [|done].
  intros [= <-]. eexists. split; [done|]. apply fakePiece_placed.
Qed.






End GuillotineRun.





(** ** Accounting, cap and reasons *)

Section GuillotineAccounting.

Variables (sheetW sheetH kerf : Q) (maxSheets : Z).

#[local] Abbreviation gstep :=
  (Guillotine.packStep sheetW sheetH kerf maxSheets).
#[local] Abbreviation gloop :=
  (Guillotine.packLoop sheetW sheetH kerf maxSheets).

Lemma guillotine_bestSheetLoop_Some piece i rest idx0 best idx :
  Guillotine.bestSheetLoop piece i rest idx0 best = Some idx ->
  idx0 = Some idx \/
  exists s, rest !! (idx - i)%nat = Some s /\ (i <= idx)%nat /\
    is_Some (Guillotine.findBestFit s (width piece) (height piece)).
Proof.
  revert i idx0 best. induction rest as [|s rest IH]; intros i idx0 best; simpl.
  { by left. }
  destruct (Guillotine.findBestFit s _ _) as [fit|] eqn:E.
  - destruct (Guillotine.belowScore _ _).
    + intros H. apply IH in H as [[= <-]|(s' & Hs' & Hle & Hfit)].
      * right. exists s. rewrite Nat.sub_diag. simpl. rewrite E. eauto.
      * right. exists s'. replace (idx - i)%nat with (S (idx - S i)) by lia.
        simpl. split; [done|]. split; [lia|done].
    + intros H. apply IH in H as [->|(s' & Hs' & Hle & Hfit)]; [by left|].
      right. exists s'. replace (idx - i)%nat with (S (idx - S i)) by lia.
      simpl. split; [done|]. split; [lia|done].
  - intros H. apply IH in H as [->|(s' & Hs' & Hle & Hfit)]; [by left|].
    right. exists s'. replace (idx - i)%nat with (S (idx - S i)) by lia.
    simpl. split; [done|]. split; [lia|done].
Qed.

(** A piece that fits the empty sheet in some orientation finds a fit on
    a fresh sheet. *)
Lemma guillotine_findBestFit_newSheet piece :
  Guillotine.fitsAtAll sheetW sheetH piece = true ->
  is_Some (Guillotine.findBestFit (Guillotine.newSheet sheetW sheetH)
             (width piece) (height piece)).
Proof.
  intros Hfit.
  destruct (Guillotine.findBestFit _ _ _) as [fit|] eqn:E; [by eexists|].
  exfalso. apply guillotine_findBestFit_spec in E.
  assert (Hnone : forall c,
    c ∉ candidatesFrom (width piece) (height piece) 0
          (freeRects (Guillotine.newSheet sheetW sheetH))).
  { intros c. rewrite E. apply not_elem_of_nil. }
  unfold Guillotine.fitsAtAll in Hfit. apply orb_true_iff in Hfit.
  set (R := mkRect 0 0 sheetW sheetH).
  destruct (Qeq_dec (width piece) (height piece)) as [Heq|Hne].
  - apply (Hnone (mkCandidate 0 R (width piece) (height piece) false)).
    apply candidatesFrom_elem. simpl. split; [lia|]. split; [done|].
    left. destruct Hfit as [Hfit|Hfit]; qprop; repeat split; lra.
  - destruct Hfit as [Hfit|Hfit]; qprop.
    + apply (Hnone (mkCandidate 0 R (width piece) (height piece) false)).
      apply candidatesFrom_elem. simpl. split; [lia|]. split; [done|].
      left. repeat split; lra.
    + apply (Hnone (mkCandidate 0 R (height piece) (width piece) true)).
      apply candidatesFrom_elem. simpl. split; [lia|]. split; [done|].
      right. repeat split; try lra; done.
Qed.

(** A step of the guillotine packer accounts for the piece it is given,
    opens a sheet only below the cap, and gives its reason for a piece it
    leaves out. *)
Lemma guillotine_packStep_accounted st piece :
  accounted (gstep st piece) ≡ₚ accounted st ++ [piece].
Proof.
  unfold Guillotine.packStep, accounted.
  destruct (negb (Guillotine.fitsAtAll sheetW sheetH piece)); simpl.
  { by rewrite fmap_app, (assoc_L (++)). }
  destruct (Guillotine.bestSheetLoop _ _ _ _ _) as [idx|] eqn:Eb; simpl.
  { apply guillotine_bestSheetLoop_Some in Eb as [?|(s & Hs & _ & Hfit)]; [done|].
    rewrite Nat.sub_0_r in Hs.
    rewrite (list_lookup_total_correct _ _ _ Hs).
    destruct (guillotine_tryPlace_fits kerf piece s Hfit) as (s' & p & E & Hp & <-).
    unfold Guillotine.tryPlace_. rewrite E. simpl.
    rewrite (placedOf_insert _ _ _ _ _ Hs Hp).
    rewrite <- !(assoc_L (++)). f_equiv. apply Permutation_app_comm. }
  destruct (maxSheets <=? _)%Z; simpl.
  { by rewrite fmap_app, (assoc_L (++)). }
  destruct (Guillotine.tryPlace _ _ _) as [s|] eqn:E; simpl.
  - apply guillotine_tryPlace_adds in E as (p & Hp & <-).
    rewrite placedOf_app.
    change (placedOf [s]) with ((fakePiece <$> pieces s) ++ []).
    rewrite Hp, app_nil_r. simpl. rewrite <- !(assoc_L (++)). f_equiv.
    apply Permutation_app_comm.
  - by rewrite fmap_app, (assoc_L (++)).
Qed.

Lemma guillotine_packLoop_accounted sorted :
  accounted (gloop sorted) ≡ₚ sorted.
Proof.
  induction sorted as [|piece sorted IH] using rev_ind; [done|].
  by rewrite packLoop_snoc, guillotine_packStep_accounted, IH.
Qed.

Lemma guillotine_packStep_sheets st piece :
  length (sheets (gstep st piece)) = length (sheets st) \/
  (length (sheets (gstep st piece)) = S (length (sheets st)) /\
   (Z.of_nat (length (sheets st)) < maxSheets)%Z).
Proof.
  unfold Guillotine.packStep.
  destruct (negb _); [by left|].
  destruct (Guillotine.bestSheetLoop _ _ _ _ _) as [idx|]; simpl.
  { left. apply length_insert. }
  destruct (maxSheets <=? _)%Z eqn:E; [by left|].
  destruct (Guillotine.tryPlace _ _ _); simpl; [|by left].
  right. rewrite length_app. simpl. split; [lia|]. by apply Z.leb_gt in E.
Qed.

Lemma guillotine_packLoop_cap sorted :
  (0 <= maxSheets)%Z ->
  (Z.of_nat (length (sheets (gloop sorted))) <= maxSheets)%Z.
Proof.
  intros Hmax. induction sorted as [|piece sorted IH] using rev_ind.
  { simpl. lia. }
  rewrite packLoop_snoc.
  destruct (guillotine_packStep_sheets (gloop sorted) piece) as [->|[-> ?]]; lia.
Qed.

Lemma guillotine_packStep_unplaced st piece :
  unplaced (gstep st piece) = unplaced st \/
  exists u, unplaced (gstep st piece) = unplaced st ++ [u] /\
    u_piece u = piece /\ guillotineReasonOk sheetW sheetH u /\
    (reason u = "No sheets remaining"%string ->
     (maxSheets <= Z.of_nat (length (sheets st)))%Z).
Proof.
  unfold Guillotine.packStep.
  destruct (Guillotine.fitsAtAll sheetW sheetH piece) eqn:Ef; simpl.
  - destruct (Guillotine.bestSheetLoop _ _ _ _ _) as [idx|]; simpl; [by left|].
    destruct (maxSheets <=? _)%Z eqn:Ec; simpl.
    + right. eexists. split; [done|]. split; [done|]. split.
      * right. by split.
      * intros _. by apply Z.leb_le in Ec.
    + destruct (guillotine_tryPlace_fits kerf piece _
                  (guillotine_findBestFit_newSheet piece Ef)) as (s & p & -> & _).
      by left.
  - right. eexists. split; [done|]. split; [done|]. split.
    + left. by split.
    + simpl. intros [=].
Qed.

Lemma guillotine_packLoop_unplaced sorted :
  Forall (fun u => guillotineReasonOk sheetW sheetH u /\
            (reason u = "No sheets remaining"%string ->
             (maxSheets <= Z.of_nat (length (sheets (gloop sorted))))%Z))
         (unplaced (gloop sorted)).
Proof.
  induction sorted as [|piece sorted IH] using rev_ind; [constructor|].
  rewrite packLoop_snoc.
  pose proof (guillotine_packStep_sheets (gloop sorted) piece) as Hlen.
  assert (Hold : Forall (fun u => guillotineReasonOk sheetW sheetH u /\
            (reason u = "No sheets remaining"%string ->
             (maxSheets <= Z.of_nat (length (sheets
                (gstep (gloop sorted) piece))))%Z))
         (unplaced (gloop sorted))).
  { eapply Forall_impl; [exact IH|]. intros u [Hu Hcap]. split; [done|].
    intros Hr. specialize (Hcap Hr). lia. }
  destruct (guillotine_packStep_unplaced (gloop sorted) piece)
    as [->|(u & -> & _ & Hu & Hcap)]; [done|].
  apply Forall_app. split; [done|]. apply Forall_singleton. split; [done|].
  intros Hr. specialize (Hcap Hr). lia.
Qed.

End GuillotineAccounting.

Lemma guillotine_packPieces_accounted sheetW sheetH kerf maxSheets pcs :
  accountedOut (Guillotine.packPieces sheetW sheetH kerf maxSheets pcs) ≡ₚ pcs.
Proof.
  unfold Guillotine.packPieces. cbv zeta.
  transitivity (accounted (Guillotine.packLoop sheetW sheetH kerf maxSheets
                             (js_sort Guillotine.byArea pcs))).
  - unfold accountedOut, accounted, placedOf. simpl. f_equiv.
    generalize (sheets (Guillotine.packLoop sheetW sheetH kerf maxSheets
                          (js_sort Guillotine.byArea pcs))).
    intros shs. induction shs as [|s shs IH]; [done|].
    rewrite map_cons, !bind_cons. by rewrite IH.
  - by rewrite guillotine_packLoop_accounted, js_sort_perm.
Qed.

(** X18: the guillotine packer accounts for every piece.  The pieces
    placed on the sheets of its result, with their original sizes,
    together with the pieces of its unplaced list are the input pieces,
    each as often as in the input; and every unplaced entry carries its
    input piece unchanged among the input. *)
Theorem guillotine_pieces_accounted sheetW sheetH kerf maxSheets pcs :
  let res := Guillotine.packPieces sheetW sheetH kerf maxSheets pcs in
  accountedOut res ≡ₚ pcs /\
  Forall (fun u => u_piece u ∈ pcs) (res_unplaced res).
Proof.
  cbv zeta.
  pose proof (guillotine_packPieces_accounted sheetW sheetH kerf maxSheets pcs)
    as H.
  split; [done|]. apply Forall_forall. intros u Hu.
  rewrite <- H. unfold accountedOut. apply elem_of_app. right.
  apply list_elem_of_fmap. by exists u.
Qed.

(** X19: the guillotine packer never uses more sheets than a cap that is
    not negative.  Every entry of its unplaced list is a piece too large
    for the sheet in both orientations, with the reason "Too large for
    sheet", or a piece that fits the sheet, with the reason "No sheets
    remaining", and the latter only when the result has as many sheets as
    the cap allows; the reason "Could not place" never occurs. *)
Theorem guillotine_cap_and_reasons sheetW sheetH kerf maxSheets pcs :
  let res := Guillotine.packPieces sheetW sheetH kerf maxSheets pcs in
  ((0 <= maxSheets)%Z ->
   (Z.of_nat (length (res_sheets res)) <= maxSheets)%Z) /\
  Forall (fun u => guillotineReasonOk sheetW sheetH u /\
            (reason u = "No sheets remaining"%string ->
             (maxSheets <= Z.of_nat (length (res_sheets res)))%Z))
         (res_unplaced res).
Proof.
  cbv zeta. unfold Guillotine.packPieces. cbv zeta. simpl.
  rewrite length_map. split.
  - apply guillotine_packLoop_cap.
  - apply guillotine_packLoop_unplaced.
Qed.

(** ** Area bookkeeping *)




Section GuillotineArea.

Variables (sheetW sheetH kerf : Q).


End GuillotineArea.

Section GuillotineAreaResult.

Variables (sheetW sheetH kerf : Q) (maxSheets : Z).



End GuillotineAreaResult.



(** ** The order of the pieces on a sheet *)




Section GuillotineOrder.

Variables (sheetW sheetH kerf : Q) (maxSheets : Z).

#[local] Abbreviation gstep :=
  (Guillotine.packStep sheetW sheetH kerf maxSheets).
#[local] Abbreviation gloop :=
  (Guillotine.packLoop sheetW sheetH kerf maxSheets).



End GuillotineOrder.



(** ** Suggestions of the two packers *)

Lemma fitExamplesOf_snoc rects r :
  Guillotine.fitExamplesOf (rects ++ [r]) =
  if Qle_bool 200 (r_w r) && Qle_bool 200 (r_h r)
  then Guillotine.fitExamplesOf rects ++ [gapKey r]
  else Guillotine.fitExamplesOf rects.
Proof. unfold Guillotine.fitExamplesOf. by rewrite foldl_app. Qed.

(** The gaps that the guillotine packer lists: the keys of the usable
    free rectangles, in their order, repeated as often as they occur. *)
Lemma fitExamplesOf_keys rects :
  Guillotine.fitExamplesOf rects =
  gapKey <$> filterb (fun r => Qle_bool 200 (r_w r) && Qle_bool 200 (r_h r))
                     rects.
Proof.
  induction rects as [|r rects IH] using rev_ind; [done|].
  rewrite fitExamplesOf_snoc, IH.
  assert (Hf : forall (f : Rect -> bool) l x,
            filterb f (l ++ [x]) = filterb f l ++ (if f x then [x] else [])).
  { intros f l x. induction l as [|a l IHl]; simpl.
    - by destruct (f x).
    - destruct (f a); simpl; by rewrite IHl. }
  rewrite Hf. destruct (_ && _); rewrite fmap_app; simpl; [done|].
  by rewrite app_nil_r.
Qed.

Lemma guillotine_fitExamples_nonempty rects :
  (0 <? length (Guillotine.fitExamplesOf rects))%nat =
  (0 <? length (fitExamplesLoop rects ∅ []))%nat.
Proof.
  destruct (0 <? length (fitExamplesLoop rects ∅ []))%nat eqn:E.
  - apply fitExamples_nonempty in E as (r & Hr & [H1 H2]).
    apply Nat.ltb_lt. rewrite fitExamplesOf_keys, length_fmap.
    assert (Hin : r ∈ filterb (fun r => Qle_bool 200 (r_w r) &&
                                        Qle_bool 200 (r_h r)) rects).
    { apply filterb_elem. split; [done|].
      apply Qle_bool_iff in H1, H2. by rewrite H1, H2. }
    destruct (filterb _ rects); [by apply elem_of_nil in Hin|simpl; lia].
  - apply Nat.ltb_ge. apply Nat.ltb_ge in E.
    rewrite fitExamplesOf_keys, length_fmap.
    destruct (filterb _ rects) as [|r l] eqn:Ef; [simpl; lia|]. exfalso.
    assert (Hin : r ∈ filterb (fun r => Qle_bool 200 (r_w r) &&
                                        Qle_bool 200 (r_h r)) rects)
      by (rewrite Ef; by left).
    apply filterb_elem in Hin as [Hr Hu]. qprop.
    assert (Hne : (0 <? length (fitExamplesLoop rects ∅ []))%nat = true).
    { apply fitExamples_nonempty. exists r. by split. }
    apply Nat.ltb_lt in Hne. lia.
Qed.

Lemma guillotine_sheetSuggestions_keys sheetW sheetH n idx sheet :
  suggestionKey <$> Guillotine.sheetSuggestions sheetW sheetH n idx sheet =
  suggestionKey <$> sheetSuggestions sheetW sheetH n idx sheet.
Proof.
  unfold Guillotine.sheetSuggestions, sheetSuggestions. cbv zeta.
  rewrite guillotine_fitExamples_nonempty.
  destruct (Qltb 0 _); [|done].
  destruct (Qltb 15 _); [destruct (0 <? _)%nat|];
    destruct (_ && _); done.
Qed.

(** X23: the two packers suggest alike.  For the same sheets the
    suggestions of the guillotine packer and of the maximal-rectangles
    engine have the same types for the same sheet numbers, in the same
    order; only the text of a suggestion can differ, by the usable gaps
    that the guillotine packer lists with repetitions. *)
Theorem suggestions_agree sheetW sheetH shs unpl :
  suggestionKey <$> Guillotine.generateSuggestions sheetW sheetH shs unpl =
  suggestionKey <$> generateSuggestions sheetW sheetH shs unpl.
Proof.
  unfold Guillotine.generateSuggestions, generateSuggestions. cbv zeta.
  rewrite !fmap_app. f_equal.
  generalize (length shs). intros n.
  induction shs as [|sheet shs IH] using rev_ind; [done|].
  rewrite !concat_imap_snoc, !fmap_app, IH.
  by rewrite guillotine_sheetSuggestions_keys.
Qed.

(** * Properties of the caller *)

(** ** Pieces handed to the engine *)

Lemma length_bind_sum {A B} (f : A -> list B) (l : list A) :
  length (l ≫= f) = sum_list ((fun a => length (f a)) <$> l).
Proof.
  induction l as [|a l IH]; [done|].
  rewrite bind_cons, length_app, IH. done.
Qed.

Lemma length_bind_const {A B} (f : A -> list B) (l : list A) c :
  (forall a, length (f a) = c) -> length (l ≫= f) = (length l * c)%nat.
Proof.
  intros Hf. induction l as [|a l IH]; [done|].
  rewrite bind_cons, length_app, IH, Hf. simpl. lia.
Qed.

Lemma length_itemPieces fIdx item :
  length (App.itemPieces fIdx item) =
  (Z.to_nat (App.f_qty item) * cutCount item)%nat.
Proof.
  unfold App.itemPieces. cbv zeta.
  rewrite (length_bind_const _ _ (cutCount item)).
  { by rewrite length_seq. }
  intros fq. unfold cutCount. rewrite length_bind_sum. f_equal.
  apply list_fmap_ext. intros i cut _.
  unfold App.cutPieces. by rewrite length_fmap, length_seq.
Qed.

Lemma sum_list_snoc l x : sum_list (l ++ [x]) = (sum_list l + x)%nat.
Proof. induction l as [|a l IH]; simpl; [lia|]. rewrite IH. lia. Qed.

Lemma length_expandPieces furniture :
  length (App.expandPieces furniture) = pieceCount furniture.
Proof.
  unfold App.expandPieces, pieceCount.
  induction furniture as [|item furniture IH] using rev_ind; [done|].
  rewrite concat_imap_snoc, length_app, IH, length_itemPieces, fmap_app.
  simpl. by rewrite sum_list_snoc.
Qed.

Lemma colors_lookup fIdx :
  App.COLORS !! (fIdx mod 12)%nat =
  Some (App.COLORS !!! (fIdx mod length App.COLORS)%nat).
Proof.
  change (length App.COLORS) with 12%nat.
  apply list_lookup_lookup_total_lt. change (length App.COLORS) with 12%nat.
  apply Nat.mod_upper_bound. lia.
Qed.

Lemma expandPieces_from furniture p :
  p ∈ App.expandPieces furniture -> pieceFrom furniture p.
Proof.
  unfold App.expandPieces. intros Hp.
  apply elem_of_concat_imap in Hp as (fIdx & item & Hitem & Hp).
  unfold App.itemPieces in Hp. cbv zeta in Hp.
  apply list_elem_of_bind in Hp as (fq & Hp & _).
  apply list_elem_of_bind in Hp as (cut & Hp & Hcut).
  unfold App.cutPieces in Hp.
  apply list_elem_of_fmap in Hp as (cq & -> & _).
  exists fIdx, item, cut. cbn [pc_label width height pc_color].
  repeat split; try done. apply colors_lookup.
Qed.

(** X24: the call of the engine that [calculate] makes.  When
    [calculate] calls the engine, the piece list is not empty, has one
    piece for every unit of every cut of every furniture item, quantity
    of the item times quantity of the cut, and every piece carries the
    name and the size of its cut and the colour of its item, taken from
    the palette round robin; the sheet width, the sheet height and the
    sheet cap handed over are never zero, since an empty or zero field
    falls back to 2440, 1220 and 5. *)
Theorem calculate_call form furniture call :
  App.calculate form furniture = Some call ->
  App.call_pieces call <> [] /\
  length (App.call_pieces call) = pieceCount furniture /\
  Forall (pieceFrom furniture) (App.call_pieces call) /\
  ~ App.call_sheetW call == 0 /\ ~ App.call_sheetH call == 0 /\
  App.call_maxSheets call <> 0%Z.
Proof.
  unfold App.calculate. cbv zeta.
  destruct (length (App.expandPieces furniture) =? 0)%nat eqn:E; [done|].
  intros [= <-]. simpl. apply Nat.eqb_neq in E.
  split; [by destruct (App.expandPieces furniture)|].
  split; [apply length_expandPieces|].
  split; [apply Forall_forall; intros p; apply expandPieces_from|].
  assert (Hor : forall x d, ~ d == 0 -> ~ App.orElse x d == 0).
  { intros x d Hd. unfold App.orElse. destruct x as [v|]; [|done].
    destruct (Qeq_bool v 0) eqn:Ev; [done|]. by apply Qeq_bool_neq. }
  split; [by apply Hor|]. split; [by apply Hor|].
  unfold App.orElseZ. destruct (App.sheetQty form) as [v|]; [|done].
  destruct (v =? 0)%Z eqn:Ev; [done|]. by apply Z.eqb_neq.
Qed.

Lemma calculate_call_witness :
  exists call,
    App.calculate (App.mkForm None (Some 0) None None) App.allPresets
      = Some call /\
    App.call_pieces call <> [] /\
    length (App.call_pieces call) = pieceCount App.allPresets /\
    Forall (pieceFrom App.allPresets) (App.call_pieces call) /\
    ~ App.call_sheetW call == 0 /\ ~ App.call_sheetH call == 0 /\
    App.call_maxSheets call <> 0%Z.
Proof.
  eexists. split; [vm_compute; reflexivity|].
  apply (calculate_call (App.mkForm None (Some 0) None None) App.allPresets).
  vm_compute. reflexivity.
Defined.

(** ** Count of placed pieces *)

Lemma placedCount_accounted res :
  (App.placedCount res + length (res_unplaced res))%nat =
  length (accountedOut res).
Proof.
  unfold App.placedCount, accountedOut. rewrite length_app, length_fmap.
  f_equal. generalize (res_sheets res). intros shs.
  assert (H : forall n,
    foldl (fun s sh => (s + length (o_pieces sh))%nat) n shs =
    (n + length (shs ≫= fun o => fakePiece <$> o_pieces o))%nat).
  { induction shs as [|o shs IH]; intros n; [simpl; lia|].
    cbn [foldl]. rewrite IH, bind_cons, length_app, length_fmap. lia. }
  apply (H 0%nat).
Qed.

(** X25: the count of placed pieces that the page shows.  For a result
    of the maximal-rectangles engine the placed and the unplaced pieces
    together are at most the pieces handed in; for a result of the
    guillotine packer they are exactly the pieces handed in. *)
Theorem placed_count_within_total sheetW sheetH kerf maxSheets pcs :
  (forall fuel res,
     packPieces sheetW sheetH kerf maxSheets fuel pcs = Some res ->
     (App.placedCount res + length (res_unplaced res) <= length pcs)%nat) /\
  (let res := Guillotine.packPieces sheetW sheetH kerf maxSheets pcs in
   (App.placedCount res + length (res_unplaced res))%nat = length pcs).
Proof.
  split.
  - intros fuel res Hres. rewrite placedCount_accounted.
    apply submseteq_length.
    apply (packPieces_accounted _ _ _ _ _ _ _ Hres).
  - cbv zeta. rewrite placedCount_accounted.
    apply Permutation_length, guillotine_packPieces_accounted.
Qed.
